(** * macrochain scraper: the Redis-backed message queue

    A shallow embedding of [scraper/pkg/queue/queue.go] and
    [scraper/pkg/queue/redis.go], together with the parts of the Go
    standard library that decide what these two files do on the wire
    ([unicode/utf8], [encoding/base64], [time]'s RFC 3339 codec,
    [encoding/json] on the [Message] struct) and of [github.com/google/uuid].

    Conventions.
    - a Go [string] is a [string] (a sequence of 8-bit characters, not
      necessarily valid UTF-8); a Go [[]byte] is a [list byte];
    - a Go [map[string]string] is a [gmap string string]; the [nil]
      map and the [nil] slice are [None];
    - goroutines are state machines driven by an explicit schedule. *)

From Stdlib Require Import NArith ZArith List Bool Lia.
From Stdlib.Strings Require Import String Ascii Byte.
From stdpp Require Import base option list gmap strings sorting.
Import ListNotations.

#[local] Set Warnings "-register-all".

Local Open Scope N_scope.

(** ** Bytes *)

#[global] Instance byte_eq_dec : EqDecision byte := Byte.byte_eq_dec.

Definition byte_val (b : byte) : N := Byte.to_N b.

(** Go's [byte(x)] conversion of an integer: the low eight bits. *)
Definition byte_of (n : N) : byte :=
  match Byte.of_N (n mod 256) with
  | Some b => b
  | None => x00
  end.

Definition in_range (lo hi : N) (b : byte) : bool :=
  (lo <=? byte_val b) && (byte_val b <=? hi).

(** ** unicode/utf8 *)

Module utf8.

Definition RuneError : N := 0xFFFD.
Definition MaxRune : N := 0x10FFFF.
Definition RuneSelf : N := 0x80.
Definition UTFMax : nat := 4.

Definition locb : N := 0x80.
Definition hicb : N := 0xBF.

(** The [first] table with its accept ranges: for a leading byte, the
    length of the sequence and the range of the second byte; [None]
    for the bytes that start no sequence ([xx]). ASCII is handled
    before the table is consulted. *)
Definition first (p0 : N) : option (nat * N * N) :=
  if (0xC2 <=? p0) && (p0 <=? 0xDF) then Some (2%nat, locb, hicb)
  else if p0 =? 0xE0 then Some (3%nat, 0xA0, hicb)
  else if (0xE1 <=? p0) && (p0 <=? 0xEC) then Some (3%nat, locb, hicb)
  else if p0 =? 0xED then Some (3%nat, locb, 0x9F)
  else if (0xEE <=? p0) && (p0 <=? 0xEF) then Some (3%nat, locb, hicb)
  else if p0 =? 0xF0 then Some (4%nat, 0x90, hicb)
  else if (0xF1 <=? p0) && (p0 <=? 0xF3) then Some (4%nat, locb, hicb)
  else if p0 =? 0xF4 then Some (4%nat, locb, 0x8F)
  else None.

Definition mask2 : N := 0x1F.
Definition mask3 : N := 0x0F.
Definition mask4 : N := 0x07.
Definition maskx : N := 0x3F.

(** [DecodeRune p]: the first rune of [p] and its width in bytes;
    [(RuneError, 0)] on empty input, [(RuneError, 1)] on an invalid
    encoding. *)
Definition DecodeRune (p : list byte) : N * nat :=
  match p with
  | [] => (RuneError, 0%nat)
  | b0 :: p1 =>
    let p0 := byte_val b0 in
    if p0 <? RuneSelf then (p0, 1%nat)
    else
      match first p0 with
      | None => (RuneError, 1%nat)
      | Some (sz, lo, hi) =>
        if (length p <? sz)%nat then (RuneError, 1%nat)
        else
          match p1 with
          | [] => (RuneError, 1%nat)
          | b1 :: p2 =>
            if negb (in_range lo hi b1) then (RuneError, 1%nat)
            else if (sz <=? 2)%nat then
              (N.lor (N.shiftl (N.land p0 mask2) 6)
                     (N.land (byte_val b1) maskx), 2%nat)
            else
              match p2 with
              | [] => (RuneError, 1%nat)
              | b2 :: p3 =>
                if negb (in_range locb hicb b2) then (RuneError, 1%nat)
                else if (sz <=? 3)%nat then
                  (N.lor (N.lor (N.shiftl (N.land p0 mask3) 12)
                                (N.shiftl (N.land (byte_val b1) maskx) 6))
                         (N.land (byte_val b2) maskx), 3%nat)
                else
                  match p3 with
                  | [] => (RuneError, 1%nat)
                  | b3 :: _ =>
                    if negb (in_range locb hicb b3) then (RuneError, 1%nat)
                    else
                      (N.lor (N.lor (N.lor
                         (N.shiftl (N.land p0 mask4) 18)
                         (N.shiftl (N.land (byte_val b1) maskx) 12))
                         (N.shiftl (N.land (byte_val b2) maskx) 6))
                         (N.land (byte_val b3) maskx), 4%nat)
                  end
              end
          end
      end
  end.

Definition enc3 (r : N) : list byte :=
  [ byte_of (N.lor 0xE0 (N.shiftr r 12));
    byte_of (N.lor 0x80 (N.land (N.shiftr r 6) maskx));
    byte_of (N.lor 0x80 (N.land r maskx)) ].

(** [EncodeRune r]: the UTF-8 encoding of [r]; surrogates and values
    above [MaxRune] are encoded as [RuneError]. *)
Definition EncodeRune (r : N) : list byte :=
  if r <=? 0x7F then [ byte_of r ]
  else if r <=? 0x7FF then
    [ byte_of (N.lor 0xC0 (N.shiftr r 6));
      byte_of (N.lor 0x80 (N.land r maskx)) ]
  else if (MaxRune <? r) || ((0xD800 <=? r) && (r <=? 0xDFFF)) then
    enc3 RuneError
  else if r <=? 0xFFFF then enc3 r
  else
    [ byte_of (N.lor 0xF0 (N.shiftr r 18));
      byte_of (N.lor 0x80 (N.land (N.shiftr r 12) maskx));
      byte_of (N.lor 0x80 (N.land (N.shiftr r 6) maskx));
      byte_of (N.lor 0x80 (N.land r maskx)) ].

(** [Valid p]: [p] consists entirely of valid UTF-8 encoded runes. *)
Fixpoint valid_fuel (fuel : nat) (p : list byte) : bool :=
  match fuel with
  | O => match p with [] => true | _ => false end
  | S fuel' =>
    match p with
    | [] => true
    | _ =>
      let '(r, size) := DecodeRune p in
      if (r =? RuneError) && (size =? 1)%nat then false
      else valid_fuel fuel' (drop size p)
    end
  end.

Definition Valid (p : list byte) : bool := valid_fuel (length p) p.

Definition ValidString (s : string) : bool := Valid (list_byte_of_string s).

(** The coercion to valid UTF-8 that a text undergoes on its way
    through JSON: each byte that starts no valid encoding is replaced
    by the encoding of [RuneError]. *)
Fixpoint coerce_fuel (fuel : nat) (p : list byte) : list byte :=
  match fuel with
  | O => []
  | S fuel' =>
    match p with
    | [] => []
    | b :: p' =>
      if byte_val b <? RuneSelf then b :: coerce_fuel fuel' p'
      else
        let '(r, size) := DecodeRune p in
        if (r =? RuneError) && (size =? 1)%nat then
          EncodeRune RuneError ++ coerce_fuel fuel' p'
        else take size p ++ coerce_fuel fuel' (drop size p)
    end
  end.


End utf8.

(** ** encoding/base64, the standard encoding with padding *)

Module base64.

(** The alphabet [A-Za-z0-9+/]. *)
Definition encodeStd (n : N) : byte :=
  if n <? 26 then byte_of (65 + n)
  else if n <? 52 then byte_of (97 + (n - 26))
  else if n <? 62 then byte_of (48 + (n - 52))
  else if n =? 62 then x2b
  else x2f.

Definition decodeMap (b : byte) : option N :=
  let c := byte_val b in
  if (65 <=? c) && (c <=? 90) then Some (c - 65)
  else if (97 <=? c) && (c <=? 122) then Some (c - 97 + 26)
  else if (48 <=? c) && (c <=? 57) then Some (c - 48 + 52)
  else if c =? 43 then Some 62
  else if c =? 47 then Some 63
  else None.

Definition padChar : byte := x3d.

(** [EncodeToString]: three bytes become four characters; a final
    group of one or two bytes is padded with [=]. *)
Fixpoint Encode (src : list byte) : list byte :=
  match src with
  | [] => []
  | [a] =>
    let v := N.shiftl (byte_val a) 16 in
    [ encodeStd (N.land (N.shiftr v 18) 0x3F);
      encodeStd (N.land (N.shiftr v 12) 0x3F);
      padChar; padChar ]
  | [a; b] =>
    let v := N.lor (N.shiftl (byte_val a) 16) (N.shiftl (byte_val b) 8) in
    [ encodeStd (N.land (N.shiftr v 18) 0x3F);
      encodeStd (N.land (N.shiftr v 12) 0x3F);
      encodeStd (N.land (N.shiftr v 6) 0x3F);
      padChar ]
  | a :: b :: c :: rest =>
    let v := N.lor (N.lor (N.shiftl (byte_val a) 16)
                          (N.shiftl (byte_val b) 8)) (byte_val c) in
    encodeStd (N.land (N.shiftr v 18) 0x3F) ::
    encodeStd (N.land (N.shiftr v 12) 0x3F) ::
    encodeStd (N.land (N.shiftr v 6) 0x3F) ::
    encodeStd (N.land v 0x3F) :: Encode rest
  end.

Definition is_newline (b : byte) : bool :=
  match b with x0a | x0d => true | _ => false end.

(** Decoding of the quanta once carriage returns and line feeds have
    been dropped. Padding may only end the input; the bits of the
    last quantum that encode no byte are not checked (the encoding
    is not [Strict]). *)
Fixpoint decode_quanta (src : list byte) : option (list byte) :=
  match src with
  | [] => Some []
  | c0 :: c1 :: c2 :: c3 :: rest =>
    match decodeMap c0, decodeMap c1 with
    | Some v0, Some v1 =>
      match decodeMap c2, decodeMap c3 with
      | Some v2, Some v3 =>
        let v := N.lor (N.lor (N.lor (N.shiftl v0 18) (N.shiftl v1 12))
                              (N.shiftl v2 6)) v3 in
        out ← decode_quanta rest;
        Some (byte_of (N.shiftr v 16) :: byte_of (N.shiftr v 8)
              :: byte_of v :: out)
      | Some v2, None =>
        if bool_decide (c3 = padChar ∧ rest = []) then
          let v := N.lor (N.lor (N.shiftl v0 18) (N.shiftl v1 12))
                         (N.shiftl v2 6) in
          Some [byte_of (N.shiftr v 16); byte_of (N.shiftr v 8)]
        else None
      | None, _ =>
        if bool_decide (c2 = padChar ∧ c3 = padChar ∧ rest = []) then
          let v := N.lor (N.shiftl v0 18) (N.shiftl v1 12) in
          Some [byte_of (N.shiftr v 16)]
        else None
      end
    | _, _ => None
    end
  | _ => None
  end.

Definition Decode (src : list byte) : option (list byte) :=
  decode_quanta (filter (λ b, is_newline b = false) src).

End base64.

(** ** time: instants and their RFC 3339 text *)

Module time.

Local Open Scope Z_scope.

(** A [time.Time]: the instant ([sec] seconds and [nsec] nanoseconds
    since January 1, year 1, 00:00:00 UTC), the offset in seconds
    east of UTC that the value's location has at that instant, and
    the monotonic clock reading when there is one. The name of the
    location is not kept. *)
Record Time := mkTime {
  sec : Z;
  nsec : Z;
  offset : Z;
  mono : option Z
}.

(** The zero [Time]: January 1, year 1, 00:00:00 UTC. *)
Definition zero : Time := mkTime 0 0 0 None.

Definition IsZero (t : Time) : bool := (sec t =? 0) && (nsec t =? 0).

(** [t.Equal(u)]: the same instant, whatever the locations. *)
Definition Equal (t u : Time) : bool :=
  (sec t =? sec u) && (nsec t =? nsec u).

Definition secondsPerDay : Z := 86400.
Definition daysPer400Years : Z := 365 * 400 + 97.
Definition daysPer100Years : Z := 365 * 100 + 24.
Definition daysPer4Years : Z := 365 * 4 + 1.

Definition isLeap (year : Z) : bool :=
  (Z.rem year 4 =? 0) && (negb (Z.rem year 100 =? 0) || (Z.rem year 400 =? 0)).

(** [daysBefore[m]]: the days of a non-leap year before month [m+1]. *)
Definition daysBefore (m : Z) : Z :=
  nth (Z.to_nat m) [0; 31; 59; 90; 120; 151; 181; 212; 243; 273; 304; 334; 365] 0.

Definition daysIn (m year : Z) : Z :=
  if (m =? 2) && isLeap year then 29
  else daysBefore m - daysBefore (m - 1).

(** [absDate]: year, month and day of the month of a day count; days
    are counted from January 1 of year 1, which starts a 400-year
    cycle as Go's absolute zero year does. *)
Definition absDate (days : Z) : Z * Z * Z :=
  let d := days in
  let n := d / daysPer400Years in
  let y := 400 * n in
  let d := d - daysPer400Years * n in
  let n := d / daysPer100Years in
  let n := n - Z.shiftr n 2 in
  let y := y + 100 * n in
  let d := d - daysPer100Years * n in
  let n := d / daysPer4Years in
  let y := y + 4 * n in
  let d := d - daysPer4Years * n in
  let n := d / 365 in
  let n := n - Z.shiftr n 2 in
  let y := y + n in
  let d := d - 365 * n in
  let year := y + 1 in
  let day := d in
  if isLeap year && (day =? 31 + 29 - 1) then (year, 2, 29)
  else
    let day := if isLeap year && (31 + 29 - 1 <? day) then day - 1 else day in
    let month := day / 31 in
    let end_ := daysBefore (month + 1) in
    let '(month, begin) :=
      if end_ <=? day then (month + 1, end_) else (month, daysBefore month) in
    (year, month + 1, day - begin + 1).

(** [absClock]: hour, minute and second within the day. *)
Definition absClock (abs : Z) : Z * Z * Z :=
  let s := abs mod secondsPerDay in
  let hour := s / 3600 in
  let s := s - hour * 3600 in
  let min := s / 60 in
  (hour, min, s - min * 60).

(** Days from January 1 of year 1 to January 1 of [year]. *)
Definition daysSinceEpoch (year : Z) : Z :=
  let y := year - 1 in
  let n := y / 400 in
  let y := y - 400 * n in
  let d := daysPer400Years * n in
  let n := y / 100 in
  let y := y - 100 * n in
  let d := d + daysPer100Years * n in
  let n := y / 4 in
  let y := y - 4 * n in
  let d := d + daysPer4Years * n in
  d + 365 * y.

(** [norm hi lo base]: carry [lo] into [hi] so that [0 <= lo < base]. *)
Definition norm (hi lo base : Z) : Z * Z := (hi + lo / base, lo mod base).

(** [Date year month day hour min sec nsec UTC]. *)
Definition Date (year month day hour min sec nsec : Z) : Time :=
  let '(year, m) := norm year (month - 1) 12 in
  let month := m + 1 in
  let '(sec, nsec) := norm sec nsec 1000000000 in
  let '(min, sec) := norm min sec 60 in
  let '(hour, min) := norm hour min 60 in
  let '(day, hour) := norm day hour 24 in
  let d := daysSinceEpoch year in
  let d := d + daysBefore (month - 1) in
  let d := if isLeap year && (3 <=? month) then d + 1 else d in
  let d := d + (day - 1) in
  let abs := d * secondsPerDay + (hour * 3600 + min * 60 + sec) in
  mkTime abs nsec 0 None.

(** *** Formatting *)

Definition digit (d : Z) : byte := byte_of (Z.to_N (48 + d)).

(** The decimal digits of [u], least significant first. *)
Fixpoint digits_rev (fuel : nat) (u : Z) : list byte :=
  match fuel with
  | O => []
  | S fuel' =>
    if u <? 10 then [digit u]
    else digit (u mod 10) :: digits_rev fuel' (u / 10)
  end.

(** [appendInt x width]: [x] in decimal, zero-padded to [width]. *)
Definition appendInt (x : Z) (width : nat) : list byte :=
  let u := Z.abs x in
  let ds := rev (digits_rev 20 u) in
  (if x <? 0 then [x2d] else []) ++
  replicate (width - length ds) x30 ++ ds.

Fixpoint trim_zeros_rev (l : list byte) : list byte :=
  match l with
  | x30 :: l' => trim_zeros_rev l'
  | _ => l
  end.

(** [appendNano] for the layout [.999999999]: nothing for zero,
    otherwise a period and nine digits without trailing zeros. *)
Definition appendNano (nanosec : Z) : list byte :=
  if nanosec =? 0 then []
  else x2e :: rev (trim_zeros_rev (rev (appendInt nanosec 9))).

(** The zone of [appendFormatRFC3339]: [Z] for UTC, else the sign and
    the offset in hours and minutes. *)
Definition appendZone (offset : Z) : list byte :=
  if offset =? 0 then [x5a]
  else
    let zone := Z.quot offset 60 in
    let '(sign, zone) := if zone <? 0 then (x2d, - zone) else (x2b, zone) in
    [sign] ++ appendInt (Z.quot zone 60) 2 ++ [x3a]
           ++ appendInt (Z.rem zone 60) 2.

Definition appendFormatRFC3339 (t : Time) : list byte :=
  let abs := sec t + offset t in
  let '(year, month, day) := absDate (abs / secondsPerDay) in
  let '(hour, min, s) := absClock abs in
  appendInt year 4 ++ [x2d] ++ appendInt month 2 ++ [x2d] ++ appendInt day 2
  ++ [x54]
  ++ appendInt hour 2 ++ [x3a] ++ appendInt min 2 ++ [x3a] ++ appendInt s 2
  ++ appendNano (nsec t)
  ++ appendZone (offset t).

Definition num2 (b : list byte) : Z :=
  match b with
  | b0 :: b1 :: _ =>
    10 * (Z.of_N (byte_val b0) - 48) + (Z.of_N (byte_val b1) - 48)
  | _ => 0
  end.

(** [appendStrictRFC3339]: the text, or an error for a year outside
    [0,9999] or a zone hour outside [0,23]. *)
Definition appendStrictRFC3339 (t : Time) : string + list byte :=
  let b := appendFormatRFC3339 t in
  if negb (bool_decide (b !! 4%nat = Some x2d)) then
    inl "year outside of range [0,9999]"%string
  else if negb (bool_decide (last b = Some x5a)) then
    let c := b !! (length b - 6)%nat in
    if match c with Some c => in_range 48 57 c | None => false end
       || (24 <=? num2 (drop (length b - 5) b)) then
      inl "timezone hour outside of range [0,23]"%string
    else inr b
  else inr b.

(** [Time.MarshalJSON]: the strict RFC 3339 text between quotes. *)
Definition MarshalJSON (t : Time) : string + list byte :=
  match appendStrictRFC3339 t with
  | inl e => inl ("Time.MarshalJSON: " ++ e)%string
  | inr b => inr ([x22] ++ b ++ [x22])
  end.

(** *** Parsing *)

Definition isDigit (s : list byte) (i : nat) : bool :=
  match s !! i with
  | Some c => in_range 48 57 c
  | None => false
  end.

(** [parseUint s min max]: [s] as an unsigned decimal within
    [[min,max]]; [None] when a character is no digit or the value is
    out of range. *)
Definition parseUint (s : list byte) (min max : Z) : option Z :=
  x ← foldl (λ acc c,
             x ← acc;
             if in_range 48 57 c then Some (x * 10 + Z.of_N (byte_val c) - 48)
             else None) (Some 0) s;
  if (x <? min) || (max <? x) then None else Some x.

(** [parseNanoseconds value nbytes], called on a period followed by
    [nbytes - 1] digits: at most nine digits count, scaled to
    nanoseconds. *)
Definition parseNanoseconds (value : list byte) (nbytes : nat) : Z :=
  let nbytes := Nat.min nbytes 10 in
  let value := take nbytes value in
  match parseUint (drop 1 value) 0 999999999 with
  | Some ns => ns * 10 ^ Z.of_nat (10 - nbytes)
  | None => 0
  end.

Fixpoint count_digits (s : list byte) : nat :=
  match s with
  | c :: s' => if in_range 48 57 c then S (count_digits s') else O
  | [] => O
  end.

Definition slice (s : list byte) (i j : nat) : list byte :=
  take (j - i) (drop i s).

(** The fractional second of [parseRFC3339]: a period and digits,
    when there are any, and the text after them. *)
Definition parseFraction (s : list byte) : Z * list byte :=
  if (2 <=? length s)%nat && bool_decide (s !! 0%nat = Some x2e)
     && isDigit s 1 then
    let n := S (count_digits (drop 1 s)) in
    (parseNanoseconds s n, drop n s)
  else (0, s).

(** The zone of [parseRFC3339], applied to the time [t] read so far
    as UTC. *)
Definition parseZone (t : Time) (s : list byte) : option Time :=
  if bool_decide (s = [x5a]) then Some t
  else if negb (length s =? 6)%nat then None
  else
    hr ← parseUint (slice s 1 3) 0 23;
    mm ← parseUint (slice s 4 6) 0 59;
    if negb (bool_decide ((s !! 0%nat = Some x2d ∨ s !! 0%nat = Some x2b)
                          ∧ s !! 3%nat = Some x3a)) then None
    else
      let zoneOffset := (hr * 60 + mm) * 60 in
      let zoneOffset :=
        if bool_decide (s !! 0%nat = Some x2d) then - zoneOffset
        else zoneOffset in
      Some (mkTime (sec t - zoneOffset) (nsec t) zoneOffset None).

(** The fast path of [parseStrictRFC3339]; [None] when the text must
    go through the layout-driven [Parse]. *)
Definition parseRFC3339 (s : list byte) : option Time :=
  if (length s <? 19)%nat then None
  else
    year ← parseUint (slice s 0 4) 0 9999;
    month ← parseUint (slice s 5 7) 1 12;
    day ← parseUint (slice s 8 10) 1 (daysIn month year);
    hour ← parseUint (slice s 11 13) 0 23;
    min ← parseUint (slice s 14 16) 0 59;
    sec ← parseUint (slice s 17 19) 0 59;
    if negb (bool_decide (s !! 4%nat = Some x2d ∧ s !! 7%nat = Some x2d ∧
                          s !! 10%nat = Some x54 ∧ s !! 13%nat = Some x3a ∧
                          s !! 16%nat = Some x3a)) then None
    else
      let '(nsec, s) := parseFraction (drop 19 s) in
      parseZone (Date year month day hour min sec nsec) s.

(** The year of [t] in its own zone. *)
Definition Year (t : Time) : Z :=
  (absDate ((sec t + offset t) / secondsPerDay)).1.1.

(** The times that have an RFC 3339 text which reads back as the
    same instant in the same zone: nanoseconds in range, a year of
    four digits, a zone offset of whole minutes below 24 hours. *)
Definition encodable (t : Time) : Prop :=
  0 <= nsec t < 1000000000 ∧ 0 <= Year t <= 9999
  ∧ Z.rem (offset t) 60 = 0 ∧ -86400 < offset t < 86400.

(** What a time is after a round trip through its text: the
    monotonic reading is gone. *)
Definition stripMono (t : Time) : Time := mkTime (sec t) (nsec t) (offset t) None.

End time.

(** ** encoding/json: texts *)

Module json.

(** A parsed JSON text. Strings and member names keep the bytes
    between their quotes, escapes included; numbers keep their
    literal. *)
Inductive Value :=
| Null
| Bool (b : bool)
| Number (lit : list byte)
| String (raw : list byte)
| Array (elems : list Value)
| Object (members : list (list byte * Value)).

Definition hex (n : N) : byte :=
  if n <? 10 then byte_of (48 + n) else byte_of (97 + (n - 10)).

(** [htmlSafeSet]: the ASCII characters copied as they are. *)
Definition htmlSafe (b : byte) : bool :=
  let c := byte_val b in
  (0x20 <=? c) && (c <? 0x80)
  && negb (bool_decide (b = x22)) && negb (bool_decide (b = x5c))
  && negb (bool_decide (b = x3c)) && negb (bool_decide (b = x3e))
  && negb (bool_decide (b = x26)).

(** What [appendString] writes for an ASCII character: itself when
    it is HTML-safe, else a two-character escape or [\u00XX]. *)
Definition escape_ascii (b : byte) : list byte :=
  if htmlSafe b then [b]
  else if bool_decide (b = x5c) || bool_decide (b = x22) then [x5c; b]
  else if bool_decide (b = x08) then [x5c; x62]
  else if bool_decide (b = x0c) then [x5c; x66]
  else if bool_decide (b = x0a) then [x5c; x6e]
  else if bool_decide (b = x0d) then [x5c; x72]
  else if bool_decide (b = x09) then [x5c; x74]
  else [x5c; x75; x30; x30;
        hex (N.shiftr (byte_val b) 4); hex (N.land (byte_val b) 0xF)].

(** The body of [appendString] with HTML escaping on: what is
    written between the quotes for [src]. An invalid byte becomes
    [\ufffd]; U+2028 and U+2029 are escaped. *)
Fixpoint escape_fuel (fuel : nat) (src : list byte) : list byte :=
  match fuel with
  | O => []
  | S fuel' =>
    match src with
    | [] => []
    | b :: src' =>
      if byte_val b <? utf8.RuneSelf then
        escape_ascii b ++ escape_fuel fuel' src'
      else
        let '(c, size) := utf8.DecodeRune (take utf8.UTFMax src) in
        if (c =? utf8.RuneError) && (size =? 1)%nat then
          [x5c; x75; x66; x66; x66; x64] ++ escape_fuel fuel' src'
        else if (c =? 0x2028) || (c =? 0x2029) then
          [x5c; x75; x32; x30; x32; hex (N.land c 0xF)]
          ++ escape_fuel fuel' (drop size src)
        else take size src ++ escape_fuel fuel' (drop size src)
    end
  end.

Definition appendString (src : list byte) : list byte :=
  [x22] ++ escape_fuel (length src) src ++ [x22].

(** *** The scanner *)

Definition isSpace (c : byte) : bool :=
  bool_decide (c = x20) || bool_decide (c = x09)
  || bool_decide (c = x0d) || bool_decide (c = x0a).

Fixpoint skip_ws (s : list byte) : list byte :=
  match s with
  | c :: s' => if isSpace c then skip_ws s' else s
  | [] => []
  end.

Definition hexval (c : byte) : option N :=
  let v := byte_val c in
  if (48 <=? v) && (v <=? 57) then Some (v - 48)
  else if (97 <=? v) && (v <=? 102) then Some (v - 97 + 10)
  else if (65 <=? v) && (v <=? 70) then Some (v - 65 + 10)
  else None.

Definition simple_escape (c : byte) : bool :=
  bool_decide (c = x62) || bool_decide (c = x66) || bool_decide (c = x6e)
  || bool_decide (c = x72) || bool_decide (c = x74) || bool_decide (c = x5c)
  || bool_decide (c = x2f) || bool_decide (c = x22).

(** [scan_string s], called after an opening quote: the bytes up to
    the closing quote and the rest of the input. Control characters
    and unknown escapes are syntax errors; UTF-8 is not checked. *)
Fixpoint scan_string (fuel : nat) (s : list byte)
  : option (list byte * list byte) :=
  match fuel with
  | O => None
  | S fuel' =>
    match s with
    | [] => None
    | c :: s1 =>
      if bool_decide (c = x22) then Some ([], s1)
      else if bool_decide (c = x5c) then
        match s1 with
        | [] => None
        | e :: s2 =>
          if simple_escape e then
            '(raw, rest) ← scan_string fuel' s2;
            Some (c :: e :: raw, rest)
          else if bool_decide (e = x75) then
            match s2 with
            | h1 :: h2 :: h3 :: h4 :: s3 =>
              if forallb (λ h, bool_decide (is_Some (hexval h))) [h1; h2; h3; h4]
              then
                '(raw, rest) ← scan_string fuel' s3;
                Some (c :: e :: h1 :: h2 :: h3 :: h4 :: raw, rest)
              else None
            | _ => None
            end
          else None
        end
      else if byte_val c <? 0x20 then None
      else
        '(raw, rest) ← scan_string fuel' s1;
        Some (c :: raw, rest)
    end
  end.

Fixpoint scan_digits (s : list byte) : list byte * list byte :=
  match s with
  | c :: s' =>
    if in_range 48 57 c then
      let '(ds, rest) := scan_digits s' in (c :: ds, rest)
    else ([], s)
  | [] => ([], [])
  end.

(** A number literal: an optional minus sign, then a zero or a
    non-zero digit followed by digits, then an optional fraction (a
    period and digits) and an optional exponent ([e] or [E], a sign,
    digits). *)
Definition scan_number (s : list byte) : option (list byte * list byte) :=
  let '(sign, s) :=
    match s with
    | c :: s' => if bool_decide (c = x2d) then ([c], s') else ([], s)
    | [] => ([], s)
    end in
  '(int, s) ←
    match s with
    | c :: s' =>
      if bool_decide (c = x30) then Some ([c], s')
      else if in_range 49 57 c then
        let '(ds, rest) := scan_digits s' in Some (c :: ds, rest)
      else None
    | [] => None
    end;
  '(frac, s) ←
    match s with
    | c :: s' =>
      if bool_decide (c = x2e) then
        match scan_digits s' with
        | ([], _) => None
        | (ds, rest) => Some (c :: ds, rest)
        end
      else Some ([], s)
    | [] => Some ([], s)
    end;
  '(exp, s) ←
    match s with
    | c :: s' =>
      if bool_decide (c = x65) || bool_decide (c = x45) then
        let '(sg, s'') :=
          match s' with
          | d :: s'' =>
            if bool_decide (d = x2b) || bool_decide (d = x2d) then ([d], s'')
            else ([], s')
          | [] => ([], s')
          end in
        match scan_digits s'' with
        | ([], _) => None
        | (ds, rest) => Some (c :: sg ++ ds, rest)
        end
      else Some ([], s)
    | [] => Some ([], s)
    end;
  Some (sign ++ int ++ frac ++ exp, s).

Definition expect (lit : list byte) (s : list byte) : option (list byte) :=
  if bool_decide (take (length lit) s = lit) then Some (drop (length lit) s)
  else None.

Definition maxNestingDepth : N := 10000.

(** One JSON value at the head of the input, after optional white
    space; [depth] counts the enclosing arrays and objects. *)
Fixpoint parse_value (fuel : nat) (depth : N) (s : list byte)
  : option (Value * list byte) :=
  match fuel with
  | O => None
  | S fuel' =>
    match skip_ws s with
    | [] => None
    | c :: s1 =>
      if bool_decide (c = x7b) then
        if maxNestingDepth <? N.succ depth then None
        else
          match skip_ws s1 with
          | c' :: s2 =>
            if bool_decide (c' = x7d) then Some (Object [], s2)
            else
              '(ms, rest) ← parse_members fuel' (N.succ depth) s1;
              Some (Object ms, rest)
          | [] => None
          end
      else if bool_decide (c = x5b) then
        if maxNestingDepth <? N.succ depth then None
        else
          match skip_ws s1 with
          | c' :: s2 =>
            if bool_decide (c' = x5d) then Some (Array [], s2)
            else
              '(vs, rest) ← parse_elements fuel' (N.succ depth) s1;
              Some (Array vs, rest)
          | [] => None
          end
      else if bool_decide (c = x22) then
        '(raw, rest) ← scan_string (length s1) s1;
        Some (String raw, rest)
      else if bool_decide (c = x74) then
        rest ← expect [x72; x75; x65] s1; Some (Bool true, rest)
      else if bool_decide (c = x66) then
        rest ← expect [x61; x6c; x73; x65] s1; Some (Bool false, rest)
      else if bool_decide (c = x6e) then
        rest ← expect [x75; x6c; x6c] s1; Some (Null, rest)
      else
        '(lit, rest) ← scan_number (c :: s1);
        Some (Number lit, rest)
    end
  end
with parse_members (fuel : nat) (depth : N) (s : list byte)
  : option (list (list byte * Value) * list byte) :=
  match fuel with
  | O => None
  | S fuel' =>
    match skip_ws s with
    | c :: s1 =>
      if bool_decide (c = x22) then
        '(key, s2) ← scan_string (length s1) s1;
        match skip_ws s2 with
        | c2 :: s3 =>
          if bool_decide (c2 = x3a) then
            '(v, s4) ← parse_value fuel' depth s3;
            match skip_ws s4 with
            | c4 :: s5 =>
              if bool_decide (c4 = x2c) then
                '(ms, rest) ← parse_members fuel' depth s5;
                Some ((key, v) :: ms, rest)
              else if bool_decide (c4 = x7d) then Some ([(key, v)], s5)
              else None
            | [] => None
            end
          else None
        | [] => None
        end
      else None
    | [] => None
    end
  end
with parse_elements (fuel : nat) (depth : N) (s : list byte)
  : option (list Value * list byte) :=
  match fuel with
  | O => None
  | S fuel' =>
    '(v, s1) ← parse_value fuel' depth s;
    match skip_ws s1 with
    | c :: s2 =>
      if bool_decide (c = x2c) then
        '(vs, rest) ← parse_elements fuel' depth s2;
        Some (v :: vs, rest)
      else if bool_decide (c = x5d) then Some ([v], s2)
      else None
    | [] => None
    end
  end.

(** [checkValid] and the parse in one: the whole input is one JSON
    value between optional white space. *)
Definition parse (data : list byte) : option Value :=
  '(v, rest) ← parse_value (S (length data)) 0 data;
  match skip_ws rest with
  | [] => Some v
  | _ => None
  end.

(** *** Unquoting *)

Definition getu4 (s : list byte) : option N :=
  match s with
  | b :: u :: h1 :: h2 :: h3 :: h4 :: _ =>
    if bool_decide (b = x5c) && bool_decide (u = x75) then
      a ← hexval h1; b ← hexval h2; c ← hexval h3; d ← hexval h4;
      Some (((a * 16 + b) * 16 + c) * 16 + d)
    else None
  | _ => None
  end.

Definition IsSurrogate (r : N) : bool := (0xd800 <=? r) && (r <? 0xe000).

(** [utf16.DecodeRune r1 r2], with [None] for a second half that
    [getu4] did not find. *)
Definition utf16_DecodeRune (r1 : N) (r2 : option N) : N :=
  match r2 with
  | Some r2 =>
    if (0xd800 <=? r1) && (r1 <? 0xdc00) && (0xdc00 <=? r2) && (r2 <? 0xe000)
    then N.lor (N.shiftl (r1 - 0xd800) 10) (r2 - 0xdc00) + 0x10000
    else utf8.RuneError
  | None => utf8.RuneError
  end.

(** [unquoteBytes] on the bytes between the quotes of a scanned
    string: escapes are resolved and the text is coerced to
    well-formed UTF-8. *)
Fixpoint unquote_fuel (fuel : nat) (s : list byte) : option (list byte) :=
  match fuel with
  | O => match s with [] => Some [] | _ => None end
  | S fuel' =>
    match s with
    | [] => Some []
    | c :: s1 =>
      if bool_decide (c = x5c) then
        match s1 with
        | [] => None
        | e :: s2 =>
          if bool_decide (e = x22) || bool_decide (e = x5c)
             || bool_decide (e = x2f) || bool_decide (e = x27) then
            t ← unquote_fuel fuel' s2; Some (e :: t)
          else if bool_decide (e = x62) then
            t ← unquote_fuel fuel' s2; Some (x08 :: t)
          else if bool_decide (e = x66) then
            t ← unquote_fuel fuel' s2; Some (x0c :: t)
          else if bool_decide (e = x6e) then
            t ← unquote_fuel fuel' s2; Some (x0a :: t)
          else if bool_decide (e = x72) then
            t ← unquote_fuel fuel' s2; Some (x0d :: t)
          else if bool_decide (e = x74) then
            t ← unquote_fuel fuel' s2; Some (x09 :: t)
          else if bool_decide (e = x75) then
            rr ← getu4 s;
            let s' := drop 6 s in
            if IsSurrogate rr then
              let dec := utf16_DecodeRune rr (getu4 s') in
              if negb (dec =? utf8.RuneError) then
                t ← unquote_fuel fuel' (drop 6 s');
                Some (utf8.EncodeRune dec ++ t)
              else
                t ← unquote_fuel fuel' s';
                Some (utf8.EncodeRune utf8.RuneError ++ t)
            else
              t ← unquote_fuel fuel' s';
              Some (utf8.EncodeRune rr ++ t)
          else None
        end
      else if bool_decide (c = x22) || (byte_val c <? 0x20) then None
      else if byte_val c <? utf8.RuneSelf then
        t ← unquote_fuel fuel' s1; Some (c :: t)
      else
        let '(rr, size) := utf8.DecodeRune s in
        t ← unquote_fuel fuel' (drop size s);
        Some (utf8.EncodeRune rr ++ t)
    end
  end.

Definition unquote (raw : list byte) : option (list byte) :=
  unquote_fuel (length raw) raw.

End json.

(** ** queue.go: the Message *)

Record Message := mkMessage {
  ID : string;
  Body : option (list byte);
  Timestamp : time.Time;
  Metadata : option (gmap string string)
}.

(** The zero value of [Message], as [var message Message] declares it. *)
Definition zeroMessage : Message := mkMessage "" None time.zero None.

(** ** encoding/json at type Message *)

Module jsonMessage.

Definition bytes_of (s : string) : list byte := list_byte_of_string s.
Definition str_of (b : list byte) : string := string_of_list_byte b.

Definition key_le (a b : (string * string)%type) : Prop := String.leb (fst a) (fst b).

Definition sorted_entries (m : gmap string string)
  : list (string * string)%type :=
  merge_sort key_le (map_to_list m).

Fixpoint join_members (l : list (list byte)) : list byte :=
  match l with
  | [] => []
  | [x] => x
  | x :: l' => x ++ [x2c] ++ join_members l'
  end.

Definition encode_entry (kv : (string * string)%type) : list byte :=
  json.appendString (bytes_of (fst kv)) ++ [x3a]
  ++ json.appendString (bytes_of (snd kv)).

(** A map is an object whose members are sorted by key; the [nil]
    map is [null]. *)
Definition encode_map (m : option (gmap string string)) : list byte :=
  match m with
  | None => [x6e; x75; x6c; x6c]
  | Some m => [x7b] ++ join_members (encode_entry <$> sorted_entries m) ++ [x7d]
  end.

(** A byte slice is a base64 string; the [nil] slice is [null]. *)
Definition encode_bytes (b : option (list byte)) : list byte :=
  match b with
  | None => [x6e; x75; x6c; x6c]
  | Some b => [x22] ++ base64.Encode b ++ [x22]
  end.

(** A field's name as the struct encoder writes it: quoted and
    followed by a colon. *)
Definition field_name (name : string) : list byte :=
  json.appendString (bytes_of name) ++ [x3a].

(** [json.Marshal(message)]: the fields in declaration order under
    their Go names; the only error is that of [Time.MarshalJSON]. *)
Definition Marshal (m : Message) : string + list byte :=
  match time.MarshalJSON (Timestamp m) with
  | inl e => inl ("json: error calling MarshalJSON for type time.Time: " ++ e)%string
  | inr ts =>
    inr ([x7b]
         ++ field_name "ID" ++ json.appendString (bytes_of (ID m))
         ++ [x2c] ++ field_name "Body" ++ encode_bytes (Body m)
         ++ [x2c] ++ field_name "Timestamp" ++ ts
         ++ [x2c] ++ field_name "Metadata" ++ encode_map (Metadata m)
         ++ [x7d])
  end.

(** *** Decoding *)

(** The result of decoding where this model decides it; [Beyond]
    marks the two places where it does not: a Timestamp text that
    the RFC 3339 fast path rejects and that goes on to the
    layout-driven [time.Parse], and a JSON array stored into a Body
    that an earlier member of the same object has already set (the
    result then depends on the old slice's backing array). *)
Inductive outcome :=
| Ok (m : Message)
| Err (e : string)
| Beyond.

Definition upper (c : N) : N :=
  if (97 <=? c) && (c <=? 122) then c - 32 else c.

(** [foldName key = NAME] for an upper-case ASCII [NAME]: each rune
    of [key] folds to the letter in its place. Beside the two ASCII
    cases of a letter, only U+017F folds to [S] and U+212A to [K]. *)
Fixpoint equalFold (key : list byte) (NAME : list byte) : bool :=
  match NAME with
  | [] => match key with [] => true | _ => false end
  | X :: NAME' =>
    match key with
    | [] => false
    | _ =>
      let '(r, size) := utf8.DecodeRune key in
      let x := byte_val X in
      ((upper r =? x) && (r <? utf8.RuneSelf)
       || (x =? 0x53) && (r =? 0x17F) || (x =? 0x4B) && (r =? 0x212A))
      && equalFold (drop size key) NAME'
    end
  end.

(** An element of a JSON array stored into a [[]byte]. *)
Definition decode_uint8 (v : json.Value) : option byte :=
  match v with
  | json.Null => Some x00
  | json.Number lit =>
    if forallb (in_range 48 57) lit then
      let n := foldl (λ acc c, acc * 10 + (byte_val c - 48)) 0 lit in
      if n <=? 255 then Some (byte_of n) else None
    else None
  | _ => None
  end.

Definition decode_ID (m : Message) (v : json.Value) : outcome :=
  match v with
  | json.Null => Ok m
  | json.String raw =>
    match json.unquote raw with
    | Some s => Ok (mkMessage (str_of s) (Body m) (Timestamp m) (Metadata m))
    | None => Err "json: invalid string"
    end
  | _ => Err "json: cannot unmarshal into Go struct field Message.ID of type string"
  end.

Definition decode_Body (m : Message) (v : json.Value) : outcome :=
  match v with
  | json.Null => Ok (mkMessage (ID m) None (Timestamp m) (Metadata m))
  | json.String raw =>
    match json.unquote raw ≫= base64.Decode with
    | Some b => Ok (mkMessage (ID m) (Some b) (Timestamp m) (Metadata m))
    | None => Err "illegal base64 data"
    end
  | json.Array elems =>
    match Body m with
    | Some _ => Beyond
    | None =>
      match mapM decode_uint8 elems with
      | Some b => Ok (mkMessage (ID m) (Some b) (Timestamp m) (Metadata m))
      | None => Err "json: cannot unmarshal into Go value of type uint8"
      end
    end
  | _ => Err "json: cannot unmarshal into Go struct field Message.Body of type []uint8"
  end.

(** [Time.UnmarshalJSON] receives the text as it stands in the
    input, escapes unresolved. *)
Definition decode_Timestamp (m : Message) (v : json.Value) : outcome :=
  match v with
  | json.Null => Ok m
  | json.String raw =>
    match time.parseRFC3339 raw with
    | Some t => Ok (mkMessage (ID m) (Body m) t (Metadata m))
    | None => Beyond
    end
  | _ => Err "Time.UnmarshalJSON: input is not a JSON string"
  end.

(** The members of an object stored into the map one after the
    other: a later key replaces an earlier one, [null] stores the
    empty string. *)
Fixpoint decode_entries (members : list (list byte * json.Value))
    (acc : gmap string string) : option (gmap string string) :=
  match members with
  | [] => Some acc
  | (kraw, v) :: members' =>
    k ← json.unquote kraw;
    match v with
    | json.Null => decode_entries members' (<[str_of k := ""%string]> acc)
    | json.String raw =>
      s ← json.unquote raw;
      decode_entries members' (<[str_of k := str_of s]> acc)
    | _ => None
    end
  end.

Definition decode_Metadata (m : Message) (v : json.Value) : outcome :=
  match v with
  | json.Null => Ok (mkMessage (ID m) (Body m) (Timestamp m) None)
  | json.Object members =>
    match decode_entries members (default ∅ (Metadata m)) with
    | Some md => Ok (mkMessage (ID m) (Body m) (Timestamp m) (Some md))
    | None => Err "json: cannot unmarshal into Go struct field Message.Metadata of type string"
    end
  | _ => Err "json: cannot unmarshal into Go struct field Message.Metadata of type map[string]string"
  end.

(** One member of the top-level object: the field whose name the
    key folds to is set; a key that names no field is skipped. *)
Definition decode_member (m : Message) (kraw : list byte) (v : json.Value)
  : outcome :=
  match json.unquote kraw with
  | None => Err "json: invalid string"
  | Some key =>
    if equalFold key (bytes_of "ID") then decode_ID m v
    else if equalFold key (bytes_of "BODY") then decode_Body m v
    else if equalFold key (bytes_of "TIMESTAMP") then decode_Timestamp m v
    else if equalFold key (bytes_of "METADATA") then decode_Metadata m v
    else Ok m
  end.

Fixpoint decode_members (m : Message) (members : list (list byte * json.Value))
  : outcome :=
  match members with
  | [] => Ok m
  | (kraw, v) :: members' =>
    match decode_member m kraw v with
    | Ok m' => decode_members m' members'
    | o => o
    end
  end.

(** [json.Unmarshal(data, &message)] on a zero [message], where the
    model decides it. *)
Definition decode (data : list byte) : outcome :=
  match json.parse data with
  | None => Err "invalid character or unexpected end of JSON input"
  | Some json.Null => Ok zeroMessage
  | Some (json.Object members) => decode_members zeroMessage members
  | Some _ => Err "json: cannot unmarshal into Go value of type queue.Message"
  end.

End jsonMessage.

(** ** github.com/google/uuid *)

Module uuid.

(** [NewRandomFromReader]: sixteen random bytes with the version and
    variant bits set. *)
Definition fromRandom (r : list byte) : list byte :=
  let r := take 16 (r ++ replicate 16 x00) in
  let r := alter (λ b, byte_of (N.lor (N.land (byte_val b) 0x0f) 0x40)) 6%nat r in
  alter (λ b, byte_of (N.lor (N.land (byte_val b) 0x3f) 0x80)) 8%nat r.

Definition hexEncode (src : list byte) : list byte :=
  flat_map (λ b, [json.hex (N.shiftr (byte_val b) 4);
                  json.hex (N.land (byte_val b) 0x0f)]) src.

(** [UUID.String]: the form xxxxxxxx-xxxx-xxxx-xxxx-xxxxxxxxxxxx. *)
Definition String (u : list byte) : string :=
  string_of_list_byte
    (hexEncode (take 4 u) ++ [x2d]
     ++ hexEncode (take 2 (drop 4 u)) ++ [x2d]
     ++ hexEncode (take 2 (drop 6 u)) ++ [x2d]
     ++ hexEncode (take 2 (drop 8 u)) ++ [x2d]
     ++ hexEncode (drop 10 u)).

End uuid.

(** ** The world around the queue *)

(** Errors: those the libraries return, and those [fmt.Errorf] wraps
    with [%w]. *)
Inductive Error :=
| errorString (s : string)
| wrapError (prefix : string) (cause : Error).

Fixpoint Error_text (e : Error) : string :=
  match e with
  | errorString s => s
  | wrapError p c => (p ++ ": " ++ Error_text c)%string
  end.

Inductive Level := INFO | WARN | ERROR.

(** A record handed to [slog]: level, message and attributes. *)
Record LogEntry := mkLog {
  lvl : Level;
  msg : string;
  attrs : list (string * string)
}.

(** The heap behind the reference types of a [Message]: the backing
    arrays of byte slices and the maps. *)
Definition loc := positive.

Record Heap := mkHeap {
  h_arrays : gmap loc (list byte);
  h_maps : gmap loc (gmap string string)
}.

Record Slice := mkSlice {
  s_array : loc;
  s_off : nat;
  s_len : nat
}.

(** A [Message] as the Go value that a call copies: [Body] is a slice
    header and [Metadata] a map reference, both possibly [nil]. *)
Record MessageValue := mkMessageValue {
  v_ID : string;
  v_Body : option Slice;
  v_Timestamp : time.Time;
  v_Metadata : option loc
}.

Definition load_slice (h : Heap) (s : Slice) : list byte :=
  take (s_len s) (drop (s_off s) (default [] (h_arrays h !! s_array s))).

Definition load_map (h : Heap) (l : loc) : gmap string string :=
  default ∅ (h_maps h !! l).

(** What a [MessageValue] holds, read through the heap. *)
Definition load (h : Heap) (v : MessageValue) : Message :=
  mkMessage (v_ID v) (load_slice h <$> v_Body v) (v_Timestamp v)
            (load_map h <$> v_Metadata v).

(** The process and its surroundings as [Send] and [Subscribe] see
    them: the heap, the records logged, the clock, the random source
    of the uuid package, and the broker behind the client: what it
    answers to the n-th request and what has been published. *)
Record World := mkWorld {
  w_heap : Heap;
  w_log : list LogEntry;
  w_clock : nat → time.Time;
  w_ticks : nat;
  w_rand : nat → list byte;
  w_draws : nat;
  w_net : nat → option string;
  w_requests : nat;
  w_published : list (string * list byte)
}.

Definition slog (l : Level) (m : string) (a : list (string * string)) (w : World)
  : World :=
  mkWorld (w_heap w) (w_log w ++ [mkLog l m a]) (w_clock w) (w_ticks w)
          (w_rand w) (w_draws w) (w_net w) (w_requests w) (w_published w).

(** [time.Now()]. *)
Definition time_Now (w : World) : time.Time * World :=
  (w_clock w (w_ticks w),
   mkWorld (w_heap w) (w_log w) (w_clock w) (S (w_ticks w))
           (w_rand w) (w_draws w) (w_net w) (w_requests w) (w_published w)).

(** [uuid.New().String()]. *)
Definition uuid_New_String (w : World) : string * World :=
  (uuid.String (uuid.fromRandom (w_rand w (w_draws w))),
   mkWorld (w_heap w) (w_log w) (w_clock w) (w_ticks w)
           (w_rand w) (S (w_draws w)) (w_net w) (w_requests w) (w_published w)).

(** One request to the broker: its answer, [None] when it succeeds. *)
Definition request (w : World) : option string * World :=
  (w_net w (w_requests w),
   mkWorld (w_heap w) (w_log w) (w_clock w) (w_ticks w)
           (w_rand w) (w_draws w) (w_net w) (S (w_requests w)) (w_published w)).

(** [q.client.Publish(ctx, topic, data).Err()]. *)
Definition Publish (topic : string) (data : list byte) (w : World)
  : option Error * World :=
  let '(r, w) := request w in
  match r with
  | Some e => (Some (errorString e), w)
  | None =>
    (None,
     mkWorld (w_heap w) (w_log w) (w_clock w) (w_ticks w) (w_rand w) (w_draws w)
             (w_net w) (w_requests w) (w_published w ++ [(topic, data)]))
  end.

(** ** redis.go: Send *)

(** [Send]'s parameter is its own copy of the caller's struct; the two
    assignments change that copy. *)
Definition backfill (message : MessageValue) (w : World) : MessageValue * World :=
  let '(message, w) :=
    if bool_decide (v_ID message = ""%string) then
      let '(id, w) := uuid_New_String w in
      (mkMessageValue id (v_Body message) (v_Timestamp message)
                      (v_Metadata message), w)
    else (message, w) in
  if time.IsZero (v_Timestamp message) then
    let '(now, w) := time_Now w in
    (mkMessageValue (v_ID message) (v_Body message) now (v_Metadata message), w)
  else (message, w).

Definition Send (topic : string) (message : MessageValue) (w : World)
  : option Error * World :=
  let w := slog INFO "Attempt to send message"
                [("topic", topic); ("messageID", v_ID message)]%string w in
  let '(message, w) := backfill message w in
  match jsonMessage.Marshal (load (w_heap w) message) with
  | inl err => (Some (wrapError "failed to marshal message" (errorString err)), w)
  | inr data =>
    let '(err, w) := Publish topic data w in
    match err with
    | Some err => (Some (wrapError "failed to publish message" err), w)
    | None =>
      let w := slog INFO "Successfully sent message"
                    [("topic", topic); ("messageID", v_ID message)]%string w in
      (None, w)
    end
  end.

(** ** Go channels *)

(** A buffered channel of Messages. [ch_sent] is a history variable:
    every value a send has put into the channel, in order;
    [ch_closes] counts the [close] calls that went through. *)
Record Chan := mkChan {
  ch_cap : nat;
  ch_buf : list Message;
  ch_closed : bool;
  ch_sent : list Message;
  ch_closes : nat
}.

Definition make_chan (cap : nat) : Chan := mkChan cap [] false [] 0.

Inductive chan_result :=
| Went (c : Chan)
| Blocks
| Panics (r : string).

(** [c <- m]: panics on a closed channel, cannot proceed while the
    buffer is full. *)
Definition chan_send (c : Chan) (m : Message) : chan_result :=
  if ch_closed c then Panics "send on closed channel"
  else if (length (ch_buf c) <? ch_cap c)%nat then
    Went (mkChan (ch_cap c) (ch_buf c ++ [m]) false (ch_sent c ++ [m]) (ch_closes c))
  else Blocks.

(** [close(c)]: panics on a closed channel. *)
Definition chan_close (c : Chan) : chan_result :=
  if ch_closed c then Panics "close of closed channel"
  else Went (mkChan (ch_cap c) (ch_buf c) true (ch_sent c) (S (ch_closes c))).

(** [m, ok := <-c]: the oldest buffered value; on a closed and drained
    channel the zero value and [ok = false]; otherwise it cannot
    proceed. *)
Definition chan_recv (c : Chan) : option (option Message * Chan) :=
  match ch_buf c with
  | m :: buf =>
    Some (Some m, mkChan (ch_cap c) buf (ch_closed c) (ch_sent c) (ch_closes c))
  | [] => if ch_closed c then Some (None, c) else None
  end.

(** ** The broker's subscription handle ([redis.PubSub]) *)

Record PubSub := mkPubSub {
  ps_channels : list string;
  ps_closed : bool
}.

(** [q.client.Subscribe(ctx, topic)]. *)
Definition client_Subscribe (topic : string) : PubSub := mkPubSub [topic] false.

Definition PubSub_Unsubscribe (topic : string) (p : PubSub) : PubSub :=
  mkPubSub (filter (λ t, t ≠ topic) (ps_channels p)) (ps_closed p).

Definition PubSub_Close (p : PubSub) : PubSub := mkPubSub (ps_channels p) true.

(** ** redis.go: Subscribe and its goroutines *)

(** Where the delivery goroutine stands: at the [select] of its loop,
    at the inner [select] with a decoded message in hand, or returned. *)
Inductive Pc :=
| AtLoop
| AtHandOff (message : Message)
| Returned.

(** One subscription: the handle, the output channel, the [done]
    channel (closed or not), the delivery goroutine, whether the
    watcher goroutine is still waiting, the records logged by the
    goroutines, the values the consumer has received, and whether a
    panic has left a goroutine unrecovered. *)
Record Subscription := mkSubscription {
  sub_topic : string;
  sub_pubsub : PubSub;
  sub_msgChan : Chan;
  sub_done : bool;
  sub_pc : Pc;
  sub_watching : bool;
  sub_log : list LogEntry;
  sub_received : list Message;
  sub_crashed : bool
}.

(** What can happen next to a subscription. The first group are the
    branches a [select] of the delivery goroutine takes, with what the
    broker hands over; [Panic] is an unexpected failure raised in the
    goroutine's body; the last two are the moves of the other parties:
    the context passed to Subscribe is cancelled and the watcher closes
    [done], and the consumer receives from the output channel. *)
Inductive Event :=
| Stop (unsubscribe_err close_err : option string)
| Deliver (payload : list byte)
| BrokerClosed
| HandOff
| Timeout
| Panic (r : string)
| Cancel
| Receive.

Section Queue.

(** [json.Unmarshal]'s result on the payloads that [jsonMessage.decode]
    leaves open. *)
Variable beyond : list byte → string + Message.

(** [json.Unmarshal([]byte(msg.Payload), &message)] on a zero
    [message]. *)
Definition Unmarshal (data : list byte) : string + Message :=
  match jsonMessage.decode data with
  | jsonMessage.Ok m => inr m
  | jsonMessage.Err e => inl e
  | jsonMessage.Beyond => beyond data
  end.

Definition sub_slog (l : Level) (m : string) (a : list (string * string))
    (s : Subscription) : Subscription :=
  mkSubscription (sub_topic s) (sub_pubsub s) (sub_msgChan s) (sub_done s)
                 (sub_pc s) (sub_watching s) (sub_log s ++ [mkLog l m a])
                 (sub_received s) (sub_crashed s).

Definition set_pc (pc : Pc) (s : Subscription) : Subscription :=
  mkSubscription (sub_topic s) (sub_pubsub s) (sub_msgChan s) (sub_done s)
                 pc (sub_watching s) (sub_log s) (sub_received s)
                 (sub_crashed s).

Definition set_pubsub (p : PubSub) (s : Subscription) : Subscription :=
  mkSubscription (sub_topic s) p (sub_msgChan s) (sub_done s)
                 (sub_pc s) (sub_watching s) (sub_log s) (sub_received s)
                 (sub_crashed s).

Definition set_msgChan (c : Chan) (s : Subscription) : Subscription :=
  mkSubscription (sub_topic s) (sub_pubsub s) c (sub_done s)
                 (sub_pc s) (sub_watching s) (sub_log s) (sub_received s)
                 (sub_crashed s).

Definition set_crashed (s : Subscription) : Subscription :=
  mkSubscription (sub_topic s) (sub_pubsub s) (sub_msgChan s) (sub_done s)
                 (sub_pc s) (sub_watching s) (sub_log s) (sub_received s) true.

(** The deferred function of the delivery goroutine, run when its
    body returns ([r = None]) or panics with [r]. A panic raised by
    the deferred function itself is not recovered by anyone. *)
Definition deferred (r : option string) (s : Subscription) : Subscription :=
  let s :=
    match r with
    | Some r =>
      sub_slog ERROR "Panic in subscription goroutine"
               [("topic", sub_topic s); ("error", r)]%string s
    | None => s
    end in
  match chan_close (sub_msgChan s) with
  | Went c =>
    set_pc Returned
      (sub_slog INFO "Subscription closed" [("topic", sub_topic s)]%string
                (set_msgChan c s))
  | _ => set_pc Returned (set_crashed s)
  end.

(** The branch [case <-done] of the loop's [select]. *)
Definition on_done (unsubscribe_err close_err : option string)
    (s : Subscription) : Subscription :=
  let s := set_pubsub (PubSub_Unsubscribe (sub_topic s) (sub_pubsub s)) s in
  let s :=
    match unsubscribe_err with
    | Some err =>
      sub_slog ERROR "Failed to unsubscribe"
               [("topic", sub_topic s); ("error", err)]%string s
    | None => s
    end in
  let s := set_pubsub (PubSub_Close (sub_pubsub s)) s in
  let s :=
    match close_err with
    | Some err =>
      sub_slog ERROR "Failed to close pubsub"
               [("topic", sub_topic s); ("error", err)]%string s
    | None => s
    end in
  deferred None s.

(** The branch [case msg, ok := <-channel] with [ok = true]. *)
Definition on_message (payload : list byte) (s : Subscription) : Subscription :=
  match Unmarshal payload with
  | inl err =>
    sub_slog ERROR "Failed to unmarshal message"
             [("topic", sub_topic s); ("error", err)]%string s
  | inr message =>
    set_pc (AtHandOff message)
      (sub_slog INFO "Received message from Redis"
         [("topic", sub_topic s); ("messageID", ID message);
          ("payload", jsonMessage.str_of (default [] (Body message)))]%string s)
  end.

(** One step of a subscription; [None] when the event cannot happen
    in this state. *)
Definition step (s : Subscription) (e : Event) : option Subscription :=
  match e, sub_pc s with
  | Stop ue ce, AtLoop => if sub_done s then Some (on_done ue ce s) else None
  | Stop _ _, AtHandOff _ => if sub_done s then Some (deferred None s) else None
  | Deliver payload, AtLoop => Some (on_message payload s)
  | BrokerClosed, AtLoop => Some (deferred None s)
  | HandOff, AtHandOff message =>
    match chan_send (sub_msgChan s) message with
    | Went c => Some (set_pc AtLoop (set_msgChan c s))
    | Blocks => None
    | Panics r => Some (deferred (Some r) s)
    end
  | Timeout, AtHandOff _ =>
    Some (set_pc AtLoop
            (sub_slog WARN "Timed out sending message to consumer"
                      [("topic", sub_topic s)]%string s))
  | Panic r, AtLoop | Panic r, AtHandOff _ => Some (deferred (Some r) s)
  | Cancel, _ =>
    if sub_watching s then
      Some (mkSubscription (sub_topic s) (sub_pubsub s) (sub_msgChan s) true
                           (sub_pc s) false (sub_log s) (sub_received s)
                           (sub_crashed s))
    else None
  | Receive, _ =>
    match chan_recv (sub_msgChan s) with
    | Some (Some m, c) =>
      Some (mkSubscription (sub_topic s) (sub_pubsub s) c (sub_done s)
                           (sub_pc s) (sub_watching s) (sub_log s)
                           (sub_received s ++ [m]) (sub_crashed s))
    | Some (None, c) => Some s
    | None => None
    end
  | _, _ => None
  end.

(** A schedule run from a state. *)
Fixpoint run (s : Subscription) (evs : list Event) : option Subscription :=
  match evs with
  | [] => Some s
  | e :: evs' =>
    match step s e with
    | Some s' => run s' evs'
    | None => None
    end
  end.

(** What [Subscribe] leaves behind when it returns a channel: the
    handle confirmed, the output channel of capacity 100, [done]
    open, the delivery goroutine at its loop and the watcher
    waiting. *)
Definition spawn (topic : string) (pubsub : PubSub) : Subscription :=
  mkSubscription topic pubsub (make_chan 100) false AtLoop true [] [] false.

(** [Subscribe]: the channel and the error it returns, the handle it
    created, and the world afterwards. *)
Definition Subscribe (topic : string) (w : World)
  : option Subscription * option Error * PubSub * World :=
  let w := slog INFO "Attempt to subscribe to topic" [("topic", topic)]%string w in
  let pubsub := client_Subscribe topic in
  let '(err, w) := request w in
  match err with
  | Some err =>
    let pubsub := PubSub_Close pubsub in
    (None, Some (wrapError "failed to subscribe" (errorString err)), pubsub, w)
  | None =>
    let s := spawn topic pubsub in
    let w := slog INFO "Successfully subscribed to topic"
                  [("topic", topic)]%string w in
    (Some s, None, pubsub, w)
  end.

(** The messages that the payloads handed over by the broker decode
    to, in the order of the schedule. *)
Definition decoded (evs : list Event) : list Message :=
  omap (λ e, match e with
             | Deliver payload =>
               match Unmarshal payload with
               | inr m => Some m
               | inl _ => None
               end
             | _ => None
             end) evs.

End Queue.

(** ** Notions used in the statements *)

Definition is_returned (pc : Pc) : bool :=
  match pc with Returned => true | _ => false end.

(** The state of the output channel follows the goroutine: open and
    never closed while it runs, closed by one [close] once it has
    returned; no panic has escaped; the buffer holds at most 100
    values, the oldest of the values sent and not yet received. *)
Record sub_inv (topic : string) (s : Subscription) : Prop := {
  inv_topic : sub_topic s = topic;
  inv_cap : ch_cap (sub_msgChan s) = 100%nat;
  inv_len : (length (ch_buf (sub_msgChan s)) <= 100)%nat;
  inv_closed : ch_closed (sub_msgChan s) = is_returned (sub_pc s);
  inv_closes : ch_closes (sub_msgChan s) = if is_returned (sub_pc s) then 1%nat else 0%nat;
  inv_crashed : sub_crashed s = false;
  inv_fifo : sub_received s ++ ch_buf (sub_msgChan s) = ch_sent (sub_msgChan s);
  inv_done : sub_done s = negb (sub_watching s)
}.

Definition is_exit (e : Event) : bool :=
  match e with
  | Stop _ _ | BrokerClosed | Panic _ => true
  | _ => false
  end.

Definition panic_record (topic r : string) : LogEntry :=
  mkLog ERROR "Panic in subscription goroutine"
        [("topic", topic); ("error", r)]%string.

Definition is_timeout (e : Event) : bool :=
  match e with Timeout => true | _ => false end.

Definition timeouts (evs : list Event) : nat :=
  length (filter (λ e, is_timeout e = true) evs).

Definition in_hand (s : Subscription) : list Message :=
  match sub_pc s with AtHandOff m => [m] | _ => [] end.

(** What has been sent, followed by the message in hand, is a
    subsequence of what has been decoded; and the decoded messages
    that are neither sent nor in hand are as many as the timeouts,
    but for the one that may have been in hand when the goroutine
    returned. *)
Definition relay_inv (s : Subscription) (D : list Message) (T : nat) : Prop :=
  (ch_sent (sub_msgChan s) ++ in_hand s) `sublist_of` D
  ∧ match sub_pc s with
    | Returned =>
      (length (ch_sent (sub_msgChan s)) + T <= length D
       ∧ length D <= length (ch_sent (sub_msgChan s)) + T + 1)%nat
    | _ => length D = (length (ch_sent (sub_msgChan s) ++ in_hand s) + T)%nat
    end.

(** The two kinds of error that [Send] returns. *)
Definition SerializationError (e : Error) : Prop :=
  ∃ cause, e = wrapError "failed to marshal message" cause.

Definition TransportError (e : Error) : Prop :=
  ∃ cause, e = wrapError "failed to publish message" cause.

Definition with_rand (rand : nat → list byte) (w : World) : World :=
  mkWorld (w_heap w) (w_log w) (w_clock w) (w_ticks w) rand (w_draws w)
          (w_net w) (w_requests w) (w_published w).

(** ** Notions used in the facts about the codec *)

(** What [DecodeRune] returns, case by case. *)
Inductive DecodeRune_spec : list byte → N * nat → Prop :=
| dr_empty : DecodeRune_spec [] (utf8.RuneError, 0%nat)
| dr_ascii b0 p : byte_val b0 < 0x80 → DecodeRune_spec (b0 :: p) (byte_val b0, 1%nat)
| dr_error b0 p : 0x80 <= byte_val b0 → DecodeRune_spec (b0 :: p) (utf8.RuneError, 1%nat)
| dr_two b0 b1 p :
    0xC2 <= byte_val b0 <= 0xDF → 0x80 <= byte_val b1 <= 0xBF →
    DecodeRune_spec (b0 :: b1 :: p)
      ((byte_val b0 - 0xC0) * 64 + (byte_val b1 - 0x80), 2%nat)
| dr_three b0 b1 b2 p :
    0xE0 <= byte_val b0 <= 0xEF → 0x80 <= byte_val b1 <= 0xBF →
    (byte_val b0 = 0xE0 → 0xA0 <= byte_val b1) →
    (byte_val b0 = 0xED → byte_val b1 <= 0x9F) →
    0x80 <= byte_val b2 <= 0xBF →
    DecodeRune_spec (b0 :: b1 :: b2 :: p)
      ((byte_val b0 - 0xE0) * 4096 + (byte_val b1 - 0x80) * 64
       + (byte_val b2 - 0x80), 3%nat)
| dr_four b0 b1 b2 b3 p :
    0xF0 <= byte_val b0 <= 0xF4 → 0x80 <= byte_val b1 <= 0xBF →
    (byte_val b0 = 0xF0 → 0x90 <= byte_val b1) →
    (byte_val b0 = 0xF4 → byte_val b1 <= 0x8F) →
    0x80 <= byte_val b2 <= 0xBF → 0x80 <= byte_val b3 <= 0xBF →
    DecodeRune_spec (b0 :: b1 :: b2 :: b3 :: p)
      ((byte_val b0 - 0xF0) * 262144 + (byte_val b1 - 0x80) * 4096
       + (byte_val b2 - 0x80) * 64 + (byte_val b3 - 0x80), 4%nat).

(** A byte that the scanner passes over inside a string. *)
Definition plain (b : byte) : Prop :=
  b ≠ x22 ∧ b ≠ x5c ∧ 0x20 <= byte_val b.

(** Texts between quotes that the scanner accepts. *)
Inductive scannable : list byte → Prop :=
| sc_nil : scannable []
| sc_plain b raw : plain b → scannable raw → scannable (b :: raw)
| sc_escape e raw :
    json.simple_escape e = true → scannable raw → scannable (x5c :: e :: raw)
| sc_unicode h1 h2 h3 h4 raw :
    is_Some (json.hexval h1) → is_Some (json.hexval h2) →
    is_Some (json.hexval h3) → is_Some (json.hexval h4) →
    scannable raw → scannable (x5c :: x75 :: h1 :: h2 :: h3 :: h4 :: raw).

Definition b64char (b : byte) : Prop :=
  is_Some (base64.decodeMap b) ∨ b = base64.padChar.

(** The characters of an encoding: letters, digits, [+], [/], [=]. *)
Definition b64out (c : byte) : Prop :=
  (∃ n, n < 64 ∧ c = base64.encodeStd n) ∨ c = base64.padChar.

Local Open Scope Z_scope.

(** Year and day of the year as [absDate] computes them. *)
Definition year_yday (days : Z) : Z * Z :=
  let d := days in
  let n := d / time.daysPer400Years in
  let y := 400 * n in
  let d := d - time.daysPer400Years * n in
  let n := d / time.daysPer100Years in
  let n := n - Z.shiftr n 2 in
  let y := y + 100 * n in
  let d := d - time.daysPer100Years * n in
  let n := d / time.daysPer4Years in
  let y := y + 4 * n in
  let d := d - time.daysPer4Years * n in
  let n := d / 365 in
  let n := n - Z.shiftr n 2 in
  let y := y + n in
  let d := d - 365 * n in
  (y + 1, d).

(** Month and day of the month from the day of a year without
    February 29. *)
Definition month_of_day (day : Z) : Z * Z :=
  let month := day / 31 in
  let end_ := time.daysBefore (month + 1) in
  let '(month, begin) :=
    if end_ <=? day then (month + 1, end_) else (month, time.daysBefore month) in
  (month + 1, day - begin + 1).

Definition month_of_day_ok (n : nat) : bool :=
  let day := Z.of_nat n in
  let '(m, d) := month_of_day day in
  (1 <=? m) && (m <=? 12) && (1 <=? d)
  && (d <=? time.daysBefore m - time.daysBefore (m - 1))
  && (time.daysBefore (m - 1) + (d - 1) =? day)
  && (if day <? 59 then m <=? 2 else 3 <=? m).

(** The [k] low decimal digits of [u], least significant first. *)
Fixpoint fixed_rev (k : nat) (u : Z) : list byte :=
  match k with
  | O => []
  | S k' => time.digit (u mod 10) :: fixed_rev k' (u / 10)
  end.

Definition parse_step (acc : option Z) (c : byte) : option Z :=
  x ← acc;
  if in_range 48 57 c then Some (x * 10 + Z.of_N (byte_val c) - 48) else None.

Definition is_digit (c : byte) : Prop := in_range 48 57 c = true.

Local Close Scope Z_scope.

Local Open Scope Z_scope.

Definition zone_head (zone : list byte) : Prop :=
  match zone with
  | c :: _ => in_range 48 57 c = false ∧ c ≠ x2e
  | [] => True
  end.

Definition text_char (b : byte) : Prop := plain b ∧ (byte_val b < 0x80)%N.

Local Close Scope Z_scope.

(** [text] is read as the value [v] before any rest, given [need]
    units of fuel; its first character is no white space. *)
Definition parses (dmax : N) (need : nat) (v : json.Value) (text : list byte)
  : Prop :=
  (∃ c text', text = c :: text' ∧ json.isSpace c = false)
  ∧ ∀ f depth rest, (need <= f)%nat → depth < dmax →
      json.parse_value f depth (text ++ rest) = Some (v, rest).

(** A member as the encoder writes it: the quoted name, a colon, the
    value. *)
Definition member_text (kraw vtext : list byte) : list byte :=
  x22 :: kraw ++ x22 :: x3a :: vtext.

Definition esc (s : string) : list byte :=
  json.escape_fuel (length (jsonMessage.bytes_of s)) (jsonMessage.bytes_of s).

Definition valid_entry (kv : string * string) : Prop :=
  utf8.ValidString kv.1 = true ∧ utf8.ValidString kv.2 = true.

Definition entry_member (kv : string * string) : list byte * json.Value :=
  (esc kv.1, json.String (esc kv.2)).

(** The value and the text that stand for a Body. *)
Definition body_json (b : option (list byte)) : json.Value * list byte :=
  match b with
  | None => (json.Null, [x6e; x75; x6c; x6c])
  | Some b => (json.String (base64.Encode b), x22 :: base64.Encode b ++ [x22])
  end.

Definition entry_triple (kv : string * string)
  : list byte * json.Value * list byte :=
  (esc kv.1, json.String (esc kv.2), x22 :: esc kv.2 ++ [x22]).

(** The value and the text that stand for a Metadata. *)
Definition metadata_json (md : option (gmap string string))
  : json.Value * list byte :=
  match md with
  | None => (json.Null, [x6e; x75; x6c; x6c])
  | Some md =>
    (json.Object ((λ '(kraw, v, vtext), (kraw, v))
                    <$> (entry_triple <$> jsonMessage.sorted_entries md)),
     [x7b] ++ jsonMessage.join_members
                ((λ '(kraw, v, vtext), member_text kraw vtext)
                   <$> (entry_triple <$> jsonMessage.sorted_entries md))
           ++ [x7d])
  end.

Definition entries_of (md : option (gmap string string)) : list (string * string) :=
  match md with Some md => jsonMessage.sorted_entries md | None => [] end.

(** The members of the object that [Marshal] writes for a message
    whose timestamp has the text [ts]. *)
Definition top_members (m : Message) (ts : list byte)
  : list (list byte * json.Value * list byte) :=
  [ (esc "ID", json.String (esc (ID m)), x22 :: esc (ID m) ++ [x22]);
    (esc "Body", (body_json (Body m)).1, (body_json (Body m)).2);
    (esc "Timestamp", json.String ts, x22 :: ts ++ [x22]);
    (esc "Metadata", (metadata_json (Metadata m)).1,
     (metadata_json (Metadata m)).2) ].

(** The Metadata whose keys and values are valid UTF-8. *)
Definition valid_strings (md : option (gmap string string)) : Prop :=
  match md with
  | Some md =>
    map_Forall (λ k v, utf8.ValidString k = true ∧ utf8.ValidString v = true) md
  | None => True
  end.

(** The messages whose strings are valid UTF-8 and whose timestamp
    has an RFC 3339 text. *)
Definition wire_safe (m : Message) : Prop :=
  utf8.ValidString (ID m) = true
  ∧ valid_strings (Metadata m)
  ∧ time.encodable (Timestamp m).

(** A string of the one byte 0xFF, which is not UTF-8, and the
    encoding of U+FFFD that stands for it after a round trip. *)
Definition garbled : string := jsonMessage.str_of [xff].
Definition replaced : string := jsonMessage.str_of [xef; xbf; xbd].

Definition garbled_message : Message :=
  mkMessage "job-1" (Some [x68; x69]) time.zero
            (Some {[ "source"%string := garbled ]}).

(** 2024-05-17T10:30:00.25+02:00, read from a monotonic clock. *)
Definition sample_time : time.Time :=
  time.mkTime 63851531400 250000000 7200 (Some 42%Z).

Definition sample_message : Message :=
  mkMessage "job-1" (Some [x68; x69]) sample_time
            (Some {[ "source"%string := "crawler"%string ]}).

(** A process at rest whose broker answers every request, and an
    answer for the payloads beyond the model. *)
Definition idle_world : World :=
  mkWorld (mkHeap ∅ ∅) [] (λ _, time.zero) 0 (λ _, []) 0 (λ _, None) 0 [].

Definition beyond_rejects (data : list byte) : string + Message :=
  inl "parsing time: cannot parse"%string.

(** The payloads [{}], which decodes to the zero message, and [oops],
    which is no JSON. *)
Definition empty_object : list byte := [x7b; x7d].
Definition no_json : list byte := [x6f; x6f; x70; x73].

(** A schedule that fills the output channel: a hundred payloads
    delivered and handed over with no receive, and one more
    delivered. *)
Definition filling_schedule : list Event :=
  concat (replicate 100 [Deliver empty_object; HandOff])
  ++ [Deliver empty_object].


(** ** Further notions: the queue *)

(** The record that the delivery goroutine logs for a decoded
    message: its ID and its Body as a string. *)
Definition received_record (topic : string) (m : Message) : LogEntry :=
  mkLog INFO "Received message from Redis"
        [("topic", topic); ("messageID", ID m);
         ("payload", jsonMessage.str_of (default [] (Body m)))]%string.

Definition is_received (e : LogEntry) : bool :=
  String.eqb (msg e) "Received message from Redis".

(** A world whose random source counts: the n-th draw is sixteen
    bytes of value n. *)
Definition counting_world : World :=
  mkWorld (mkHeap ∅ ∅) [] (λ _, sample_time) 0
          (λ n, replicate 16 (byte_of (N.of_nat n))) 0 (λ _, None) 0 [].

(** A message with nothing set, as a caller passes it. *)
Definition blank_value : MessageValue := mkMessageValue "" None time.zero None.

(** redis.go: [Unsubscribe] and [Ack] of the queue. *)
Definition Unsubscribe (topic : string) (w : World) : option Error * World :=
  let w := slog INFO "To unsubscribe: cancel the context used when subscribing"
                [("topic", topic)]%string w in
  (None, w).

Definition Ack (topic messageID : string) (w : World) : option Error * World :=
  let w := slog INFO "Attempt to acknowledge message"
                [("topic", topic); ("messageID", messageID)]%string w in
  let w := slog INFO "Successfully acknowledged message"
                [("topic", topic); ("messageID", messageID)]%string w in
  (None, w).

(** A world with other records in its log. *)
Definition with_log (l : list LogEntry) (w : World) : World :=
  mkWorld (w_heap w) l (w_clock w) (w_ticks w) (w_rand w) (w_draws w)
          (w_net w) (w_requests w) (w_published w).

Definition is_stop (e : Event) : bool :=
  match e with Stop _ _ => true | _ => false end.

Definition is_cancel (e : Event) : bool :=
  match e with Cancel => true | _ => false end.

(** The two records of [Send]. *)
Definition attempt_record (topic id : string) : LogEntry :=
  mkLog INFO "Attempt to send message"
        [("topic", topic); ("messageID", id)]%string.

Definition success_record (topic id : string) : LogEntry :=
  mkLog INFO "Successfully sent message"
        [("topic", topic); ("messageID", id)]%string.

(** ** unicode, and the string functions of unicode/utf8 and strings
       that the scraper calls *)

Module unicode.

Definition MaxLatin1 : N := 0xFF.

(** The ranges of the table [White_Space] above Latin-1. *)
Definition White_Space_excluding_Latin (r : N) : bool :=
  (r =? 0x1680) || (0x2000 <=? r) && (r <=? 0x200a)
  || (0x2028 <=? r) && (r <=? 0x2029)
  || (r =? 0x202f) || (r =? 0x205f) || (r =? 0x3000).

Definition IsSpace (r : N) : bool :=
  if r <=? MaxLatin1 then
    (r =? 9) || (r =? 10) || (r =? 11) || (r =? 12) || (r =? 13)
    || (r =? 32) || (r =? 0x85) || (r =? 0xA0)
  else White_Space_excluding_Latin r.

End unicode.

Module strings.

(** A string is its bytes; [at s i] is [s[i]] for an index in range. *)
Definition at_ (s : list byte) (i : nat) : byte := default x00 (s !! i).

(** [utf8.RuneStart]. *)
Definition RuneStart (b : byte) : bool :=
  negb (N.land (byte_val b) 0xC0 =? 0x80).

(** The loop [for start--; start >= lim; start--] of
    [utf8.DecodeLastRuneInString], which breaks at a byte that can
    start a rune: the index it ends with. *)
Fixpoint rune_start_back (n : nat) (s : list byte) (start lim : Z) : Z :=
  match n with
  | O => start
  | S n' =>
    if (start <? lim)%Z then start
    else if RuneStart (at_ s (Z.to_nat start)) then start
    else rune_start_back n' s (start - 1)%Z lim
  end.

(** [utf8.DecodeLastRuneInString]. *)
Definition DecodeLastRune (s : list byte) : N * nat :=
  let end_ := Z.of_nat (length s) in
  if (end_ =? 0)%Z then (utf8.RuneError, 0%nat)
  else
    let start := (end_ - 1)%Z in
    let r := byte_val (at_ s (Z.to_nat start)) in
    if r <? utf8.RuneSelf then (r, 1%nat)
    else
      let lim := (end_ - Z.of_nat utf8.UTFMax)%Z in
      let lim := if (lim <? 0)%Z then 0%Z else lim in
      let start := rune_start_back utf8.UTFMax s (start - 1)%Z lim in
      let start := if (start <? 0)%Z then 0%Z else start in
      let '(r, size) := utf8.DecodeRune (drop (Z.to_nat start) s) in
      if (start + Z.of_nat size =? end_)%Z then (r, size)
      else (utf8.RuneError, 1%nat).

(** [indexFunc]: the index of the first rune on which [f] is
    [truth]; [None] stands for -1. *)
Fixpoint indexFunc_from (fuel : nat) (s : list byte) (i : nat)
    (f : N → bool) (truth : bool) : option nat :=
  match fuel with
  | O => None
  | S fuel' =>
    match s with
    | [] => None
    | _ =>
      let '(r, size) := utf8.DecodeRune s in
      if Bool.eqb (f r) truth then Some i
      else indexFunc_from fuel' (drop size s) (i + size) f truth
    end
  end.

Definition indexFunc (s : list byte) (f : N → bool) (truth : bool)
  : option nat :=
  indexFunc_from (length s) s 0 f truth.

(** [lastIndexFunc]: the loop [for i := len(s); i > 0; ]. *)
Fixpoint lastIndexFunc_from (fuel : nat) (s : list byte) (i : nat)
    (f : N → bool) (truth : bool) : option nat :=
  match fuel with
  | O => None
  | S fuel' =>
    if (0 <? i)%nat then
      let '(r, size) := DecodeLastRune (take i s) in
      let i := (i - size)%nat in
      if Bool.eqb (f r) truth then Some i
      else lastIndexFunc_from fuel' s i f truth
    else None
  end.

Definition lastIndexFunc (s : list byte) (f : N → bool) (truth : bool)
  : option nat :=
  lastIndexFunc_from (S (length s)) s (length s) f truth.

Definition TrimLeftFunc (s : list byte) (f : N → bool) : list byte :=
  match indexFunc s f false with
  | None => []
  | Some i => drop i s
  end.

Definition TrimRightFunc (s : list byte) (f : N → bool) : list byte :=
  match lastIndexFunc s f false with
  | Some i =>
    if utf8.RuneSelf <=? byte_val (at_ s i) then
      let '(_, wid) := utf8.DecodeRune (drop i s) in
      take (i + wid) s
    else take (i + 1) s
  | None => take 0 s
  end.

Definition TrimFunc (s : list byte) (f : N → bool) : list byte :=
  TrimRightFunc (TrimLeftFunc s f) f.

(** The table [asciiSpace]. *)
Definition asciiSpace (c : byte) : bool :=
  let c := byte_val c in
  (c =? 9) || (c =? 10) || (c =? 11) || (c =? 12) || (c =? 13) || (c =? 32).

(** The first loop of [TrimSpace]: what is left of [s] at [start]
    when the loop ends, or what the function returns from inside
    the loop. *)
Fixpoint TrimSpace_start (s : list byte) : list byte + list byte :=
  match s with
  | [] => inl []
  | c :: s' =>
    if utf8.RuneSelf <=? byte_val c then inr (TrimFunc s unicode.IsSpace)
    else if asciiSpace c then TrimSpace_start s'
    else inl s
  end.

(** The second loop, on [s[start:]], with [stop] counted from
    [start]. *)
Fixpoint TrimSpace_stop (s : list byte) (stop : nat) : list byte :=
  match stop with
  | O => take 0 s
  | S stop' =>
    let c := at_ s stop' in
    if utf8.RuneSelf <=? byte_val c then
      TrimRightFunc (take stop s) unicode.IsSpace
    else if asciiSpace c then TrimSpace_stop s stop'
    else take stop s
  end.

Definition TrimSpace (s : list byte) : list byte :=
  match TrimSpace_start s with
  | inr r => r
  | inl s => TrimSpace_stop s (length s)
  end.

(** [Index]: the index of the first instance of [substr] in [s]. *)
Fixpoint Index (s substr : list byte) : option nat :=
  if bool_decide (take (length substr) s = substr) then Some 0%nat
  else
    match s with
    | [] => None
    | _ :: s' => S <$> Index s' substr
    end.

Definition Contains (s substr : list byte) : bool :=
  bool_decide (is_Some (Index s substr)).

(** [Split] for a separator that is not empty: the substrings
    between the separators. *)
Fixpoint Split_fuel (fuel : nat) (s sep : list byte) : list (list byte) :=
  match fuel with
  | O => [s]
  | S fuel' =>
    match Index s sep with
    | None => [s]
    | Some m => take m s :: Split_fuel fuel' (drop (m + length sep) s) sep
    end
  end.

Definition Split (s sep : list byte) : list (list byte) :=
  Split_fuel (length s) s sep.

End strings.

(** ** snb_scraper.go: parseValue *)

Section ParseValue.

(** [strconv.ParseFloat(s, 64)]: the float or the error. *)
Context {float64 : Type}.
Variable ParseFloat : list byte → string + float64.

Definition parseValue (val : list byte) : string + float64 :=
  let val := strings.TrimSpace val in
  let val :=
    if strings.Contains val [x20] then default [] (strings.Split val [x20] !! 0%nat)
    else val in
  ParseFloat val.

End ParseValue.

(** A token: no space in it, an ASCII character that is no white
    space at either end. *)
Definition solid (b : byte) : Prop :=
  byte_val b < utf8.RuneSelf ∧ strings.asciiSpace b = false.

Definition token (tok : list byte) : Prop :=
  (x20 ∉ tok)
  ∧ (∃ c t, tok = c :: t ∧ solid c)
  ∧ (∃ t c, tok = t ++ [c] ∧ solid c).

(** ** snb_scraper.go: the scraper of the SNB interest rates *)

Module RSSItem.
Record item := mk {
  Title : string;
  Description : string;
  PubDate : string;
  Country : string;
  Code : string;
  Value : string;
  Unit : string;
  Date : string
}.
End RSSItem.

Module SNBInterestRate.
Record rate {float64 : Type} := mk {
  Code : string;
  Value : float64;
  Date : time.Time;
  Description : string;
  Unit : string
}.
Arguments rate : clear implicits.
End SNBInterestRate.

(** [Result], as [Scrape] fills it; [Data] holds the slice of rates,
    [nil] when nothing was appended. *)
Module Result.
Record result {float64 : Type} := mk {
  Source : string;
  Timestamp : time.Time;
  Data : list (SNBInterestRate.rate float64);
  Metadata : gmap string string
}.
Arguments result : clear implicits.
End Result.

Record SNBScraper := mkSNBScraper {
  rssURL : string
}.

Definition NewSNBScraper : SNBScraper :=
  mkSNBScraper "https://www.snb.ch/public/en/rss/interestRates".

Definition Name (s : SNBScraper) : string := "snb_interest_rates".

Definition Validate (s : SNBScraper) : option Error :=
  if bool_decide (rssURL s = ""%string) then Some (errorString "RSS URL is required")
  else None.

(** [%d] of an int: its decimal digits, after a minus sign when it
    is negative. *)
Definition itoa (n : Z) : string := jsonMessage.str_of (time.appendInt n 0).

(** A world whose clock has been read up to another tick. *)
Definition with_ticks (ticks : nat) (w : World) : World :=
  mkWorld (w_heap w) (w_log w) (w_clock w) ticks (w_rand w) (w_draws w)
          (w_net w) (w_requests w) (w_published w).

Definition RFC1123 : string := "Mon, 02 Jan 2006 15:04:05 MST".

(** What the HTTP exchange of [Scrape] comes to: no request, no
    response, or a response with its status code and what reading
    its body gives. *)
Inductive Fetched :=
| RequestFailed (err : string)
| DoFailed (err : string)
| Response (StatusCode : Z) (body : string + list byte).

Section Scrape.

Context {float64 : Type}.

(** [strconv.ParseFloat(s, 64)], [time.Parse(layout, value)] and
    [xml.Unmarshal] into an [RSSFeed], of which the items of the
    channel are kept. *)
Variable ParseFloat : list byte → string + float64.
Variable time_Parse : string → string → string + time.Time.
Variable xml_Unmarshal : list byte → string + list RSSItem.item.

Definition parseDate (date : string) : string + time.Time :=
  time_Parse "2006-01-02" date.

(** The body of the loop over the items. *)
Definition scrape_item (item : RSSItem.item)
    (rates : list (SNBInterestRate.rate float64)) (w : World)
  : list (SNBInterestRate.rate float64) * World :=
  if bool_decide (RSSItem.Code item = ""%string)
     || bool_decide (RSSItem.Value item = ""%string)
  then (rates, w)
  else
    match parseValue ParseFloat (jsonMessage.bytes_of (RSSItem.Value item)) with
    | inl _ => (rates, w)
    | inr value =>
      let '(date, w) :=
        match parseDate (RSSItem.Date item) with
        | inr date => (date, w)
        | inl _ =>
          match time_Parse RFC1123 (RSSItem.PubDate item) with
          | inr date => (date, w)
          | inl _ => time_Now w
          end
        end in
      (rates ++ [SNBInterestRate.mk float64 (RSSItem.Code item) value date
                   (RSSItem.Description item) (RSSItem.Unit item)], w)
    end.

Definition scrape_items (items : list RSSItem.item) (w : World)
  : list (SNBInterestRate.rate float64) * World :=
  foldl (λ '(rates, w) item, scrape_item item rates w) ([], w) items.

Definition Scrape (s : SNBScraper) (fetched : Fetched) (w : World)
  : option (list (Result.result float64)) * option Error * World :=
  match fetched with
  | RequestFailed err =>
    (None, Some (wrapError "failed to create request" (errorString err)), w)
  | DoFailed err =>
    (None, Some (wrapError "failed to fetch SNB RSS feed" (errorString err)), w)
  | Response StatusCode body =>
    if bool_decide (StatusCode ≠ 200%Z) then
      (None, Some (errorString ("unexpected status code: " ++ itoa StatusCode)), w)
    else
      match body with
      | inl err =>
        (None, Some (wrapError "failed to read response body" (errorString err)), w)
      | inr body =>
        match xml_Unmarshal body with
        | inl err =>
          (None, Some (wrapError "failed to parse RSS feed" (errorString err)), w)
        | inr items =>
          let '(rates, w) := scrape_items items w in
          let '(now, w) := time_Now w in
          (Some [Result.mk float64 (Name s) now rates
                   {[ "url"%string := rssURL s ]}], None, w)
        end
      end
  end.

(** The items that give a rate: a code, a value, and a value that
    parses. *)
Definition gives_rate (item : RSSItem.item) : bool :=
  negb (bool_decide (RSSItem.Code item = ""%string))
  && negb (bool_decide (RSSItem.Value item = ""%string))
  && match parseValue ParseFloat (jsonMessage.bytes_of (RSSItem.Value item)) with
     | inr _ => true
     | inl _ => false
     end.

(** The rate of an item: code, description and unit copied, the value
    parsed, and as date the item's date, else its publication date,
    else a reading of the clock between two ticks. *)
Definition rate_of (clock : nat → time.Time) (lo hi : nat)
    (item : RSSItem.item) (rate : SNBInterestRate.rate float64) : Prop :=
  SNBInterestRate.Code rate = RSSItem.Code item
  ∧ parseValue ParseFloat (jsonMessage.bytes_of (RSSItem.Value item))
    = inr (SNBInterestRate.Value rate)
  ∧ SNBInterestRate.Description rate = RSSItem.Description item
  ∧ SNBInterestRate.Unit rate = RSSItem.Unit item
  ∧ match parseDate (RSSItem.Date item) with
    | inr date => SNBInterestRate.Date rate = date
    | inl _ =>
      match time_Parse RFC1123 (RSSItem.PubDate item) with
      | inr date => SNBInterestRate.Date rate = date
      | inl _ => ∃ n, (lo <= n < hi)%nat ∧ SNBInterestRate.Date rate = clock n
      end
    end.

End Scrape.

(** A feed of four items and stand-ins for the parsers: every value
    but [n/a] parses, to its text; one date parses. *)
Definition sample_items : list RSSItem.item :=
  [ RSSItem.mk "CH: 0.25 SNBLZ 2025-04-04" "SNB policy rate"
               "Fri, 04 Apr 2025 10:16:33 GMT" "CH" "SNBLZ" "0.25 %" "percent"
               "2025-04-04";
    RSSItem.mk "no code" "" "" "CH" "" "1.0" "percent" "2025-04-04";
    RSSItem.mk "no value" "" "" "CH" "SARON" "n/a" "percent" "2025-04-04";
    RSSItem.mk "no date" "Overnight rate" "yesterday" "CH" "ENG" "0.5" "percent"
               "04.04.2025" ].

Definition sample_ParseFloat (s : list byte) : string + list byte :=
  if bool_decide (s = jsonMessage.bytes_of "n/a") then inl "invalid syntax"%string
  else inr s.

Definition sample_time_Parse (layout value : string) : string + time.Time :=
  if bool_decide (layout = "2006-01-02"%string ∧ value = "2025-04-04"%string)
  then inr sample_time else inl "cannot parse"%string.

Definition sample_xml_Unmarshal (body : list byte) : string + list RSSItem.item :=
  inr sample_items.

(** The schedule on which the delivery goroutine takes the payloads
    one after the other and hands over each message it decodes at
    once, with no timeout and no other event. *)
Definition relay_schedule (beyond : list byte → string + Message)
    (payloads : list (list byte)) : list Event :=
  flat_map (λ p, match Unmarshal beyond p with
                 | inr _ => [Deliver p; HandOff]
                 | inl _ => [Deliver p]
                 end) payloads.

(** The schedule of a consumer that keeps up: each message the
    delivery goroutine decodes is handed over and received before the
    next payload arrives. *)
Definition keep_up_schedule (beyond : list byte → string + Message)
    (payloads : list (list byte)) : list Event :=
  flat_map (λ p, match Unmarshal beyond p with
                 | inr _ => [Deliver p; HandOff; Receive]
                 | inl _ => [Deliver p]
                 end) payloads.



(** A time in the year 10000 (UTC). *)
Definition year_10000 : time.Time := time.mkTime 315537897600 0 0 None.

(** The messages that were in hand when an event of a given kind
    was taken, on a schedule from a state. *)
Fixpoint held_when (kind : Event → bool)
    (beyond : list byte → string + Message)
    (s : Subscription) (evs : list Event) : list Message :=
  match evs with
  | [] => []
  | e :: evs' =>
    match step beyond s e with
    | Some s' =>
      (if kind e then in_hand s else []) ++ held_when kind beyond s' evs'
    | None => []
    end
  end.

(** The messages dropped when the timer of the hand-off fired, and
    the messages discarded because the delivery goroutine returned
    with them in hand. *)
Definition timed_out := held_when is_timeout.
Definition discarded := held_when is_exit.

(** The IDs that [Send] generates when the messages are sent one
    after the other: one for each message that comes without ID. *)
Fixpoint generated_ids (topic : string) (messages : list MessageValue)
    (w : World) : list string :=
  match messages with
  | [] => []
  | message :: messages' =>
    (if bool_decide (v_ID message = ""%string)
     then [v_ID (backfill message w).1] else [])
    ++ generated_ids topic messages' (Send topic message w).2
  end.

(** * Properties *)

(** ** Known answers *)

Example utf8_decode_euro :
  utf8.DecodeRune [xe2; x82; xac; x41] = (0x20AC, 3%nat).
Proof. reflexivity. Qed.

Example utf8_encode_euro : utf8.EncodeRune 0x20AC = [xe2; x82; xac].
Proof. reflexivity. Qed.

Example utf8_decode_bad : utf8.DecodeRune [xff; x41] = (utf8.RuneError, 1%nat).
Proof. reflexivity. Qed.

Example utf8_decode_overlong : utf8.DecodeRune [xc0; x80] = (utf8.RuneError, 1%nat).
Proof. reflexivity. Qed.

Example utf8_valid_ex : utf8.Valid [x41; xe2; x82; xac; xf0; x9f; x98; x80] = true.
Proof. reflexivity. Qed.

Example utf8_invalid_ex : utf8.Valid [x41; xe2; x82] = false.
Proof. reflexivity. Qed.

Example base64_encode_hi : base64.Encode [x68; x69] = [x61; x47; x6b; x3d].
Proof. reflexivity. Qed.

Example base64_decode_hi : base64.Decode [x61; x47; x6b; x3d] = Some [x68; x69].
Proof. reflexivity. Qed.

Example time_format_sample :
  jsonMessage.str_of (time.appendFormatRFC3339 sample_time)
  = "2024-05-17T10:30:00.25+02:00"%string.
Proof. vm_compute. reflexivity. Qed.

Example time_parse_sample :
  time.parseRFC3339 (jsonMessage.bytes_of "2024-05-17T10:30:00.25+02:00")
  = Some (time.stripMono sample_time).
Proof. vm_compute. reflexivity. Qed.

Example decode_empty_object :
  jsonMessage.decode empty_object = jsonMessage.Ok zeroMessage.
Proof. vm_compute. reflexivity. Qed.

(** ** The delivery goroutine: invariants of every schedule *)

Section QueueFacts.

Variable beyond : list byte → string + Message.

Abbreviation step := (step beyond).
Abbreviation run := (run beyond).
Abbreviation decoded := (decoded beyond).

Lemma run_app s evs1 evs2 :
  run s (evs1 ++ evs2) =
  match run s evs1 with Some s' => run s' evs2 | None => None end.
Proof.
  revert s; induction evs1 as [|e evs1 IH]; intros s; simpl; [done|].
  destruct (step s e); [apply IH | done].
Qed.

Lemma run_cons s e evs :
  run s (e :: evs) =
  match step s e with Some s' => run s' evs | None => None end.
Proof. reflexivity. Qed.

Lemma sub_inv_spawn topic ps : sub_inv topic (spawn topic ps).
Proof. split; simpl; try done; lia. Qed.

Lemma deferred_running r s :
  ch_closed (sub_msgChan s) = false →
  sub_pc (deferred r s) = Returned
  ∧ sub_msgChan (deferred r s) =
    mkChan (ch_cap (sub_msgChan s)) (ch_buf (sub_msgChan s)) true
           (ch_sent (sub_msgChan s)) (S (ch_closes (sub_msgChan s)))
  ∧ sub_crashed (deferred r s) = sub_crashed s
  ∧ sub_topic (deferred r s) = sub_topic s
  ∧ sub_pubsub (deferred r s) = sub_pubsub s
  ∧ sub_received (deferred r s) = sub_received s
  ∧ sub_done (deferred r s) = sub_done s
  ∧ sub_watching (deferred r s) = sub_watching s
  ∧ sub_log (deferred r s) =
    sub_log s
    ++ match r with
       | Some r => [mkLog ERROR "Panic in subscription goroutine"
                          [("topic", sub_topic s); ("error", r)]%string]
       | None => []
       end
    ++ [mkLog INFO "Subscription closed" [("topic", sub_topic s)]%string].
Proof.
  intros Hc. unfold deferred, chan_close.
  destruct r as [r|]; simpl; rewrite Hc; simpl; repeat split; try done.
  - by rewrite <- app_assoc.
Qed.

Lemma deferred_inv topic r s :
  sub_inv topic s → is_returned (sub_pc s) = false →
  sub_inv topic (deferred r s).
Proof.
  intros [Ht Hcap Hlen Hcl Hcs Hcr Hf Hd] Hpc.
  rewrite Hpc in Hcl, Hcs.
  destruct (deferred_running r s Hcl) as (E1 & E2 & E3 & E4 & E5 & E6 & E7 & E8 & E9).
  split; rewrite ?E1, ?E2, ?E3, ?E4, ?E6, ?E7, ?E8; simpl; try done.
  by rewrite Hcs.
Qed.

(** The invariant reads neither the handle nor the log. *)
Lemma sub_inv_frame topic s s' :
  sub_inv topic s →
  sub_topic s' = sub_topic s → sub_msgChan s' = sub_msgChan s →
  is_returned (sub_pc s') = is_returned (sub_pc s) →
  sub_crashed s' = sub_crashed s → sub_received s' = sub_received s →
  sub_done s' = sub_done s → sub_watching s' = sub_watching s →
  sub_inv topic s'.
Proof.
  intros [] E1 E2 E3 E4 E5 E6 E7.
  split; rewrite ?E1, ?E2, ?E3, ?E4, ?E5, ?E6, ?E7; done.
Qed.

Lemma on_done_inv topic ue ce s :
  sub_inv topic s → sub_pc s = AtLoop → sub_inv topic (on_done ue ce s).
Proof.
  intros Hinv Hpc. unfold on_done.
  apply deferred_inv.
  - eapply sub_inv_frame; [exact Hinv|..]; by destruct ue, ce.
  - destruct ue, ce; simpl; by rewrite Hpc.
Qed.

Lemma on_message_inv topic payload s :
  sub_inv topic s → sub_pc s = AtLoop →
  sub_inv topic (on_message beyond payload s).
Proof.
  intros Hinv Hpc. unfold on_message.
  destruct (Unmarshal beyond payload);
    (eapply sub_inv_frame; [exact Hinv|..]); simpl; by rewrite ?Hpc.
Qed.

Lemma step_inv topic s e s' :
  sub_inv topic s → step s e = Some s' → sub_inv topic s'.
Proof.
  intros Hinv Hstep.
  pose proof Hinv as [Ht Hcap Hlen Hcl Hcs Hcr Hf Hd].
  unfold step in Hstep.
  destruct e.
  - (* Stop *)
    destruct (sub_pc s) eqn:Hpc; try discriminate;
      (destruct (sub_done s); [|discriminate]); injection Hstep as <-.
    + by apply on_done_inv.
    + apply deferred_inv; [done | by rewrite Hpc].
  - (* Deliver *)
    destruct (sub_pc s) eqn:Hpc; try discriminate. injection Hstep as <-.
    by apply on_message_inv.
  - (* BrokerClosed *)
    destruct (sub_pc s) eqn:Hpc; try discriminate. injection Hstep as <-.
    apply deferred_inv; [done | by rewrite Hpc].
  - (* HandOff *)
    destruct (sub_pc s) eqn:Hpc; try discriminate.
    simpl in Hcl. unfold chan_send in Hstep. rewrite Hcl in Hstep.
    destruct (length (ch_buf (sub_msgChan s)) <? ch_cap (sub_msgChan s))%nat
      eqn:Hroom; [|discriminate].
    injection Hstep as <-.
    apply Nat.ltb_lt in Hroom. rewrite Hcap in Hroom.
    split; simpl; try done.
    + rewrite length_app. simpl. lia.
    + by rewrite app_assoc, Hf.
  - (* Timeout *)
    destruct (sub_pc s) eqn:Hpc; try discriminate. injection Hstep as <-.
    (eapply sub_inv_frame; [exact Hinv|..]); simpl; by rewrite ?Hpc.
  - (* Panic *)
    destruct (sub_pc s) eqn:Hpc; try discriminate; injection Hstep as <-;
      (apply deferred_inv; [done | by rewrite Hpc]).
  - (* Cancel *)
    assert (Hs : (if sub_watching s
                  then Some (mkSubscription (sub_topic s) (sub_pubsub s)
                               (sub_msgChan s) true (sub_pc s) false
                               (sub_log s) (sub_received s) (sub_crashed s))
                  else None) = Some s') by (by destruct (sub_pc s)).
    destruct (sub_watching s); [|discriminate]. injection Hs as <-.
    split; simpl; done.
  - (* Receive *)
    assert (Hs : match chan_recv (sub_msgChan s) with
                 | Some (Some m, c) =>
                   Some (mkSubscription (sub_topic s) (sub_pubsub s) c
                           (sub_done s) (sub_pc s) (sub_watching s)
                           (sub_log s) (sub_received s ++ [m]) (sub_crashed s))
                 | Some (None, _) => Some s
                 | None => None
                 end = Some s') by (by destruct (sub_pc s)).
    unfold chan_recv in Hs.
    destruct (ch_buf (sub_msgChan s)) as [|m buf] eqn:Hbuf.
    + destruct (ch_closed (sub_msgChan s)); [|discriminate].
      by injection Hs as <-.
    + injection Hs as <-. split; simpl; try done.
      * simpl in Hlen. lia.
      * by rewrite <- app_assoc.
Qed.

Lemma run_inv topic s evs s' :
  sub_inv topic s → run s evs = Some s' → sub_inv topic s'.
Proof.
  revert s; induction evs as [|e evs IH]; intros s Hinv Hrun; simpl in Hrun.
  - by injection Hrun as <-.
  - destruct (step s e) as [s1|] eqn:Hstep; [|discriminate].
    eauto using step_inv.
Qed.

Lemma deferred_log r s :
  ∃ l, sub_log (deferred r s) = sub_log s ++ l.
Proof.
  unfold deferred.
  destruct r as [r|]; simpl; destruct (chan_close (sub_msgChan s)); simpl;
    rewrite <- ?app_assoc; eauto using app_nil_r.
  all: by exists [].
Qed.

Lemma on_done_log ue ce s :
  ∃ l, sub_log (on_done ue ce s) = sub_log s ++ l.
Proof.
  unfold on_done.
  match goal with
  | |- context [deferred None ?X] =>
      destruct (deferred_log None X) as [l Hl]; rewrite Hl
  end.
  destruct ue, ce; simpl; rewrite <- ?app_assoc; eauto.
Qed.

Lemma on_message_log payload s :
  ∃ l, sub_log (on_message beyond payload s) = sub_log s ++ l.
Proof. unfold on_message. destruct (Unmarshal beyond payload); simpl; eauto. Qed.

(** The log only grows. *)
Lemma step_log s e s' :
  step s e = Some s' → ∃ l, sub_log s' = sub_log s ++ l.
Proof.
  unfold step. intros Hstep.
  destruct e, (sub_pc s); try discriminate;
    repeat match type of Hstep with
           | (if ?b then _ else _) = _ => destruct b; try discriminate
           | match ?x with _ => _ end = _ => destruct x eqn:?; try discriminate
           end;
    injection Hstep as <-; simpl;
    auto using deferred_log, on_done_log, on_message_log;
    try (by exists []; rewrite app_nil_r); eauto.
Qed.

Lemma run_log s evs s' :
  run s evs = Some s' → ∃ l, sub_log s' = sub_log s ++ l.
Proof.
  revert s; induction evs as [|e evs IH]; intros s Hrun; simpl in Hrun.
  - injection Hrun as <-. exists []. by rewrite app_nil_r.
  - destruct (step s e) as [s1|] eqn:Hstep; [|discriminate].
    destruct (step_log _ _ _ Hstep) as [l1 H1].
    destruct (IH _ Hrun) as [l2 H2].
    exists (l1 ++ l2). by rewrite H2, H1, app_assoc.
Qed.

Lemma exit_returns topic s e s' :
  sub_inv topic s →
  is_exit e = true → step s e = Some s' → sub_pc s' = Returned.
Proof.
  intros Hinv He Hstep.
  pose proof Hinv as [_ _ _ Hcl _ _ _ _].
  unfold step in Hstep.
  destruct e; try discriminate; destruct (sub_pc s); try discriminate;
    repeat match type of Hstep with
           | (if ?b then _ else _) = _ => destruct b; try discriminate
           end;
    injection Hstep as <-; unfold on_done;
    match goal with
    | |- sub_pc (deferred ?r ?X) = _ =>
        assert (Hc : ch_closed (sub_msgChan X) = false)
          by (repeat match goal with
                     | |- context [match ?o with _ => _ end] => destruct o
                     end; done);
        apply (deferred_running r X Hc)
    end.
Qed.

Lemma returned_step s e s' :
  sub_pc s = Returned → step s e = Some s' → sub_pc s' = Returned.
Proof.
  intros Hpc Hstep. unfold step in Hstep. rewrite Hpc in Hstep.
  destruct e; try discriminate.
  - destruct (sub_watching s); [|discriminate]. by injection Hstep as <-.
  - destruct (chan_recv (sub_msgChan s)) as [[[m|] c]|]; try discriminate;
      by injection Hstep as <-.
Qed.

Lemma returned_run s evs s' :
  sub_pc s = Returned → run s evs = Some s' → sub_pc s' = Returned.
Proof.
  revert s; induction evs as [|e evs IH]; intros s Hpc Hrun; simpl in Hrun.
  - by injection Hrun as <-.
  - destruct (step s e) as [s1|] eqn:Hstep; [|discriminate].
    eauto using returned_step.
Qed.

Lemma panic_logged topic s r s' :
  sub_inv topic s → step s (Panic r) = Some s' →
  In (panic_record topic r) (sub_log s').
Proof.
  intros Hinv Hstep.
  pose proof Hinv as [Ht _ _ Hcl _ _ _ _].
  assert (Hs : s' = deferred (Some r) s ∧ is_returned (sub_pc s) = false).
  { unfold step in Hstep.
    destruct (sub_pc s); try discriminate; by injection Hstep as <-. }
  destruct Hs as [-> Hpc]. rewrite Hpc in Hcl.
  destruct (deferred_running (Some r) s Hcl) as (_&_&_&_&_&_&_&_&Hlog).
  rewrite Hlog, Ht. apply in_or_app. right. by left.
Qed.

(** C1. On every schedule of a subscription the output channel is
    open and unclosed while the delivery goroutine runs and has been
    closed by exactly one [close] once it has returned, whichever way
    it returned: each of the exits (the stop signal taken at either
    [select], the broker's channel found closed, a panic in the body)
    ends in the returned state; no panic leaves the goroutine, and a
    panic that was raised is in the log. *)
Theorem delivery_task_closes_once topic ps evs s :
  run (spawn topic ps) evs = Some s →
  sub_crashed s = false
  ∧ ch_closed (sub_msgChan s) = is_returned (sub_pc s)
  ∧ ch_closes (sub_msgChan s) = (if is_returned (sub_pc s) then 1 else 0)%nat
  ∧ (∀ e s', is_exit e = true → step s e = Some s' →
       sub_pc s' = Returned ∧ ch_closes (sub_msgChan s') = 1%nat
       ∧ ch_closed (sub_msgChan s') = true ∧ sub_crashed s' = false)
  ∧ (∀ r, In (Panic r) evs →
       sub_pc s = Returned ∧ In (panic_record topic r) (sub_log s)).
Proof.
  intros Hrun.
  pose proof (run_inv _ _ _ _ (sub_inv_spawn topic ps) Hrun) as Hinv.
  pose proof Hinv as [Ht Hcap Hlen Hcl Hcs Hcr Hf Hd].
  split; [done|]. split; [done|]. split; [done|]. split.
  - intros e s' He Hstep.
    pose proof (exit_returns _ _ _ _ Hinv He Hstep) as Hret.
    pose proof (step_inv _ _ _ _ Hinv Hstep) as [_ _ _ Hcl' Hcs' Hcr' _ _].
    rewrite Hret in Hcl', Hcs'. done.
  - intros r Hin.
    apply in_split in Hin as (evs1 & evs2 & ->).
    rewrite run_app in Hrun.
    destruct (run (spawn topic ps) evs1) as [s1|] eqn:Hrun1; [|discriminate].
    rewrite run_cons in Hrun.
    destruct (step s1 (Panic r)) as [s2|] eqn:Hstep; [|discriminate].
    pose proof (run_inv _ _ _ _ (sub_inv_spawn topic ps) Hrun1) as Hinv1.
    split.
    + eapply returned_run; [|exact Hrun].
      exact (exit_returns _ _ (Panic r) _ Hinv1 eq_refl Hstep).
    + destruct (run_log _ _ _ Hrun) as [l ->].
      apply in_or_app. left. by eapply panic_logged.
Qed.

(** ** The order of delivery *)

Lemma decoded_app evs1 evs2 : decoded (evs1 ++ evs2) = decoded evs1 ++ decoded evs2.
Proof. unfold decoded. by rewrite omap_app. Qed.

Lemma timeouts_app evs1 evs2 : timeouts (evs1 ++ evs2) = (timeouts evs1 + timeouts evs2)%nat.
Proof. unfold timeouts. by rewrite filter_app, length_app. Qed.

Lemma deferred_sent r s :
  ch_sent (sub_msgChan (deferred r s)) = ch_sent (sub_msgChan s)
  ∧ sub_pc (deferred r s) = Returned.
Proof.
  unfold deferred, chan_close.
  destruct r; simpl; destruct (ch_closed (sub_msgChan s)); done.
Qed.

Lemma on_done_sent ue ce s :
  ch_sent (sub_msgChan (on_done ue ce s)) = ch_sent (sub_msgChan s)
  ∧ sub_pc (on_done ue ce s) = Returned.
Proof.
  unfold on_done.
  match goal with
  | |- context [deferred None ?X] => destruct (deferred_sent None X) as [-> ->]
  end.
  by destruct ue, ce.
Qed.

Lemma step_cancel s s' :
  step s Cancel = Some s' →
  s' = mkSubscription (sub_topic s) (sub_pubsub s) (sub_msgChan s) true
                      (sub_pc s) false (sub_log s) (sub_received s)
                      (sub_crashed s).
Proof.
  unfold step. destruct (sub_pc s), (sub_watching s); congruence.
Qed.

Lemma step_receive s s' :
  step s Receive = Some s' →
  sub_pc s' = sub_pc s
  ∧ ch_sent (sub_msgChan s') = ch_sent (sub_msgChan s).
Proof.
  unfold step, chan_recv. intros Hstep.
  assert (Hs : match (match ch_buf (sub_msgChan s) with
                      | [] => if ch_closed (sub_msgChan s)
                              then Some (None, sub_msgChan s) else None
                      | m :: buf =>
                        Some (Some m, mkChan (ch_cap (sub_msgChan s)) buf
                                (ch_closed (sub_msgChan s))
                                (ch_sent (sub_msgChan s))
                                (ch_closes (sub_msgChan s)))
                      end) with
               | Some (Some m, c) =>
                 Some (mkSubscription (sub_topic s) (sub_pubsub s) c
                         (sub_done s) (sub_pc s) (sub_watching s)
                         (sub_log s) (sub_received s ++ [m]) (sub_crashed s))
               | Some (None, _) => Some s
               | None => None
               end = Some s') by (by destruct (sub_pc s)).
  destruct (ch_buf (sub_msgChan s)).
  - destruct (ch_closed (sub_msgChan s)); [|discriminate]. by injection Hs as <-.
  - by injection Hs as <-.
Qed.

Lemma step_relay s e s' D T :
  relay_inv s D T → step s e = Some s' →
  relay_inv s' (D ++ decoded [e]) (T + timeouts [e]).
Proof.
  unfold relay_inv, in_hand. intros [Hsub Hlen] Hstep.
  assert (Hdrop : ∀ m, sub_pc s = AtHandOff m →
            ch_sent (sub_msgChan s) `sublist_of` D
            ∧ length D = (length (ch_sent (sub_msgChan s)) + T + 1)%nat).
  { intros m Hpc. rewrite Hpc in Hsub, Hlen.
    rewrite length_app in Hlen. simpl in Hlen. split; [|lia].
    etrans; [|exact Hsub]. by apply sublist_inserts_r. }
  destruct e; unfold decoded, timeouts; simpl;
    rewrite ?app_nil_r, ?Nat.add_0_r.
  - (* Stop *)
    unfold step in Hstep.
    destruct (sub_pc s) eqn:Hpc; try discriminate;
      (destruct (sub_done s); [|discriminate]); injection Hstep as <-.
    + destruct (on_done_sent unsubscribe_err close_err s) as [-> ->].
      rewrite app_nil_r in *. split; [done|lia].
    + destruct (deferred_sent None s) as [-> ->].
      destruct (Hdrop _ eq_refl). rewrite app_nil_r. split; [done|lia].
  - (* Deliver *)
    unfold step in Hstep.
    destruct (sub_pc s) eqn:Hpc; try discriminate. injection Hstep as <-.
    unfold on_message. rewrite app_nil_r in *.
    destruct (Unmarshal beyond payload) as [err|m]; simpl.
    + by rewrite Hpc, !app_nil_r.
    + split; [by apply sublist_app|]. rewrite !length_app. simpl. lia.
  - (* BrokerClosed *)
    unfold step in Hstep.
    destruct (sub_pc s) eqn:Hpc; try discriminate. injection Hstep as <-.
    destruct (deferred_sent None s) as [-> ->].
    rewrite app_nil_r in *. split; [done|lia].
  - (* HandOff *)
    unfold step in Hstep.
    destruct (sub_pc s) eqn:Hpc; try discriminate.
    unfold chan_send in Hstep.
    destruct (ch_closed (sub_msgChan s)).
    + injection Hstep as <-.
      destruct (deferred_sent (Some "send on closed channel"%string) s) as [-> ->].
      destruct (Hdrop _ eq_refl). rewrite app_nil_r. split; [done|lia].
    + destruct (_ <? _)%nat; [|discriminate]. injection Hstep as <-. simpl.
      by rewrite !app_nil_r.
  - (* Timeout *)
    unfold step in Hstep.
    destruct (sub_pc s) eqn:Hpc; try discriminate. injection Hstep as <-.
    simpl. destruct (Hdrop _ eq_refl). rewrite !app_nil_r. split; [done|lia].
  - (* Panic *)
    unfold step in Hstep.
    destruct (sub_pc s) eqn:Hpc; try discriminate; injection Hstep as <-;
      destruct (deferred_sent (Some r) s) as [-> ->]; rewrite ?app_nil_r in *.
    + split; [done|lia].
    + destruct (Hdrop _ eq_refl). split; [done|lia].
  - (* Cancel *)
    by rewrite (step_cancel _ _ Hstep).
  - (* Receive *)
    by destruct (step_receive _ _ Hstep) as [-> ->].
Qed.

Lemma run_relay s evs s' D T :
  relay_inv s D T → run s evs = Some s' →
  relay_inv s' (D ++ decoded evs) (T + timeouts evs).
Proof.
  revert s D T; induction evs as [|e evs IH]; intros s D T Hinv Hrun.
  - injection Hrun as <-. unfold decoded, timeouts. simpl.
    by rewrite app_nil_r, Nat.add_0_r.
  - rewrite run_cons in Hrun.
    destruct (step s e) as [s1|] eqn:Hstep; [|discriminate].
    change (e :: evs) with ([e] ++ evs).
    rewrite decoded_app, timeouts_app, app_assoc, Nat.add_assoc.
    eauto using step_relay.
Qed.

(** ** Payloads that do not decode, and the full buffer *)

Lemma step_deliver s payload :
  sub_pc s = AtLoop → step s (Deliver payload) = Some (on_message beyond payload s).
Proof. intros Hpc. unfold step. by rewrite Hpc. Qed.

Lemma step_hand_off s m :
  sub_pc s = AtHandOff m →
  ch_closed (sub_msgChan s) = false →
  (length (ch_buf (sub_msgChan s)) < ch_cap (sub_msgChan s))%nat →
  step s HandOff =
  Some (set_pc AtLoop
          (set_msgChan
             (mkChan (ch_cap (sub_msgChan s)) (ch_buf (sub_msgChan s) ++ [m]) false
                     (ch_sent (sub_msgChan s) ++ [m]) (ch_closes (sub_msgChan s)))
             s)).
Proof.
  intros Hpc Hcl Hroom. unfold step, chan_send. rewrite Hpc, Hcl.
  apply Nat.ltb_lt in Hroom. by rewrite Hroom.
Qed.

(** C6. When the delivery goroutine, at its loop, receives a payload
    that does not decode, it logs the failure and is at its loop
    again: the output channel is as it was and open, the handle and
    what the consumer has received are untouched; and a payload that
    decodes, arriving next while the buffer has room, is put into
    the channel. *)
Theorem malformed_payload_skipped topic ps evs s payload err :
  run (spawn topic ps) evs = Some s →
  sub_pc s = AtLoop →
  Unmarshal beyond payload = inl err →
  ∃ s', step s (Deliver payload) = Some s'
    ∧ sub_pc s' = AtLoop
    ∧ sub_msgChan s' = sub_msgChan s
    ∧ ch_closed (sub_msgChan s') = false
    ∧ sub_pubsub s' = sub_pubsub s
    ∧ sub_received s' = sub_received s
    ∧ sub_crashed s' = false
    ∧ sub_log s' = sub_log s ++
        [mkLog ERROR "Failed to unmarshal message"
               [("topic", topic); ("error", err)]%string]
    ∧ ∀ payload' m,
        Unmarshal beyond payload' = inr m →
        (length (ch_buf (sub_msgChan s)) < 100)%nat →
        ∃ s'', run s' [Deliver payload'; HandOff] = Some s''
          ∧ sub_pc s'' = AtLoop
          ∧ ch_buf (sub_msgChan s'') = ch_buf (sub_msgChan s) ++ [m]
          ∧ ch_closed (sub_msgChan s'') = false.
Proof.
  intros Hrun Hpc Herr.
  pose proof (run_inv _ _ _ _ (sub_inv_spawn topic ps) Hrun)
    as [Ht Hcap Hlen Hcl Hcs Hcr Hf Hd].
  rewrite Hpc in Hcl. simpl in Hcl.
  exists (on_message beyond payload s).
  split; [by apply step_deliver|].
  assert (Hs' : on_message beyond payload s =
                sub_slog ERROR "Failed to unmarshal message"
                  [("topic", topic); ("error", err)]%string s)
    by (unfold on_message; by rewrite Herr, Ht).
  rewrite Hs'.
  repeat split; try done.
  intros payload' m Hok Hroom.
  rewrite run_cons, step_deliver by done.
  rewrite run_cons.
  assert (Hm : on_message beyond payload'
                 (sub_slog ERROR "Failed to unmarshal message"
                    [("topic", topic); ("error", err)]%string s) =
               set_pc (AtHandOff m)
                 (sub_slog INFO "Received message from Redis"
                    [("topic", topic); ("messageID", ID m);
                     ("payload", jsonMessage.str_of (default [] (Body m)))]%string
                    (sub_slog ERROR "Failed to unmarshal message"
                       [("topic", topic); ("error", err)]%string s)))
    by (unfold on_message; rewrite Hok; simpl; by rewrite Ht).
  rewrite Hm.
  rewrite (step_hand_off _ m) by (simpl; rewrite ?Hcap; done).
  eexists. split; [reflexivity|]. done.
Qed.

(** C7. The output channel that Subscribe returns has capacity 100
    and never holds more. With a decoded message in hand and the
    buffer full, the hand-off cannot take place; when the timer
    fires, the goroutine logs a warning and is at its loop again
    with the channel as it was, the message neither buffered nor
    sent, and it takes the next payload of the broker. *)
Theorem full_buffer_drops_after_timeout topic w s0 evs s m :
  (Subscribe topic w).1.1.1 = Some s0 →
  run s0 evs = Some s →
  sub_pc s = AtHandOff m →
  ch_cap (sub_msgChan s0) = 100%nat
  ∧ ch_cap (sub_msgChan s) = 100%nat
  ∧ (length (ch_buf (sub_msgChan s)) <= 100)%nat
  ∧ (length (ch_buf (sub_msgChan s)) = 100%nat → step s HandOff = None)
  ∧ ∃ s', step s Timeout = Some s'
      ∧ sub_pc s' = AtLoop
      ∧ sub_msgChan s' = sub_msgChan s
      ∧ ch_closed (sub_msgChan s') = false
      ∧ sub_log s' = sub_log s ++
          [mkLog WARN "Timed out sending message to consumer"
                 [("topic", topic)]%string]
      ∧ ∀ payload, step s' (Deliver payload) = Some (on_message beyond payload s').
Proof.
  intros Hsub Hrun Hpc.
  assert (s0 = spawn topic (client_Subscribe topic)) as ->.
  { unfold Subscribe in Hsub.
    destruct (request _) as [[e|] w']; simpl in Hsub; congruence. }
  pose proof (run_inv _ _ _ _ (sub_inv_spawn _ _) Hrun)
    as [Ht Hcap Hlen Hcl Hcs Hcr Hf Hd].
  rewrite Hpc in Hcl. simpl in Hcl.
  repeat split; try done.
  - intros Hfull. unfold step. rewrite Hpc. unfold chan_send.
    rewrite Hcl, Hfull, Hcap. reflexivity.
  - eexists. split.
    { unfold step. rewrite Hpc. reflexivity. }
    simpl. rewrite Ht. repeat split; try done.
Qed.

(** ** Leaving on the stop signal *)

(** The stop signal taken at the loop's [select]: the handle is
    unsubscribed from the topic and closed when the goroutine has
    returned. *)
Lemma stop_at_loop_releases topic ps evs s ue ce :
  run (spawn topic ps) evs = Some s →
  sub_pc s = AtLoop → sub_done s = true →
  ∃ s', step s (Stop ue ce) = Some s'
    ∧ sub_pc s' = Returned
    ∧ ps_closed (sub_pubsub s') = true
    ∧ topic ∉ ps_channels (sub_pubsub s').
Proof.
  intros Hrun Hpc Hdone.
  pose proof (run_inv _ _ _ _ (sub_inv_spawn topic ps) Hrun)
    as [Ht Hcap Hlen Hcl Hcs Hcr Hf Hd].
  rewrite Hpc in Hcl. simpl in Hcl.
  eexists. split.
  { unfold step. rewrite Hpc, Hdone. reflexivity. }
  unfold on_done.
  match goal with
  | |- context [deferred None ?X] =>
      assert (Hc : ch_closed (sub_msgChan X) = false) by (by destruct ue, ce);
      destruct (deferred_running None X Hc) as (-> & _ & _ & _ & -> & _)
  end.
  split; [done|]. rewrite Ht.
  destruct ue, ce; simpl; (split; [done|]);
    rewrite list_elem_of_filter; tauto.
Qed.

(** The stop signal taken at the hand-off: the goroutine returns and
    the handle is as it was. *)
Lemma stop_at_hand_off s m :
  sub_pc s = AtHandOff m → sub_done s = true →
  step s (Stop None None) = Some (deferred None s)
  ∧ sub_pubsub (deferred None s) = sub_pubsub s.
Proof.
  intros Hpc Hdone. unfold step. rewrite Hpc, Hdone. split; [done|].
  unfold deferred. by destruct (chan_close (sub_msgChan s)).
Qed.

End QueueFacts.

(** ** Send *)

#[local] Arguments jsonMessage.Marshal : simpl never.
#[local] Arguments uuid.String : simpl never.
#[local] Arguments uuid.fromRandom : simpl never.
#[local] Arguments time.MarshalJSON : simpl never.
#[local] Arguments time.IsZero : simpl never.

Lemma backfill_frame message w :
  let w' := (backfill message w).2 in
  w_heap w' = w_heap w ∧ w_log w' = w_log w ∧ w_net w' = w_net w
  ∧ w_requests w' = w_requests w ∧ w_published w' = w_published w.
Proof.
  unfold backfill, uuid_New_String, time_Now.
  destruct (bool_decide _), (time.IsZero _); cbn; done.
Qed.

Lemma backfill_fields message w :
  let m' := (backfill message w).1 in
  v_ID m' = (if bool_decide (v_ID message = ""%string)
             then uuid.String (uuid.fromRandom (w_rand w (w_draws w)))
             else v_ID message)
  ∧ v_Timestamp m' = (if time.IsZero (v_Timestamp message)
                      then w_clock w (w_ticks w) else v_Timestamp message)
  ∧ v_Body m' = v_Body message
  ∧ v_Metadata m' = v_Metadata message.
Proof.
  unfold backfill, uuid_New_String, time_Now.
  destruct (bool_decide _), (time.IsZero _); cbn; done.
Qed.

(** What [Send] returns and what it leaves published, in terms of the
    message it serializes and the broker's answer. *)
Lemma Send_unfold topic message w :
  let m' := load (w_heap w) (backfill message w).1 in
  (Send topic message w).1 =
    match jsonMessage.Marshal m' with
    | inl err => Some (wrapError "failed to marshal message" (errorString err))
    | inr data =>
      match w_net w (w_requests w) with
      | Some e => Some (wrapError "failed to publish message" (errorString e))
      | None => None
      end
    end
  ∧ w_published (Send topic message w).2 =
    match jsonMessage.Marshal m', w_net w (w_requests w) with
    | inr data, None => w_published w ++ [(topic, data)]
    | _, _ => w_published w
    end
  ∧ w_requests (Send topic message w).2 =
    match jsonMessage.Marshal m' with
    | inr _ => S (w_requests w)
    | inl _ => w_requests w
    end
  ∧ w_heap (Send topic message w).2 = w_heap w.
Proof.
  unfold Send.
  pose proof (backfill_frame message
    (slog INFO "Attempt to send message"
       [("topic", topic); ("messageID", v_ID message)]%string w)) as Hf.
  assert (Hm : (backfill message
    (slog INFO "Attempt to send message"
       [("topic", topic); ("messageID", v_ID message)]%string w)).1
    = (backfill message w).1).
  { unfold backfill, uuid_New_String, time_Now.
    destruct (bool_decide _), (time.IsZero _); reflexivity. }
  destruct (backfill message (slog _ _ _ w)) as [m1 w1].
  cbn [fst snd] in Hf, Hm. cbn [fst snd slog w_heap w_net w_requests w_published] in Hf.
  destruct Hf as (Hh & _ & Hn & Hr & Hp).
  subst m1. rewrite Hh. cbv zeta.
  destruct (jsonMessage.Marshal _) as [err|data]; cbn [fst snd].
  { by rewrite Hp, Hr. }
  unfold Publish, request. rewrite Hn, Hr.
  destruct (w_net w (w_requests w));
    cbn [fst snd slog w_heap w_net w_requests w_published]; by rewrite ?Hp.
Qed.

Lemma hexEncode_length l : length (uuid.hexEncode l) = (2 * length l)%nat.
Proof. induction l; simpl; lia. Qed.

Lemma uuid_String_nonempty r : uuid.String (uuid.fromRandom r) ≠ ""%string.
Proof.
  unfold uuid.String. intros H.
  apply (f_equal list_byte_of_string) in H.
  rewrite list_byte_of_string_of_list_byte in H.
  apply (f_equal length) in H. rewrite !length_app in H. simpl in H. lia.
Qed.

(** C5. [Send] returns a serialization error exactly when the encoding
    of the message fails, a transport error exactly when the encoding
    succeeds and the broker fails the publish request, and [nil]
    exactly when both succeed; it puts one request to the broker when
    the encoding succeeds and none otherwise. *)
Theorem send_error_taxonomy topic message w :
  let m' := load (w_heap w) (backfill message w).1 in
  let r := Send topic message w in
  ((∃ e, r.1 = Some e ∧ SerializationError e)
     ↔ ∃ err, jsonMessage.Marshal m' = inl err)
  ∧ ((∃ e, r.1 = Some e ∧ TransportError e)
     ↔ ∃ data err, jsonMessage.Marshal m' = inr data
                   ∧ w_net w (w_requests w) = Some err)
  ∧ (r.1 = None
     ↔ ∃ data, jsonMessage.Marshal m' = inr data ∧ w_net w (w_requests w) = None)
  ∧ w_requests r.2 =
    match jsonMessage.Marshal m' with
    | inr _ => S (w_requests w)
    | inl _ => w_requests w
    end.
Proof.
  destruct (Send_unfold topic message w) as (HR & _ & HQ & _).
  cbv zeta in *. rewrite HR, HQ.
  unfold SerializationError, TransportError.
  destruct (jsonMessage.Marshal _) as [err|data];
    [|destruct (w_net w (w_requests w)) as [e|]].
  all: repeat split.
  all: try (intros (e' & He & c & Hc); congruence).
  all: try (intros (d & e' & Hd & _); congruence).
  all: try (intros (d & Hd & He); congruence).
  all: try (intros (e' & He); congruence).
  all: try (intros He; congruence).
  all: eauto 6.
Qed.

Lemma Marshal_ID_irrelevant id1 id2 b t md :
  match jsonMessage.Marshal (mkMessage id1 b t md),
        jsonMessage.Marshal (mkMessage id2 b t md) with
  | inl e1, inl e2 => e1 = e2
  | inr _, inr _ => True
  | _, _ => False
  end.
Proof.
  unfold jsonMessage.Marshal. cbn [Timestamp]. by destruct (time.MarshalJSON t).
Qed.

(** C10. [Send] works on its own copy of the message: the heap behind
    the caller's Body and Metadata is what it was, so the caller's
    message reads as before, with the identifier it had; and what
    [Send] returns is the same whatever identifier is generated. *)
Theorem send_leaves_caller_message topic message w :
  let r := Send topic message w in
  w_heap r.2 = w_heap w
  ∧ load (w_heap r.2) message = load (w_heap w) message
  ∧ ∀ rand, (Send topic message (with_rand rand w)).1 = r.1.
Proof.
  destruct (Send_unfold topic message w) as (HR & _ & _ & HH).
  cbv zeta in *. rewrite HH. repeat split.
  intros rand.
  destruct (Send_unfold topic message (with_rand rand w)) as (HR' & _).
  cbv zeta in HR'. rewrite HR, HR'.
  destruct (backfill_fields message w) as (_ & HT & HB & HM).
  destruct (backfill_fields message (with_rand rand w)) as (_ & HT' & HB' & HM').
  cbv zeta in *.
  change (w_heap (with_rand rand w)) with (w_heap w).
  change (w_net (with_rand rand w)) with (w_net w).
  change (w_requests (with_rand rand w)) with (w_requests w).
  change (w_clock (with_rand rand w)) with (w_clock w) in HT'.
  change (w_ticks (with_rand rand w)) with (w_ticks w) in HT'.
  destruct (backfill message w).1 as [i1 b1 t1 m1].
  destruct (backfill message (with_rand rand w)).1 as [i2 b2 t2 m2].
  cbn [v_ID v_Body v_Timestamp v_Metadata] in *. subst.
  unfold load. cbn [v_ID v_Body v_Timestamp v_Metadata].
  pose proof (Marshal_ID_irrelevant i1 i2
    (load_slice (w_heap w) <$> v_Body message)
    (if time.IsZero (v_Timestamp message) then w_clock w (w_ticks w)
     else v_Timestamp message)
    (load_map (w_heap w) <$> v_Metadata message)) as HI.
  destruct (jsonMessage.Marshal _), (jsonMessage.Marshal _); try done.
  by subst.
Qed.

(** ** Subscribe *)

(** C2. [Subscribe] puts the confirmation request to the broker before
    it returns. When the broker confirms, it returns the channel and no
    error, and the handle is open; when the confirmation fails, it
    returns no channel and the error wrapped as a failure to
    subscribe, and the handle it had created is closed. *)
Theorem subscribe_confirms_or_releases topic w :
  let r := Subscribe topic w in
  w_requests r.2 = S (w_requests w)
  ∧ match w_net w (w_requests w) with
    | None =>
      r.1.1.1 = Some (spawn topic r.1.2) ∧ r.1.1.2 = None
      ∧ ps_closed r.1.2 = false ∧ ps_channels r.1.2 = [topic]
    | Some e =>
      r.1.1.1 = None
      ∧ r.1.1.2 = Some (wrapError "failed to subscribe" (errorString e))
      ∧ ps_closed r.1.2 = true
    end.
Proof.
  unfold Subscribe, request. cbn.
  destruct (w_net w (w_requests w)); cbn; done.
Qed.

(** * The wire format *)

(** ** Bytes, bit operations and UTF-8 *)

Lemma byte_val_bound b : byte_val b < 256.
Proof. unfold byte_val. pose proof (Byte.to_N_bounded b). lia. Qed.

Lemma byte_of_val b : byte_of (byte_val b) = b.
Proof.
  unfold byte_of, byte_val.
  rewrite N.mod_small by (pose proof (Byte.to_N_bounded b); lia).
  by rewrite Byte.of_to_N.
Qed.

Lemma byte_val_of n : byte_val (byte_of n) = n mod 256.
Proof.
  unfold byte_of, byte_val.
  destruct (Byte.of_N (n mod 256)) as [b|] eqn:E.
  - by apply Byte.to_of_N.
  - apply Byte.of_N_None_iff in E.
    pose proof (N.mod_upper_bound n 256). lia.
Qed.

Lemma byte_val_inj b1 b2 : byte_val b1 = byte_val b2 → b1 = b2.
Proof. intros H. by rewrite <- (byte_of_val b1), H, byte_of_val. Qed.

Lemma lor_add k m y : y < 2 ^ k → N.lor (m * 2 ^ k) y = m * 2 ^ k + y.
Proof.
  intros Hy.
  assert (Hl : N.land (m * 2 ^ k) y = 0).
  { apply N.bits_inj; intros i. rewrite N.land_spec, N.bits_0.
    destruct (N.lt_ge_cases i k) as [Hi|Hi].
    - by rewrite N.mul_pow2_bits_low.
    - rewrite <- (N.mod_small y (2 ^ k)) by done.
      rewrite N.mod_pow2_bits_high by done. apply andb_false_r. }
  rewrite <- N.lxor_lor by done. symmetry. by apply N.add_nocarry_lxor.
Qed.

Lemma lor_add_64 m y : y < 64 → N.lor (m * 64) y = m * 64 + y.
Proof. apply (lor_add 6). Qed.
Lemma lor_add_4096 m y : y < 4096 → N.lor (m * 4096) y = m * 4096 + y.
Proof. apply (lor_add 12). Qed.
Lemma lor_add_262144 m y : y < 262144 → N.lor (m * 262144) y = m * 262144 + y.
Proof. apply (lor_add 18). Qed.

Lemma land_63 x : N.land x 63 = x mod 64.
Proof. apply (N.land_ones x 6). Qed.
Lemma land_31 x : N.land x 31 = x mod 32.
Proof. apply (N.land_ones x 5). Qed.
Lemma land_15 x : N.land x 15 = x mod 16.
Proof. apply (N.land_ones x 4). Qed.
Lemma land_7 x : N.land x 7 = x mod 8.
Proof. apply (N.land_ones x 3). Qed.
Lemma shiftl_6 x : N.shiftl x 6 = x * 64.
Proof. apply (N.shiftl_mul_pow2 x 6). Qed.
Lemma shiftl_12 x : N.shiftl x 12 = x * 4096.
Proof. apply (N.shiftl_mul_pow2 x 12). Qed.
Lemma shiftl_18 x : N.shiftl x 18 = x * 262144.
Proof. apply (N.shiftl_mul_pow2 x 18). Qed.
Lemma shiftr_4 x : N.shiftr x 4 = x / 16.
Proof. apply (N.shiftr_div_pow2 x 4). Qed.
Lemma shiftr_6 x : N.shiftr x 6 = x / 64.
Proof. apply (N.shiftr_div_pow2 x 6). Qed.
Lemma shiftr_12 x : N.shiftr x 12 = x / 4096.
Proof. apply (N.shiftr_div_pow2 x 12). Qed.
Lemma shiftr_18 x : N.shiftr x 18 = x / 262144.
Proof. apply (N.shiftr_div_pow2 x 18). Qed.

Ltac Zify.zify_post_hook ::= Z.to_euclidean_division_equations.

(** Bit operations as arithmetic, for [lia]. *)
Ltac bits_arith :=
  rewrite ?land_63, ?land_31, ?land_15, ?land_7, ?shiftl_6, ?shiftl_12,
    ?shiftl_18, ?shiftr_4, ?shiftr_6, ?shiftr_12, ?shiftr_18.

(** Boolean tests in the hypotheses as arithmetic. *)
Ltac bool_arith :=
  unfold in_range in *;
  repeat match goal with
  | H : negb _ = true |- _ => apply negb_true_iff in H
  | H : negb _ = false |- _ => apply negb_false_iff in H
  | H : _ && _ = true |- _ => apply andb_true_iff in H; destruct H
  | H : _ && _ = false |- _ => apply andb_false_iff in H; destruct H
  | H : _ || _ = false |- _ => apply orb_false_iff in H; destruct H
  | H : _ || _ = true |- _ => apply orb_true_iff in H; destruct H
  | H : (_ <=? _) = true |- _ => apply N.leb_le in H
  | H : (_ <=? _) = false |- _ => apply N.leb_gt in H
  | H : (_ <? _) = true |- _ => apply N.ltb_lt in H
  | H : (_ <? _) = false |- _ => apply N.ltb_ge in H
  | H : (_ =? _) = true |- _ => apply N.eqb_eq in H
  | H : (_ =? _) = false |- _ => apply N.eqb_neq in H
  | H : (_ <=? _)%nat = true |- _ => apply Nat.leb_le in H
  | H : (_ <=? _)%nat = false |- _ => apply Nat.leb_gt in H
  | H : (_ <? _)%nat = true |- _ => apply Nat.ltb_lt in H
  | H : (_ <? _)%nat = false |- _ => apply Nat.ltb_ge in H
  | H : (_ =? _)%nat = true |- _ => apply Nat.eqb_eq in H
  | H : (_ =? _)%nat = false |- _ => apply Nat.eqb_neq in H
  end.

Lemma rune2_eq p0 b1 :
  N.lor (N.shiftl (N.land p0 utf8.mask2) 6) (N.land b1 utf8.maskx)
  = (p0 mod 32) * 64 + b1 mod 64.
Proof.
  unfold utf8.mask2, utf8.maskx. bits_arith.
  rewrite lor_add_64 by lia. done.
Qed.

Lemma rune3_eq p0 b1 b2 :
  N.lor (N.lor (N.shiftl (N.land p0 utf8.mask3) 12)
               (N.shiftl (N.land b1 utf8.maskx) 6)) (N.land b2 utf8.maskx)
  = (p0 mod 16) * 4096 + (b1 mod 64) * 64 + b2 mod 64.
Proof.
  unfold utf8.mask3, utf8.maskx. bits_arith.
  rewrite lor_add_4096 by lia.
  replace (p0 mod 16 * 4096 + b1 mod 64 * 64)
    with ((p0 mod 16 * 64 + b1 mod 64) * 64) by lia.
  rewrite lor_add_64 by lia. lia.
Qed.

Lemma rune4_eq p0 b1 b2 b3 :
  N.lor (N.lor (N.lor (N.shiftl (N.land p0 utf8.mask4) 18)
                      (N.shiftl (N.land b1 utf8.maskx) 12))
               (N.shiftl (N.land b2 utf8.maskx) 6)) (N.land b3 utf8.maskx)
  = (p0 mod 8) * 262144 + (b1 mod 64) * 4096 + (b2 mod 64) * 64 + b3 mod 64.
Proof.
  unfold utf8.mask4, utf8.maskx. bits_arith.
  rewrite lor_add_262144 by lia.
  replace (p0 mod 8 * 262144 + b1 mod 64 * 4096)
    with ((p0 mod 8 * 64 + b1 mod 64) * 4096) by lia.
  rewrite lor_add_4096 by lia.
  replace ((p0 mod 8 * 64 + b1 mod 64) * 4096 + b2 mod 64 * 64)
    with (((p0 mod 8 * 64 + b1 mod 64) * 64 + b2 mod 64) * 64) by lia.
  rewrite lor_add_64 by lia. lia.
Qed.

Lemma lor_0x80 y : y < 64 → N.lor 0x80 y = 0x80 + y.
Proof. intros. change 0x80 with (2 * 2 ^ 6). by apply lor_add. Qed.
Lemma lor_0xC0 y : y < 32 → N.lor 0xC0 y = 0xC0 + y.
Proof. intros. change 0xC0 with (6 * 2 ^ 5). by apply lor_add. Qed.
Lemma lor_0xE0 y : y < 16 → N.lor 0xE0 y = 0xE0 + y.
Proof. intros. change 0xE0 with (14 * 2 ^ 4). by apply lor_add. Qed.
Lemma lor_0xF0 y : y < 8 → N.lor 0xF0 y = 0xF0 + y.
Proof. intros. change 0xF0 with (30 * 2 ^ 3). by apply lor_add. Qed.

Lemma DecodeRune_cases p : DecodeRune_spec p (utf8.DecodeRune p).
Proof.
  unfold utf8.DecodeRune.
  destruct p as [|b0 p1]; [constructor|].
  cbv zeta. pose proof (byte_val_bound b0).
  destruct (byte_val b0 <? utf8.RuneSelf) eqn:Hascii.
  { unfold utf8.RuneSelf in *. bool_arith. by constructor. }
  unfold utf8.RuneSelf in *. bool_arith.
  unfold utf8.first, utf8.locb, utf8.hicb.
  repeat match goal with
  | |- context [if ?b then _ else _] => destruct b eqn:?
  end; try (by constructor).
  all: destruct p1 as [|b1 p2]; try (by constructor).
  all: try match goal with
       | |- context [if negb ?b then _ else _] => destruct b eqn:?; simpl negb; cbv iota
       end; try (by constructor).
  all: cbn [Nat.leb].
  all: try (destruct p2 as [|b2 p3]; [by constructor|]).
  all: try match goal with
       | |- context [if negb ?b then _ else _] => destruct b eqn:?; simpl negb; cbv iota
       end; try (by constructor).
  all: try (destruct p3 as [|b3 p4]; [by constructor|]).
  all: try match goal with
       | |- context [if negb ?b then _ else _] => destruct b eqn:?; simpl negb; cbv iota
       end; try (by constructor).
  all: bool_arith.
  all: try (exfalso; simpl in *; lia).
  all: rewrite ?rune2_eq, ?rune3_eq, ?rune4_eq.
  all: match goal with
       | |- DecodeRune_spec (?b0 :: ?b1 :: ?b2 :: ?b3 :: _) (?r, 4%nat) =>
           replace r with ((byte_val b0 - 0xF0) * 262144 + (byte_val b1 - 0x80) * 4096
                           + (byte_val b2 - 0x80) * 64 + (byte_val b3 - 0x80)) by lia
       | |- DecodeRune_spec (?b0 :: ?b1 :: ?b2 :: _) (?r, 3%nat) =>
           replace r with ((byte_val b0 - 0xE0) * 4096 + (byte_val b1 - 0x80) * 64
                           + (byte_val b2 - 0x80)) by lia
       | |- DecodeRune_spec (?b0 :: ?b1 :: _) (?r, 2%nat) =>
           replace r with ((byte_val b0 - 0xC0) * 64 + (byte_val b1 - 0x80)) by lia
       end.
  all: constructor; lia.
Qed.

Lemma in_range_true lo hi b :
  lo <= byte_val b <= hi → in_range lo hi b = true.
Proof.
  intros [H1 H2]. unfold in_range.
  apply N.leb_le in H1, H2. by rewrite H1, H2.
Qed.

Ltac first_known :=
  unfold utf8.first, utf8.locb, utf8.hicb;
  repeat match goal with
  | |- context [if ?b then _ else _] => destruct b eqn:?
  end; bool_arith; first [done | exfalso; lia].

Lemma first_two p0 :
  0xC2 <= p0 <= 0xDF → utf8.first p0 = Some (2%nat, 0x80, 0xBF).
Proof. intros. first_known. Qed.

Lemma first_three p0 :
  0xE0 <= p0 <= 0xEF →
  utf8.first p0 = Some (3%nat, if p0 =? 0xE0 then 0xA0 else 0x80,
                        if p0 =? 0xED then 0x9F else 0xBF).
Proof. intros. first_known. Qed.

Lemma first_four p0 :
  0xF0 <= p0 <= 0xF4 →
  utf8.first p0 = Some (4%nat, if p0 =? 0xF0 then 0x90 else 0x80,
                        if p0 =? 0xF4 then 0x8F else 0xBF).
Proof. intros. first_known. Qed.

Lemma not_ascii p0 : 0x80 <= p0 → (p0 <? utf8.RuneSelf) = false.
Proof. intros. apply N.ltb_ge. done. Qed.

Lemma DecodeRune_ascii b0 q :
  byte_val b0 < 0x80 → utf8.DecodeRune (b0 :: q) = (byte_val b0, 1%nat).
Proof.
  intros. unfold utf8.DecodeRune, utf8.RuneSelf. cbv zeta.
  destruct (_ <? _) eqn:?; [done|]. bool_arith. lia.
Qed.

Lemma DecodeRune_two b0 b1 q :
  0xC2 <= byte_val b0 <= 0xDF → 0x80 <= byte_val b1 <= 0xBF →
  utf8.DecodeRune (b0 :: b1 :: q)
  = ((byte_val b0 - 0xC0) * 64 + (byte_val b1 - 0x80), 2%nat).
Proof.
  intros. unfold utf8.DecodeRune. cbv zeta.
  rewrite not_ascii, first_two by lia.
  rewrite in_range_true by lia.
  cbn [length Nat.ltb Nat.leb negb]. rewrite rune2_eq. f_equal. lia.
Qed.

Lemma DecodeRune_three b0 b1 b2 q :
  0xE0 <= byte_val b0 <= 0xEF → 0x80 <= byte_val b1 <= 0xBF →
  (byte_val b0 = 0xE0 → 0xA0 <= byte_val b1) →
  (byte_val b0 = 0xED → byte_val b1 <= 0x9F) →
  0x80 <= byte_val b2 <= 0xBF →
  utf8.DecodeRune (b0 :: b1 :: b2 :: q)
  = ((byte_val b0 - 0xE0) * 4096 + (byte_val b1 - 0x80) * 64
     + (byte_val b2 - 0x80), 3%nat).
Proof.
  intros. unfold utf8.DecodeRune. cbv zeta.
  rewrite not_ascii, first_three by lia.
  rewrite in_range_true
    by (destruct (N.eqb_spec (byte_val b0) 0xE0), (N.eqb_spec (byte_val b0) 0xED); lia).
  unfold utf8.locb, utf8.hicb. rewrite in_range_true by lia.
  cbn [length Nat.ltb Nat.leb negb]. rewrite rune3_eq. f_equal. lia.
Qed.

Lemma DecodeRune_four b0 b1 b2 b3 q :
  0xF0 <= byte_val b0 <= 0xF4 → 0x80 <= byte_val b1 <= 0xBF →
  (byte_val b0 = 0xF0 → 0x90 <= byte_val b1) →
  (byte_val b0 = 0xF4 → byte_val b1 <= 0x8F) →
  0x80 <= byte_val b2 <= 0xBF → 0x80 <= byte_val b3 <= 0xBF →
  utf8.DecodeRune (b0 :: b1 :: b2 :: b3 :: q)
  = ((byte_val b0 - 0xF0) * 262144 + (byte_val b1 - 0x80) * 4096
     + (byte_val b2 - 0x80) * 64 + (byte_val b3 - 0x80), 4%nat).
Proof.
  intros. unfold utf8.DecodeRune. cbv zeta.
  rewrite not_ascii, first_four by lia.
  rewrite in_range_true
    by (destruct (N.eqb_spec (byte_val b0) 0xF0), (N.eqb_spec (byte_val b0) 0xF4); lia).
  unfold utf8.locb, utf8.hicb. rewrite !in_range_true by lia.
  cbn [length Nat.ltb Nat.leb negb]. rewrite rune4_eq. f_equal. lia.
Qed.

Lemma byte_of_eq n b : n = byte_val b → byte_of n = b.
Proof. intros ->. apply byte_of_val. Qed.

Ltac encode_known :=
  unfold utf8.EncodeRune, utf8.enc3, utf8.MaxRune, utf8.maskx;
  repeat match goal with
  | |- context [if ?b then _ else _] => destruct b eqn:?
  end;
  bool_arith; try (exfalso; lia);
  bits_arith;
  rewrite ?lor_0x80, ?lor_0xC0, ?lor_0xE0, ?lor_0xF0 by lia;
  repeat (f_equal; try (apply byte_of_eq; lia)).

Lemma EncodeRune_ascii b0 :
  byte_val b0 < 0x80 → utf8.EncodeRune (byte_val b0) = [b0].
Proof. intros. encode_known. Qed.

Lemma EncodeRune_two b0 b1 :
  0xC2 <= byte_val b0 <= 0xDF → 0x80 <= byte_val b1 <= 0xBF →
  utf8.EncodeRune ((byte_val b0 - 0xC0) * 64 + (byte_val b1 - 0x80)) = [b0; b1].
Proof. intros. encode_known. Qed.

Lemma EncodeRune_three b0 b1 b2 :
  0xE0 <= byte_val b0 <= 0xEF → 0x80 <= byte_val b1 <= 0xBF →
  (byte_val b0 = 0xE0 → 0xA0 <= byte_val b1) →
  (byte_val b0 = 0xED → byte_val b1 <= 0x9F) →
  0x80 <= byte_val b2 <= 0xBF →
  utf8.EncodeRune ((byte_val b0 - 0xE0) * 4096 + (byte_val b1 - 0x80) * 64
                   + (byte_val b2 - 0x80)) = [b0; b1; b2].
Proof. intros. encode_known. Qed.

Lemma EncodeRune_four b0 b1 b2 b3 :
  0xF0 <= byte_val b0 <= 0xF4 → 0x80 <= byte_val b1 <= 0xBF →
  (byte_val b0 = 0xF0 → 0x90 <= byte_val b1) →
  (byte_val b0 = 0xF4 → byte_val b1 <= 0x8F) →
  0x80 <= byte_val b2 <= 0xBF → 0x80 <= byte_val b3 <= 0xBF →
  utf8.EncodeRune ((byte_val b0 - 0xF0) * 262144 + (byte_val b1 - 0x80) * 4096
                   + (byte_val b2 - 0x80) * 64 + (byte_val b3 - 0x80))
  = [b0; b1; b2; b3].
Proof. intros. encode_known. Qed.

Lemma scannable_app a b : scannable a → scannable b → scannable (a ++ b).
Proof. induction 1; simpl; eauto using scannable. Qed.

Lemma scannable_plain l : Forall plain l → scannable l.
Proof. induction 1; eauto using scannable. Qed.

Lemma scan_scannable raw rest f :
  scannable raw → (length raw < f)%nat →
  json.scan_string f (raw ++ x22 :: rest) = Some (raw, rest).
Proof.
  intros Hs. revert f. induction Hs as [|b raw [H1 [H2 H3]] Hs IH|e raw He Hs IH
                                        |h1 h2 h3 h4 raw Hh1 Hh2 Hh3 Hh4 Hs IH];
    intros f Hf; (destruct f as [|f]; [simpl in Hf; lia|]); simpl in Hf.
  - done.
  - cbn [app json.scan_string].
    rewrite !bool_decide_eq_false_2 by done.
    apply N.leb_le in H3. unfold N.ltb.
    destruct (byte_val b ?= 32) eqn:Hc;
      try (rewrite IH by lia; done).
    unfold N.leb in H3. rewrite N.compare_antisym, Hc in H3. done.
  - cbn [app json.scan_string bool_decide decide_rel]. 
    change (bool_decide (x5c = x22)) with false.
    change (bool_decide (x5c = x5c)) with true. cbv iota.
    rewrite He, IH by lia. done.
  - cbn [app json.scan_string].
    change (bool_decide (x5c = x22)) with false.
    change (bool_decide (x5c = x5c)) with true. cbv iota.
    change (json.simple_escape x75) with false.
    change (bool_decide (x75 = x75)) with true. cbv iota.
    cbn [forallb]. rewrite !bool_decide_eq_true_2 by done.
    cbn [andb]. rewrite IH by lia. done.
Qed.

(** ** Escaped strings and base64 *)

Ltac ascii_only b H :=
  destruct b; try (exfalso; vm_compute in H; discriminate); clear H.

Lemma escape_ascii_scannable b :
  byte_val b < 0x80 → scannable (json.escape_ascii b).
Proof.
  intros H. ascii_only b H; vm_compute json.escape_ascii.
  all: first
    [ apply sc_plain; [by (split; [|split]) | apply sc_nil]
    | apply sc_escape; [reflexivity | apply sc_nil]
    | apply sc_unicode; [by eexists ..| apply sc_nil] ].
Qed.

Lemma unquote_escape_ascii b f rest :
  byte_val b < 0x80 →
  json.unquote_fuel (S f) (json.escape_ascii b ++ rest)
  = (t ← json.unquote_fuel f rest; Some (b :: t)).
Proof.
  intros H. ascii_only b H; reflexivity.
Qed.

Lemma DecodeRune_take4 p : utf8.DecodeRune (take utf8.UTFMax p) = utf8.DecodeRune p.
Proof.
  unfold utf8.UTFMax.
  destruct p as [|b0 [|b1 [|b2 [|b3 p4]]]]; try reflexivity.
  cbn [take]. unfold utf8.DecodeRune. cbv zeta.
  destruct (_ <? utf8.RuneSelf); [done|].
  unfold utf8.first.
  repeat match goal with
  | |- context [if ?b then _ else _] => destruct b; try reflexivity
  end.
Qed.

(** A non-ASCII head: either the byte is invalid, or it starts a
    sequence of two to four bytes, none of them ASCII, that
    [EncodeRune] gives back and that decodes alike before any text. *)
Lemma DecodeRune_multibyte b0 p r n :
  0x80 <= byte_val b0 →
  utf8.DecodeRune (b0 :: p) = (r, n) →
  (r = utf8.RuneError ∧ n = 1%nat)
  ∨ ((2 <= n)%nat ∧ length (take n (b0 :: p)) = n
     ∧ Forall (λ b, 0x80 <= byte_val b) (take n (b0 :: p))
     ∧ utf8.EncodeRune r = take n (b0 :: p)
     ∧ 0x80 <= r
     ∧ ∀ q, utf8.DecodeRune (take n (b0 :: p) ++ q) = (r, n)).
Proof.
  intros Hb0 Hd.
  pose proof (DecodeRune_cases (b0 :: p)) as Hs. rewrite Hd in Hs.
  inversion Hs; subst; try lia.
  - right. split; [lia|]. split; [done|]. cbn [take app].
    split; [repeat constructor; lia|].
    split; [by apply EncodeRune_two|]. split; [lia|].
    intros q. by apply DecodeRune_two.
  - right. split; [lia|]. split; [done|]. cbn [take app].
    split; [repeat constructor; lia|].
    split; [by apply EncodeRune_three|]. split; [lia|].
    intros q. by apply DecodeRune_three.
  - right. split; [lia|]. split; [done|]. cbn [take app].
    split; [repeat constructor; lia|].
    split; [by apply EncodeRune_four|]. split; [lia|].
    intros q. by apply DecodeRune_four.
Qed.

Lemma plain_high b : 0x80 <= byte_val b → plain b.
Proof.
  intros H. split; [|split].
  - intros ->. vm_compute in H. by apply H.
  - intros ->. vm_compute in H. by apply H.
  - lia.
Qed.

Lemma escape_scannable n s : scannable (json.escape_fuel n s).
Proof.
  revert s. induction n as [|n IH]; intros s; [constructor|].
  destruct s as [|b s']; [constructor|].
  cbn [json.escape_fuel].
  destruct (byte_val b <? utf8.RuneSelf) eqn:Hascii.
  { apply N.ltb_lt in Hascii.
    apply scannable_app; [by apply escape_ascii_scannable | apply IH]. }
  apply N.ltb_ge in Hascii. rewrite DecodeRune_take4.
  destruct (utf8.DecodeRune (b :: s')) as [c size] eqn:Hd.
  destruct (DecodeRune_multibyte _ _ _ _ Hascii Hd)
    as [[-> ->]|(Hn & Hlen & Hhigh & Henc & Hr & Hq)].
  { change ((utf8.RuneError =? utf8.RuneError) && (1 =? 1)%nat) with true.
    cbv iota. apply (sc_unicode x66 x66 x66 x64); try (by eexists). apply IH. }
  replace ((c =? utf8.RuneError) && (size =? 1)%nat) with false
    by (symmetry; apply andb_false_iff; right; apply Nat.eqb_neq; lia).
  destruct ((c =? 0x2028) || (c =? 0x2029)) eqn:Hls.
  - apply orb_true_iff in Hls as [->%N.eqb_eq| ->%N.eqb_eq];
      (apply sc_unicode; [by eexists ..|apply IH]).
  - apply scannable_app; [|apply IH].
    apply scannable_plain. eapply Forall_impl; [exact Hhigh|].
    intros. by apply plain_high.
Qed.

Lemma unquote_high b rest f :
  0x80 <= byte_val b →
  json.unquote_fuel (S f) (b :: rest) =
  let '(rr, size) := utf8.DecodeRune (b :: rest) in
  t ← json.unquote_fuel f (drop size (b :: rest));
  Some (utf8.EncodeRune rr ++ t).
Proof.
  intros H. cbn [json.unquote_fuel].
  destruct (plain_high b H) as (H1 & H2 & H3).
  rewrite !bool_decide_eq_false_2 by done.
  replace (byte_val b <? 32) with false by (symmetry; apply N.ltb_ge; lia).
  replace (byte_val b <? utf8.RuneSelf) with false
    by (symmetry; apply N.ltb_ge; done).
  done.
Qed.

Lemma unquote_unicode h1 h2 h3 h4 rest f rr :
  json.getu4 (x5c :: x75 :: h1 :: h2 :: h3 :: h4 :: rest) = Some rr →
  json.IsSurrogate rr = false →
  json.unquote_fuel (S f) (x5c :: x75 :: h1 :: h2 :: h3 :: h4 :: rest)
  = (t ← json.unquote_fuel f rest; Some (utf8.EncodeRune rr ++ t)).
Proof.
  intros Hg Hs. cbn [json.unquote_fuel].
  rewrite (bool_decide_eq_true_2 (x5c = x5c)) by done.
  rewrite !(bool_decide_eq_false_2 (x75 = _)) by done.
  rewrite (bool_decide_eq_true_2 (x75 = x75)) by done.
  cbn [orb]. rewrite Hg. cbn [mbind option_bind]. rewrite Hs. done.
Qed.

Lemma unquote_escape n s f :
  (length (json.escape_fuel n s) <= f)%nat →
  json.unquote_fuel f (json.escape_fuel n s) = Some (utf8.coerce_fuel n s).
Proof.
  revert s f. induction n as [|n IH]; intros s f Hf.
  { by destruct f. }
  destruct s as [|b s']; [by destruct f|].
  cbn [json.escape_fuel utf8.coerce_fuel] in *.
  destruct (byte_val b <? utf8.RuneSelf) eqn:Hascii.
  { apply N.ltb_lt in Hascii.
    assert (1 <= length (json.escape_ascii b))%nat
      by (clear -Hascii; ascii_only b Hascii; vm_compute; lia).
    rewrite length_app in Hf.
    destruct f as [|f]; [lia|].
    rewrite unquote_escape_ascii, IH by (done || lia). done. }
  apply N.ltb_ge in Hascii. rewrite DecodeRune_take4 in *.
  destruct (utf8.DecodeRune (b :: s')) as [c size] eqn:Hd.
  destruct (DecodeRune_multibyte _ _ _ _ Hascii Hd)
    as [[-> ->]|(Hn & Hlen & Hhigh & Henc & Hr & Hq)].
  { change ((utf8.RuneError =? utf8.RuneError) && (1 =? 1)%nat) with true in *.
    cbv iota in *. destruct f as [|f]; [simpl in Hf; lia|].
    cbn [app].
    rewrite (unquote_unicode _ _ _ _ _ _ utf8.RuneError) by done.
    rewrite IH by (simpl in Hf; lia). done. }
  replace ((c =? utf8.RuneError) && (size =? 1)%nat) with false in *
    by (symmetry; apply andb_false_iff; right; apply Nat.eqb_neq; lia).
  destruct ((c =? 0x2028) || (c =? 0x2029)) eqn:Hls.
  - destruct f as [|f]; [simpl in Hf; lia|].
    rewrite <- Henc.
    apply orb_true_iff in Hls as [->%N.eqb_eq| ->%N.eqb_eq].
    all: cbn [app].
    1: rewrite (unquote_unicode _ _ _ _ _ _ 0x2028) by done.
    2: rewrite (unquote_unicode _ _ _ _ _ _ 0x2029) by done.
    all: rewrite IH by (simpl in Hf; lia); done.
  - rewrite length_app, Hlen in Hf.
    destruct f as [|f]; [lia|].
    destruct (take size (b :: s')) as [|b' tl] eqn:Htake; [simpl in Hlen; lia|].
    assert (b' = b) as -> by (destruct size; [lia|]; simpl in Htake; congruence).
    cbn [app]. rewrite unquote_high by done.
    change (b :: tl ++ json.escape_fuel n (drop size (b :: s')))
      with ((b :: tl) ++ json.escape_fuel n (drop size (b :: s'))).
    rewrite Hq. rewrite <- Hlen at 1. rewrite drop_app_length.
    rewrite IH by lia. cbn [mbind option_bind]. by rewrite Henc.
Qed.

Lemma valid_coerce n s : utf8.valid_fuel n s = true → utf8.coerce_fuel n s = s.
Proof.
  revert s. induction n as [|n IH]; intros s Hv.
  { by destruct s. }
  destruct s as [|b s']; [done|].
  cbn [utf8.valid_fuel utf8.coerce_fuel] in *.
  destruct (byte_val b <? utf8.RuneSelf) eqn:Hascii.
  - apply N.ltb_lt in Hascii. rewrite DecodeRune_ascii in Hv by done.
    destruct (_ && _); [done|]. cbn [drop] in Hv. by rewrite IH.
  - destruct (utf8.DecodeRune (b :: s')) as [r size].
    destruct (_ && _); [done|]. rewrite IH by done. apply take_drop.
Qed.

(** A valid UTF-8 text comes back from its JSON string as it was. *)
Lemma unquote_escape_valid s :
  utf8.Valid s = true →
  json.unquote (json.escape_fuel (length s) s) = Some s.
Proof.
  intros Hv. unfold json.unquote.
  rewrite unquote_escape by done. f_equal. by apply valid_coerce.
Qed.

Lemma unquote_plain_ascii l f :
  Forall (λ b, plain b ∧ byte_val b < 0x80) l → (length l <= f)%nat →
  json.unquote_fuel f l = Some l.
Proof.
  intros Hl. revert f. induction Hl as [|b l [(H1 & H2 & H3) H4] Hl IH]; intros f Hf.
  { by destruct f. }
  destruct f as [|f]; [simpl in Hf; lia|]. simpl in Hf.
  cbn [json.unquote_fuel].
  rewrite !bool_decide_eq_false_2 by done.
  replace (byte_val b <? 32) with false by (symmetry; apply N.ltb_ge; lia).
  replace (byte_val b <? utf8.RuneSelf) with true
    by (symmetry; apply N.ltb_lt; done).
  cbn [orb]. rewrite IH by lia. done.
Qed.

Lemma encodeStd_decodeMap n : n < 64 → base64.decodeMap (base64.encodeStd n) = Some n.
Proof.
  intros H.
  assert (Hn : n = N.of_nat (N.to_nat n)) by lia.
  assert (Hb : (N.to_nat n < 64)%nat) by lia.
  rewrite Hn. generalize dependent (N.to_nat n). clear. intros m _ Hm.
  do 64 (destruct m as [|m]; [reflexivity|]). lia.
Qed.

Lemma sextet_bound v : N.land v 0x3F < 64.
Proof. rewrite land_63. lia. Qed.

Lemma decodeMap_pad : base64.decodeMap base64.padChar = None.
Proof. reflexivity. Qed.

Lemma shiftl_8 x : N.shiftl x 8 = x * 256.
Proof. apply (N.shiftl_mul_pow2 x 8). Qed.
Lemma shiftl_16 x : N.shiftl x 16 = x * 65536.
Proof. apply (N.shiftl_mul_pow2 x 16). Qed.
Lemma shiftr_8 x : N.shiftr x 8 = x / 256.
Proof. apply (N.shiftr_div_pow2 x 8). Qed.
Lemma shiftr_16 x : N.shiftr x 16 = x / 65536.
Proof. apply (N.shiftr_div_pow2 x 16). Qed.
Lemma lor_add_256 m y : y < 256 → N.lor (m * 256) y = m * 256 + y.
Proof. apply (lor_add 8). Qed.
Lemma lor_add_65536 m y : y < 65536 → N.lor (m * 65536) y = m * 65536 + y.
Proof. apply (lor_add 16). Qed.

Ltac b64_arith :=
  rewrite ?land_63, ?shiftl_6, ?shiftl_8, ?shiftl_12, ?shiftl_16, ?shiftl_18,
    ?shiftr_6, ?shiftr_8, ?shiftr_12, ?shiftr_16, ?shiftr_18.

Lemma byte_of_eq_mod n b : n mod 256 = byte_val b → byte_of n = b.
Proof.
  intros H. apply byte_val_inj. by rewrite byte_val_of.
Qed.

Lemma quantum3 a b c :
  let v := N.lor (N.lor (N.shiftl (byte_val a) 16) (N.shiftl (byte_val b) 8))
                 (byte_val c) in
  let w := N.lor (N.lor (N.lor (N.shiftl (N.land (N.shiftr v 18) 0x3F) 18)
                               (N.shiftl (N.land (N.shiftr v 12) 0x3F) 12))
                        (N.shiftl (N.land (N.shiftr v 6) 0x3F) 6))
                 (N.land v 0x3F) in
  byte_of (N.shiftr w 16) = a ∧ byte_of (N.shiftr w 8) = b ∧ byte_of w = c.
Proof.
  pose proof (byte_val_bound a). pose proof (byte_val_bound b).
  pose proof (byte_val_bound c).
  cbv zeta. b64_arith.
  rewrite (lor_add_65536 (byte_val a)) by lia.
  replace (byte_val a * 65536 + byte_val b * 256)
    with ((byte_val a * 256 + byte_val b) * 256) by lia.
  rewrite lor_add_256 by lia.
  set (v := (byte_val a * 256 + byte_val b) * 256 + byte_val c).
  assert (Hv : v < 16777216) by (unfold v; lia).
  rewrite lor_add_262144 by lia.
  replace (v / 262144 mod 64 * 262144 + v / 4096 mod 64 * 4096)
    with ((v / 262144 mod 64 * 64 + v / 4096 mod 64) * 4096) by lia.
  rewrite lor_add_4096 by lia.
  replace ((v / 262144 mod 64 * 64 + v / 4096 mod 64) * 4096 + v / 64 mod 64 * 64)
    with (((v / 262144 mod 64 * 64 + v / 4096 mod 64) * 64 + v / 64 mod 64) * 64) by lia.
  rewrite lor_add_64 by lia.
  replace (((v / 262144 mod 64 * 64 + v / 4096 mod 64) * 64 + v / 64 mod 64) * 64
           + v mod 64) with v by lia.
  unfold v. repeat split; apply byte_of_eq_mod; lia.
Qed.

Lemma quantum2 a b :
  let v := N.lor (N.shiftl (byte_val a) 16) (N.shiftl (byte_val b) 8) in
  let w := N.lor (N.lor (N.shiftl (N.land (N.shiftr v 18) 0x3F) 18)
                        (N.shiftl (N.land (N.shiftr v 12) 0x3F) 12))
                 (N.shiftl (N.land (N.shiftr v 6) 0x3F) 6) in
  byte_of (N.shiftr w 16) = a ∧ byte_of (N.shiftr w 8) = b.
Proof.
  pose proof (byte_val_bound a). pose proof (byte_val_bound b).
  cbv zeta. b64_arith.
  rewrite (lor_add_65536 (byte_val a)) by lia.
  set (v := byte_val a * 65536 + byte_val b * 256).
  assert (Hv : v < 16777216) by (unfold v; lia).
  rewrite lor_add_262144 by lia.
  replace (v / 262144 mod 64 * 262144 + v / 4096 mod 64 * 4096)
    with ((v / 262144 mod 64 * 64 + v / 4096 mod 64) * 4096) by lia.
  rewrite lor_add_4096 by lia.
  unfold v. split; apply byte_of_eq_mod; lia.
Qed.

Lemma quantum1 a :
  let v := N.shiftl (byte_val a) 16 in
  let w := N.lor (N.shiftl (N.land (N.shiftr v 18) 0x3F) 18)
                 (N.shiftl (N.land (N.shiftr v 12) 0x3F) 12) in
  byte_of (N.shiftr w 16) = a.
Proof.
  pose proof (byte_val_bound a).
  cbv zeta. b64_arith.
  rewrite lor_add_262144 by lia.
  apply byte_of_eq_mod; lia.
Qed.

Lemma decode_quanta_Encode n src :
  (length src <= n)%nat → base64.decode_quanta (base64.Encode src) = Some src.
Proof.
  revert src. induction n as [|n IH]; intros src Hn.
  { destruct src; [done|simpl in Hn; lia]. }
  destruct src as [|a [|b [|c rest]]]; [done|..].
  - cbn [base64.Encode base64.decode_quanta].
    rewrite !encodeStd_decodeMap by apply sextet_bound.
    rewrite decodeMap_pad. rewrite bool_decide_eq_true_2 by done.
    by rewrite quantum1.
  - cbn [base64.Encode base64.decode_quanta].
    rewrite !encodeStd_decodeMap by apply sextet_bound.
    rewrite decodeMap_pad. rewrite bool_decide_eq_true_2 by done.
    destruct (quantum2 a b) as [-> ->]. done.
  - cbn [base64.Encode base64.decode_quanta].
    rewrite !encodeStd_decodeMap by apply sextet_bound.
    rewrite IH by (simpl in Hn; lia). cbn [mbind option_bind].
    destruct (quantum3 a b c) as (-> & -> & ->). done.
Qed.

Lemma Encode_b64out src : Forall b64out (base64.Encode src).
Proof.
  assert (Hs : ∀ v, b64out (base64.encodeStd (N.land v 0x3F))).
  { intros v. left. eexists. split; [apply sextet_bound|done]. }
  assert (Hp : b64out base64.padChar) by (by right).
  assert (H : ∀ n src, (length src <= n)%nat → Forall b64out (base64.Encode src)).
  { clear src. induction n as [|n IH]; intros src Hn.
    { destruct src; [constructor|simpl in Hn; lia]. }
    destruct src as [|a [|b [|c rest]]]; cbn [base64.Encode];
      repeat (constructor; try done).
    apply IH. simpl in Hn. lia. }
  by apply (H (length src)).
Qed.

Lemma b64out_facts c :
  b64out c →
  base64.is_newline c = false ∧ plain c ∧ byte_val c < 0x80.
Proof.
  intros [(n & Hn & ->)| ->]; [|by repeat split].
  assert (Hn' : n = N.of_nat (N.to_nat n)) by lia.
  assert (Hb : (N.to_nat n < 64)%nat) by lia.
  rewrite Hn'. generalize dependent (N.to_nat n). clear. intros m _ Hm.
  do 64 (destruct m as [|m]; [by repeat split|]). lia.
Qed.

Lemma filter_all {A} (P : A → Prop) `{!∀ x, Decision (P x)} (l : list A) :
  Forall P l → filter P l = l.
Proof.
  induction 1 as [|x l Hx Hl IH]; [done|].
  rewrite filter_cons_True by done. by rewrite IH.
Qed.

Lemma Decode_Encode src : base64.Decode (base64.Encode src) = Some src.
Proof.
  unfold base64.Decode. rewrite filter_all.
  - by apply (decode_quanta_Encode (length src)).
  - eapply Forall_impl; [apply Encode_b64out|].
    intros c Hc. by apply b64out_facts.
Qed.

Lemma Encode_plain src :
  Forall (λ b, plain b ∧ byte_val b < 0x80) (base64.Encode src).
Proof.
  eapply Forall_impl; [apply Encode_b64out|].
  intros c Hc. by apply b64out_facts.
Qed.

(** ** Dates, numbers and their digits *)

Local Open Scope Z_scope.

Lemma shiftr_2 n : Z.shiftr n 2 = n / 4.
Proof. apply (Z.shiftr_div_pow2 n 2). lia. Qed.

Lemma isLeap_spec year :
  time.isLeap year = true ↔ (year mod 4 = 0 ∧ (year mod 100 ≠ 0 ∨ year mod 400 = 0)).
Proof.
  unfold time.isLeap.
  rewrite andb_true_iff, orb_true_iff, negb_true_iff, !Z.eqb_eq, Z.eqb_neq.
  lia.
Qed.

Lemma year_yday_spec days :
  let '(year, yday) := year_yday days in
  time.daysSinceEpoch year + yday = days
  ∧ 0 <= yday < (if time.isLeap year then 366 else 365).
Proof.
  unfold year_yday, time.daysSinceEpoch, time.daysPer400Years,
    time.daysPer100Years, time.daysPer4Years.
  cbv zeta. rewrite !shiftr_2.
  change (365 * 400 + 97) with 146097. change (365 * 100 + 24) with 36524.
  change (365 * 4 + 1) with 1461.
  set (n400 := days / 146097).
  set (d1 := days - 146097 * n400).
  set (q100 := d1 / 36524).
  set (n100 := q100 - q100 / 4).
  set (d2 := d1 - 36524 * n100).
  set (n4 := d2 / 1461).
  set (d3 := d2 - 1461 * n4).
  set (q1 := d3 / 365).
  set (n1 := q1 - q1 / 4).
  set (d4 := d3 - 365 * n1).
  assert (H1 : 0 <= d1 < 146097) by (unfold d1, n400; lia).
  assert (H2 : 0 <= n100 <= 3) by (unfold n100, q100; lia).
  assert (H3 : 0 <= d2 ∧ (n100 < 3 → d2 < 36524) ∧ (n100 = 3 → d2 < 36525))
    by (unfold d2, n100, q100 in *; lia).
  assert (H4 : 0 <= n4 <= 24) by (unfold n4; lia).
  assert (H5 : 0 <= d3 < 1461 ∧ (n100 < 3 → n4 = 24 → d3 < 1460))
    by (unfold d3, n4 in *; lia).
  assert (H6 : 0 <= n1 <= 3) by (unfold n1, q1; lia).
  assert (H7 : 0 <= d4 ∧ (n1 < 3 → d4 < 365) ∧ (n1 = 3 → d4 < 366)
               ∧ (d3 < 1460 → d4 < 365))
    by (unfold d4, n1, q1 in *; lia).
  set (year := 400 * n400 + 100 * n100 + 4 * n4 + n1 + 1).
  assert (Hy1 : (year - 1) / 400 = n400) by (unfold year; lia).
  rewrite Hy1.
  assert (Hy2 : (year - 1 - 400 * n400) / 100 = n100) by (unfold year; lia).
  rewrite Hy2.
  assert (Hy3 : (year - 1 - 400 * n400 - 100 * n100) / 4 = n4) by (unfold year; lia).
  rewrite Hy3.
  split; [unfold year, d4, d3, d2, d1; lia|].
  destruct (time.isLeap year) eqn:Hl.
  - lia.
  - assert (Hnl : n1 = 3 → n4 = 24 ∧ n100 < 3); [|lia].
    intros Hn1.
    destruct (decide (n4 = 24 ∧ n100 < 3)) as [|Hn]; [done|].
    exfalso. apply not_true_iff_false in Hl. apply Hl. apply isLeap_spec.
    clearbody n400 n100 n4 n1 d4 d3 d2 d1. unfold year. lia.
Qed.

Lemma month_of_day_check : forallb month_of_day_ok (seq 0 365) = true.
Proof. vm_compute. reflexivity. Qed.

Lemma month_of_day_spec day :
  0 <= day < 365 →
  let '(m, d) := month_of_day day in
  1 <= m <= 12 ∧ 1 <= d <= time.daysBefore m - time.daysBefore (m - 1)
  ∧ time.daysBefore (m - 1) + (d - 1) = day
  ∧ (day < 59 → m <= 2) ∧ (59 <= day → 3 <= m).
Proof.
  intros Hd.
  pose proof (proj1 (forallb_forall _ _) month_of_day_check (Z.to_nat day)) as H.
  unfold month_of_day_ok in H. rewrite Z2Nat.id in H by lia. cbv zeta in H.
  destruct (month_of_day day) as [m d].
  specialize (H ltac:(apply in_seq; lia)).
  repeat (apply andb_true_iff in H as [H ?]).
  destruct (Z.ltb_spec day 59); lia.
Qed.

Lemma absDate_split days :
  time.absDate days =
  let '(year, yday) := year_yday days in
  if time.isLeap year && (yday =? 31 + 29 - 1) then (year, 2, 29)
  else
    let day := if time.isLeap year && (31 + 29 - 1 <? yday) then yday - 1 else yday in
    let '(m, d) := month_of_day day in (year, m, d).
Proof.
  unfold time.absDate, year_yday, month_of_day. cbv zeta.
  repeat match goal with
  | |- context [if ?b then _ else _] => destruct b
  end; reflexivity.
Qed.

(** [absDate] yields a date of the calendar, and the day count of
    that date, as [Date] computes it, is the one it came from. *)
Lemma absDate_spec days :
  let '(year, m, d) := time.absDate days in
  1 <= m <= 12 ∧ 1 <= d <= time.daysIn m year
  ∧ time.daysSinceEpoch year + time.daysBefore (m - 1)
    + (if time.isLeap year && (3 <=? m) then 1 else 0) + (d - 1) = days.
Proof.
  rewrite absDate_split.
  pose proof (year_yday_spec days) as Hy.
  destruct (year_yday days) as [year yday]. destruct Hy as [Hd Hy].
  unfold time.daysIn.
  destruct (time.isLeap year) eqn:Hl; cbn [andb].
  - destruct (Z.eqb_spec yday (31 + 29 - 1)) as [->|Hne].
    { rewrite Hl. change (2 =? 2) with true. change (3 <=? 2) with false.
      change (time.daysBefore (2 - 1)) with 31. cbn [andb]. lia. }
    destruct (Z.ltb_spec (31 + 29 - 1) yday) as [Hlt|Hge].
    + pose proof (month_of_day_spec (yday - 1) ltac:(lia)) as Hm.
      destruct (month_of_day (yday - 1)) as [m d]. rewrite Hl.
      destruct Hm as (Hm1 & Hm2 & Hm3 & Hm4 & Hm5).
      replace (m =? 2) with false by (symmetry; apply Z.eqb_neq; lia).
      replace (3 <=? m) with true by (symmetry; apply Z.leb_le; lia).
      cbn [andb]. lia.
    + pose proof (month_of_day_spec yday ltac:(lia)) as Hm.
      destruct (month_of_day yday) as [m d]. rewrite Hl.
      destruct Hm as (Hm1 & Hm2 & Hm3 & Hm4 & Hm5).
      replace (3 <=? m) with false by (symmetry; apply Z.leb_gt; lia).
      destruct (Z.eqb_spec m 2) as [->|]; cbn [andb]; [|lia].
      vm_compute time.daysBefore in *. lia.
  - cbv zeta.
    pose proof (month_of_day_spec yday ltac:(lia)) as Hm.
    destruct (month_of_day yday) as [m d]. rewrite Hl.
    destruct Hm as (Hm1 & Hm2 & Hm3 & Hm4 & Hm5).
    rewrite andb_false_r. cbn [andb]. lia.
Qed.

Lemma digit_val d :
  0 <= d <= 9 → Z.of_N (byte_val (time.digit d)) = 48 + d.
Proof.
  intros H. unfold time.digit. rewrite byte_val_of.
  rewrite N.mod_small by lia. lia.
Qed.

Lemma digit_in_range d : 0 <= d <= 9 → in_range 48 57 (time.digit d) = true.
Proof.
  intros H. apply in_range_true. pose proof (digit_val d H). lia.
Qed.

Lemma fixed_rev_length k u : length (fixed_rev k u) = k.
Proof. revert u. induction k; intros; simpl; auto. Qed.

Lemma fixed_rev_zero k : fixed_rev k 0 = replicate k x30.
Proof.
  induction k; [done|]. cbn [fixed_rev replicate].
  change (0 / 10) with 0. change (0 mod 10) with 0. by rewrite IHk.
Qed.

Lemma digits_rev_fixed k fuel u :
  (1 <= k <= fuel)%nat → 0 <= u < 10 ^ Z.of_nat k →
  fixed_rev k u
  = time.digits_rev fuel u ++ replicate (k - length (time.digits_rev fuel u)) x30.
Proof.
  revert fuel u. induction k as [|k IH]; intros fuel u Hk Hu; [lia|].
  destruct fuel as [|fuel]; [lia|].
  cbn [fixed_rev time.digits_rev].
  destruct (Z.ltb_spec u 10) as [Hlt|Hge].
  - rewrite Z.mod_small, Z.div_small by lia.
    cbn [app length]. rewrite fixed_rev_zero. f_equal. f_equal. lia.
  - destruct k as [|k].
    { change (10 ^ Z.of_nat 1) with 10 in Hu. lia. }
    cbn [app length]. f_equal.
    rewrite (IH fuel) by (try lia; rewrite Nat2Z.inj_succ, Z.pow_succ_r in Hu; lia).
    f_equal.
Qed.

Lemma rev_alt' {A} (l : list A) : reverse l = rev l.
Proof. unfold reverse. by rewrite rev_alt. Qed.

Lemma appendInt_fixed x k :
  (1 <= k <= 20)%nat → 0 <= x < 10 ^ Z.of_nat k →
  time.appendInt x k = rev (fixed_rev k x).
Proof.
  intros Hk Hx. unfold time.appendInt.
  replace (x <? 0) with false by (symmetry; apply Z.ltb_ge; lia).
  rewrite Z.abs_eq by lia. cbn [app].
  rewrite (digits_rev_fixed k 20) by lia.
  rewrite rev_app_distr, length_rev. f_equal.
  rewrite <- rev_alt'. symmetry. apply reverse_replicate.
Qed.

Lemma parse_fixed k x a :
  0 <= x < 10 ^ Z.of_nat k →
  foldl parse_step (Some a) (rev (fixed_rev k x)) = Some (a * 10 ^ Z.of_nat k + x).
Proof.
  revert x. induction k as [|k IH]; intros x Hx.
  { change (10 ^ Z.of_nat 0) with 1 in *. simpl. f_equal. lia. }
  rewrite Nat2Z.inj_succ, Z.pow_succ_r in * by lia.
  cbn [fixed_rev rev]. rewrite foldl_app, IH by lia.
  cbn [foldl parse_step mbind option_bind].
  rewrite digit_in_range, digit_val by lia. f_equal. lia.
Qed.

Lemma parseUint_fixed k x min max :
  0 <= x < 10 ^ Z.of_nat k → min <= x <= max →
  time.parseUint (rev (fixed_rev k x)) min max = Some x.
Proof.
  intros Hx Hm. unfold time.parseUint.
  change (λ acc c, _) with parse_step.
  rewrite parse_fixed by done. cbn [mbind option_bind].
  replace (0 * 10 ^ Z.of_nat k + x) with x by lia.
  replace (x <? min) with false by (symmetry; apply Z.ltb_ge; lia).
  replace (max <? x) with false by (symmetry; apply Z.ltb_ge; lia).
  done.
Qed.

Lemma trim_nonzero d l :
  1 <= d <= 9 → time.trim_zeros_rev (time.digit d :: l) = time.digit d :: l.
Proof.
  intros H.
  assert (Hc : d = 1 ∨ d = 2 ∨ d = 3 ∨ d = 4 ∨ d = 5 ∨ d = 6 ∨ d = 7 ∨ d = 8 ∨ d = 9)
    by lia.
  repeat (destruct Hc as [->|Hc]); try reflexivity. by subst.
Qed.

(** Trimming the trailing zeros of the [k] digits of [n] leaves the
    [j] digits of [n] without its [z] trailing zeros. *)
Lemma trim_fixed k n :
  0 < n < 10 ^ Z.of_nat k →
  ∃ z j m, (z + j = k)%nat ∧ (1 <= j)%nat
    ∧ time.trim_zeros_rev (fixed_rev k n) = fixed_rev j m
    ∧ n = m * 10 ^ Z.of_nat z ∧ 0 < m < 10 ^ Z.of_nat j.
Proof.
  revert n. induction k as [|k IH]; intros n Hn.
  { change (10 ^ Z.of_nat 0) with 1 in Hn. lia. }
  rewrite Nat2Z.inj_succ, Z.pow_succ_r in Hn by lia.
  cbn [fixed_rev].
  destruct (Z.eq_dec (n mod 10) 0) as [H0|H0].
  - rewrite H0. change (time.digit 0) with x30. cbn [time.trim_zeros_rev].
    destruct (IH (n / 10)) as (z & j & m & Hzj & Hj & Ht & Hm & Hm'); [lia|].
    exists (S z), j, m. rewrite Nat2Z.inj_succ, Z.pow_succ_r by lia.
    repeat split; try done; try lia.
  - exists 0%nat, (S k), n.
    rewrite trim_nonzero by lia.
    rewrite Nat2Z.inj_succ, Z.pow_succ_r by lia.
    change (10 ^ Z.of_nat 0) with 1.
    repeat split; try done; lia.
Qed.

Lemma fixed_rev_digits k u : Forall is_digit (rev (fixed_rev k u)).
Proof.
  revert u. induction k as [|k IH]; intros u; [constructor|].
  cbn [fixed_rev rev]. apply Forall_app. split; [apply IH|].
  constructor; [|constructor]. apply digit_in_range.
  pose proof (Z.mod_pos_bound u 10). lia.
Qed.

Lemma count_digits_app ds rest :
  Forall is_digit ds →
  match rest with c :: _ => in_range 48 57 c = false | [] => True end →
  time.count_digits (ds ++ rest) = length ds.
Proof.
  intros Hd Hr. induction Hd as [|d ds Hd Hds IH]; cbn [app time.count_digits].
  - destruct rest as [|c rest]; [done|]. cbn [time.count_digits]. by rewrite Hr.
  - unfold is_digit in Hd. by rewrite Hd, IH.
Qed.

(** The fraction that [appendNano] writes is read back by
    [parseNanoseconds], before any text that starts with no digit. *)
Lemma nano_roundtrip n rest :
  0 < n < 1000000000 →
  match rest with c :: _ => in_range 48 57 c = false | [] => True end →
  ∃ ds, time.appendNano n = x2e :: ds
    ∧ Forall is_digit ds ∧ (1 <= length ds <= 9)%nat
    ∧ time.count_digits (ds ++ rest) = length ds
    ∧ time.parseNanoseconds (x2e :: ds ++ rest) (S (length ds)) = n.
Proof.
  intros Hn Hr. unfold time.appendNano.
  replace (n =? 0) with false by (symmetry; apply Z.eqb_neq; lia).
  rewrite (appendInt_fixed n 9) by (change (10 ^ Z.of_nat 9) with 1000000000; lia).
  rewrite rev_involutive.
  destruct (trim_fixed 9 n) as (z & j & m & Hzj & Hj & -> & Hm & Hm').
  { change (10 ^ Z.of_nat 9) with 1000000000. lia. }
  exists (rev (fixed_rev j m)).
  assert (Hlen : length (rev (fixed_rev j m)) = j)
    by (by rewrite length_rev, fixed_rev_length).
  split; [done|]. split; [apply fixed_rev_digits|]. split; [lia|].
  split; [apply count_digits_app; [apply fixed_rev_digits|done]|].
  unfold time.parseNanoseconds. rewrite Hlen.
  replace (Nat.min (S j) 10) with (S j) by lia.
  cbn [take drop]. rewrite take_app_length' by done.
  rewrite (parseUint_fixed j m) by
    (split; try lia;
     assert (10 ^ Z.of_nat j <= 10 ^ Z.of_nat 9)
       by (apply Z.pow_le_mono_r; lia);
     change (10 ^ Z.of_nat 9) with 1000000000 in *; lia).
  rewrite Hm. f_equal. f_equal. lia.
Qed.

Lemma absClock_spec abs :
  let '(h, mi, s) := time.absClock abs in
  0 <= h <= 23 ∧ 0 <= mi <= 59 ∧ 0 <= s <= 59
  ∧ h * 3600 + mi * 60 + s = abs mod time.secondsPerDay.
Proof.
  unfold time.absClock, time.secondsPerDay. cbv zeta. lia.
Qed.

Lemma norm_id hi lo base : 0 <= lo < base → time.norm hi lo base = (hi, lo).
Proof.
  intros H. unfold time.norm. rewrite Z.div_small, Z.mod_small by lia.
  f_equal. lia.
Qed.

(** [Date] on what [absDate] and [absClock] make of an instant is
    that instant again, in UTC. *)
Lemma Date_absDate abs ns :
  0 <= ns < 1000000000 →
  let '(y, mo, d) := time.absDate (abs / time.secondsPerDay) in
  let '(h, mi, s) := time.absClock abs in
  time.Date y mo d h mi s ns = time.mkTime abs ns 0 None.
Proof.
  intros Hns.
  pose proof (absDate_spec (abs / time.secondsPerDay)) as Hd.
  pose proof (absClock_spec abs) as Hc.
  destruct (time.absDate _) as [[y mo] d].
  destruct (time.absClock abs) as [[h mi] s].
  destruct Hd as (Hmo & Hday & Hdays). destruct Hc as (Hh & Hmi & Hs & Habs).
  unfold time.Date.
  rewrite (norm_id y (mo - 1) 12) by lia.
  rewrite (norm_id s ns) by lia.
  rewrite (norm_id mi s 60) by lia.
  rewrite (norm_id h mi 60) by lia.
  rewrite (norm_id d h 24) by lia.
  cbv zeta.
  replace (mo - 1 + 1) with mo by lia.
  f_equal.
  assert (Hleap : (if time.isLeap y && (3 <=? mo)
                   then time.daysSinceEpoch y + time.daysBefore (mo - 1) + 1
                   else time.daysSinceEpoch y + time.daysBefore (mo - 1))
                  = time.daysSinceEpoch y + time.daysBefore (mo - 1)
                    + (if time.isLeap y && (3 <=? mo) then 1 else 0))
    by (destruct (_ && _); lia).
  rewrite Hleap, Hdays, Habs. unfold time.secondsPerDay. lia.
Qed.

Lemma parseUint_2 x min max :
  0 <= x < 100 → min <= x <= max →
  time.parseUint [time.digit (x / 10 mod 10); time.digit (x mod 10)] min max
  = Some x.
Proof.
  intros. apply (parseUint_fixed 2); [change (10 ^ Z.of_nat 2) with 100; lia | lia].
Qed.

Lemma parseUint_4 x min max :
  0 <= x < 10000 → min <= x <= max →
  time.parseUint [time.digit (x / 10 / 10 / 10 mod 10);
                  time.digit (x / 10 / 10 mod 10);
                  time.digit (x / 10 mod 10); time.digit (x mod 10)] min max
  = Some x.
Proof.
  intros. apply (parseUint_fixed 4); [change (10 ^ Z.of_nat 4) with 10000; lia | lia].
Qed.

Lemma appendInt_2 x :
  0 <= x < 100 →
  time.appendInt x 2 = [time.digit (x / 10 mod 10); time.digit (x mod 10)].
Proof.
  intros. rewrite (appendInt_fixed x 2); [done | lia | change (10 ^ Z.of_nat 2) with 100; lia].
Qed.

Lemma appendInt_4 x :
  0 <= x < 10000 →
  time.appendInt x 4 = [time.digit (x / 10 / 10 / 10 mod 10);
                        time.digit (x / 10 / 10 mod 10);
                        time.digit (x / 10 mod 10); time.digit (x mod 10)].
Proof.
  intros. rewrite (appendInt_fixed x 4); [done | lia | change (10 ^ Z.of_nat 4) with 10000; lia].
Qed.

Local Close Scope Z_scope.

(** ** Fractions and zones *)

Local Open Scope Z_scope.

Lemma parseFraction_nano n zone :
  0 <= n < 1000000000 → zone_head zone →
  time.parseFraction (time.appendNano n ++ zone) = (n, zone).
Proof.
  intros Hn Hz. destruct (Z.eq_dec n 0) as [->|Hn0].
  - change (time.appendNano 0) with (@nil byte). cbn [app].
    unfold time.parseFraction.
    destruct zone as [|c zone]; [done|]. destruct Hz as [_ Hc].
    cbn [lookup list_lookup].
    rewrite (bool_decide_eq_false_2 (Some c = Some x2e)) by congruence.
    by rewrite andb_false_r.
  - destruct (nano_roundtrip n zone) as (ds & -> & Hds & Hlen & Hcount & Hparse).
    { lia. }
    { destruct zone; [done|]. by destruct Hz. }
    unfold time.parseFraction. cbn [app length drop].
    replace (2 <=? S (length (ds ++ zone)))%nat with true
      by (symmetry; apply Nat.leb_le; rewrite length_app; lia).
    cbn [lookup list_lookup]. rewrite bool_decide_eq_true_2 by done.
    destruct ds as [|d ds]; [simpl in Hlen; lia|].
    unfold time.isDigit. cbn [app lookup list_lookup].
    apply Forall_cons in Hds as [Hd _]. unfold is_digit in Hd. rewrite Hd.
    cbn [andb]. cbn [app] in Hcount, Hparse.
    change (drop 0 (d :: ds ++ zone)) with (d :: ds ++ zone).
    rewrite Hcount, Hparse.
    f_equal. change (d :: ds ++ zone) with ((d :: ds) ++ zone).
    by rewrite drop_app_length.
Qed.

Lemma digit_plain d : 0 <= d <= 9 →
  plain (time.digit d) ∧ (byte_val (time.digit d) < 0x80)%N
  ∧ time.digit d ≠ x5a ∧ time.digit d ≠ x2e.
Proof.
  intros H.
  assert (Hc : d = 0 ∨ d = 1 ∨ d = 2 ∨ d = 3 ∨ d = 4 ∨ d = 5 ∨ d = 6 ∨ d = 7
               ∨ d = 8 ∨ d = 9) by lia.
  repeat (destruct Hc as [->|Hc]); try subst d;
    (split; [by (split; [|split])|split; [done|split; done]]).
Qed.

Lemma text_char_punct c :
  c = x2d ∨ c = x2b ∨ c = x3a ∨ c = x5a ∨ c = x54 ∨ c = x2e → text_char c.
Proof. intros [->|[->|[->|[->|[->| ->]]]]]; by (split; [split; [|split]|]). Qed.

Ltac pick := solve [repeat (first [left; reflexivity | right]); reflexivity].

Lemma digit_text_char d : 0 <= d <= 9 → text_char (time.digit d).
Proof. intros H. by destruct (digit_plain d H) as (? & ? & _). Qed.

(** The zone that [appendZone] writes for a whole number of minutes
    below 24 hours, and what [parseZone] and the strict check make of
    it. *)
Lemma zone_roundtrip abs ns offset :
  Z.rem offset 60 = 0 → -86400 < offset < 86400 →
  let zone := time.appendZone offset in
  time.parseZone (time.mkTime abs ns 0 None) zone
  = Some (time.mkTime (abs - offset) ns offset None)
  ∧ zone_head zone ∧ Forall text_char zone
  ∧ (offset = 0 → zone = [x5a])
  ∧ (offset ≠ 0 →
     ∃ sign hh mm, zone = sign :: time.appendInt hh 2 ++ x3a :: time.appendInt mm 2
       ∧ length zone = 6%nat ∧ in_range 48 57 sign = false
       ∧ 0 <= hh < 24 ∧ 0 <= mm < 60
       ∧ last zone ≠ Some x5a).
Proof.
  intros Hrem Hrange. cbv zeta. unfold time.appendZone.
  destruct (Z.eqb_spec offset 0) as [->|Hne].
  { unfold time.parseZone. rewrite bool_decide_eq_true_2 by done.
    replace (abs - 0) with abs by lia.
    split. { done. } split. { done. }
    split. { apply Forall_cons_2; [apply text_char_punct; pick|apply Forall_nil_2]. }
    split. { done. } intros H. by destruct H. }
  remember (Z.quot offset 60) as z0 eqn:Hq.
  assert (Hz0 : offset = 60 * z0) by lia. clear Hq Hrem.
  destruct (Z.ltb_spec z0 0) as [Hneg|Hpos].
  - remember (- z0) as z eqn:Hzz.
    assert (Hz : 0 < z < 1440) by lia.
    rewrite (appendInt_2 (Z.quot z 60)), (appendInt_2 (Z.rem z 60)) by lia.
    cbn [app].
    split; [|split; [done|split; [|split; [done|]]]].
    + unfold time.parseZone.
      rewrite bool_decide_eq_false_2 by done.
      cbn [length Nat.eqb negb time.slice take drop Nat.sub].
      rewrite (parseUint_2 (Z.quot z 60)) by lia. cbn [mbind option_bind].
      rewrite (parseUint_2 (Z.rem z 60)) by lia.
      cbn [mbind option_bind lookup list_lookup].
      rewrite (bool_decide_eq_true_2 (_ ∧ _)) by (split; [by left|done]).
      rewrite (bool_decide_eq_true_2 (Some x2d = Some x2d)) by done.
      cbn [negb time.sec time.nsec]. f_equal. f_equal; lia.
    + repeat (apply Forall_cons_2;
                [first [apply digit_text_char; lia | apply text_char_punct; pick]|]).
      apply Forall_nil_2.
    + intros _. exists x2d, (Z.quot z 60), (Z.rem z 60).
      rewrite !appendInt_2 by lia. split; [reflexivity|].
      repeat split; try done; try lia.
      cbn [last]. intros [=Hl].
      by destruct (digit_plain (Z.rem z 60 mod 10) ltac:(lia)) as (_&_&?&_).
  - remember z0 as z eqn:Hzz.
    assert (Hz : 0 < z < 1440) by lia.
    rewrite (appendInt_2 (Z.quot z 60)), (appendInt_2 (Z.rem z 60)) by lia.
    cbn [app].
    split; [|split; [done|split; [|split; [done|]]]].
    + unfold time.parseZone.
      rewrite bool_decide_eq_false_2 by done.
      cbn [length Nat.eqb negb time.slice take drop Nat.sub].
      rewrite (parseUint_2 (Z.quot z 60)) by lia. cbn [mbind option_bind].
      rewrite (parseUint_2 (Z.rem z 60)) by lia.
      cbn [mbind option_bind lookup list_lookup].
      rewrite (bool_decide_eq_true_2 (_ ∧ _)) by (split; [by right|done]).
      rewrite (bool_decide_eq_false_2 (Some x2b = Some x2d)) by done.
      cbn [negb time.sec time.nsec]. f_equal. f_equal; lia.
    + repeat (apply Forall_cons_2;
                [first [apply digit_text_char; lia | apply text_char_punct; pick]|]).
      apply Forall_nil_2.
    + intros _. exists x2b, (Z.quot z 60), (Z.rem z 60).
      rewrite !appendInt_2 by lia. split; [reflexivity|].
      repeat split; try done; try lia.
      cbn [last]. intros [=Hl].
      by destruct (digit_plain (Z.rem z 60 mod 10) ltac:(lia)) as (_&_&?&_).
Qed.

Local Close Scope Z_scope.

(** ** RFC 3339 texts *)

Local Open Scope Z_scope.

Lemma daysIn_bound m year : 1 <= m <= 12 → time.daysIn m year <= 31.
Proof.
  intros H. unfold time.daysIn.
  assert (Hc : m = 1 ∨ m = 2 ∨ m = 3 ∨ m = 4 ∨ m = 5 ∨ m = 6 ∨ m = 7 ∨ m = 8
               ∨ m = 9 ∨ m = 10 ∨ m = 11 ∨ m = 12) by lia.
  repeat (destruct Hc as [->|Hc]); try subst m;
    destruct (time.isLeap year); vm_compute; congruence.
Qed.

Lemma is_digit_text_char c : is_digit c → text_char c.
Proof.
  unfold is_digit. intros H. bool_arith.
  split; [split; [|split]|]; try lia.
  - intros ->. vm_compute in H. done.
  - intros ->. vm_compute in H0. done.
Qed.

Lemma appendNano_text ns :
  0 <= ns < 1000000000 → Forall text_char (time.appendNano ns).
Proof.
  intros H. destruct (Z.eq_dec ns 0) as [->|Hne]; [apply Forall_nil_2|].
  destruct (nano_roundtrip ns []) as (ds & -> & Hds & _); [lia|done|].
  apply Forall_cons_2; [apply text_char_punct; pick|].
  eapply Forall_impl; [exact Hds|]. apply is_digit_text_char.
Qed.

(** The first nineteen characters of the text and the rest. *)
Lemma appendFormatRFC3339_shape t y mo d h mi s :
  time.absDate ((time.sec t + time.offset t) / time.secondsPerDay) = (y, mo, d) →
  time.absClock (time.sec t + time.offset t) = (h, mi, s) →
  0 <= y <= 9999 →
  time.appendFormatRFC3339 t =
  [time.digit (y / 10 / 10 / 10 mod 10); time.digit (y / 10 / 10 mod 10);
   time.digit (y / 10 mod 10); time.digit (y mod 10); x2d;
   time.digit (mo / 10 mod 10); time.digit (mo mod 10); x2d;
   time.digit (d / 10 mod 10); time.digit (d mod 10); x54;
   time.digit (h / 10 mod 10); time.digit (h mod 10); x3a;
   time.digit (mi / 10 mod 10); time.digit (mi mod 10); x3a;
   time.digit (s / 10 mod 10); time.digit (s mod 10)]
  ++ time.appendNano (time.nsec t) ++ time.appendZone (time.offset t).
Proof.
  intros Hd Hc Hy. unfold time.appendFormatRFC3339. rewrite Hd, Hc.
  pose proof (absDate_spec ((time.sec t + time.offset t) / time.secondsPerDay)) as Hds.
  pose proof (absClock_spec (time.sec t + time.offset t)) as Hcs.
  rewrite Hd in Hds. rewrite Hc in Hcs.
  destruct Hds as (Hmo & Hday & _). destruct Hcs as (Hh & Hmi & Hs & _).
  pose proof (daysIn_bound mo y Hmo).
  rewrite appendInt_4 by lia. rewrite !appendInt_2 by lia. reflexivity.
Qed.

(** The text of an encodable time reads back as that time without
    its monotonic reading. *)
Lemma parse_format t :
  time.encodable t →
  time.parseRFC3339 (time.appendFormatRFC3339 t) = Some (time.stripMono t).
Proof.
  intros (Hns & Hy & Hrem & Hoff). unfold time.Year in Hy.
  destruct (time.absDate _) as [[y mo] d] eqn:Hd.
  destruct (time.absClock (time.sec t + time.offset t)) as [[h mi] s] eqn:Hc.
  cbn [fst] in Hy.
  rewrite (appendFormatRFC3339_shape t y mo d h mi s) by done.
  pose proof (absDate_spec ((time.sec t + time.offset t) / time.secondsPerDay)) as Hds.
  pose proof (absClock_spec (time.sec t + time.offset t)) as Hcs.
  pose proof (Date_absDate (time.sec t + time.offset t) (time.nsec t) Hns) as HD.
  rewrite Hd in Hds, HD. rewrite Hc in Hcs, HD.
  destruct Hds as (Hmo & Hday & _). destruct Hcs as (Hh & Hmi & Hs & _).
  pose proof (daysIn_bound mo y Hmo).
  destruct (zone_roundtrip (time.sec t + time.offset t) (time.nsec t)
              (time.offset t) Hrem Hoff) as (Hz & Hzh & _).
  unfold time.parseRFC3339.
  cbn [app length Nat.ltb Nat.leb time.slice take drop Nat.sub].
  rewrite parseUint_4 by lia. cbn [mbind option_bind].
  rewrite (parseUint_2 mo) by lia. cbn [mbind option_bind].
  rewrite (parseUint_2 d) by lia. cbn [mbind option_bind].
  rewrite (parseUint_2 h) by lia. cbn [mbind option_bind].
  rewrite (parseUint_2 mi) by lia. cbn [mbind option_bind].
  rewrite (parseUint_2 s) by lia. cbn [mbind option_bind lookup list_lookup].
  rewrite bool_decide_eq_true_2 by done. cbn [negb].
  change (drop 0 ?l) with l.
  rewrite parseFraction_nano by done.
  rewrite HD, Hz. unfold time.stripMono. f_equal. f_equal. lia.
Qed.

Lemma num2_digits x rest :
  0 <= x < 100 →
  time.num2 (time.digit (x / 10 mod 10) :: time.digit (x mod 10) :: rest) = x.
Proof.
  intros H. unfold time.num2. rewrite !digit_val by lia. lia.
Qed.

(** The strict check lets the text of an encodable time pass. *)
Lemma strict_format t :
  time.encodable t →
  time.appendStrictRFC3339 t = inr (time.appendFormatRFC3339 t).
Proof.
  intros (Hns & Hy & Hrem & Hoff). unfold time.Year in Hy.
  destruct (time.absDate _) as [[y mo] d] eqn:Hd.
  destruct (time.absClock (time.sec t + time.offset t)) as [[h mi] s] eqn:Hc.
  cbn [fst] in Hy.
  unfold time.appendStrictRFC3339.
  rewrite (appendFormatRFC3339_shape t y mo d h mi s) by done.
  set (P := [time.digit (y / 10 / 10 / 10 mod 10); _; _; _; _; _; _; _; _; _;
             _; _; _; _; _; _; _; _; _]).
  assert (H4 : ∀ rest, (P ++ rest) !! 4%nat = Some x2d) by done.
  rewrite H4. rewrite bool_decide_eq_true_2 by done. cbn [negb].
  destruct (zone_roundtrip 0 0 (time.offset t) Hrem Hoff)
    as (_ & _ & _ & Hz0 & Hz1).
  rewrite !app_assoc.
  set (pre := P ++ time.appendNano (time.nsec t)).
  destruct (Z.eq_dec (time.offset t) 0) as [H0|Hne].
  - rewrite (Hz0 H0), last_snoc. by rewrite bool_decide_eq_true_2.
  - destruct (Hz1 Hne) as (sign & hh & mm & Hzone & Hlen & Hsign & Hhh & Hmm & Hlast).
    assert (Hl : last (pre ++ time.appendZone (time.offset t))
                 = last (time.appendZone (time.offset t))).
    { rewrite last_app. destruct (last (time.appendZone _)) eqn:E; [done|].
      apply last_None in E. rewrite E in Hlen. done. }
    rewrite Hl, bool_decide_eq_false_2 by done. cbn [negb].
    rewrite length_app, Hlen.
    replace (length pre + 6 - 6)%nat with (length pre + 0)%nat by lia.
    replace (length pre + 6 - 5)%nat with (length pre + 1)%nat by lia.
    rewrite lookup_app_r, drop_app_add by lia.
    replace (length pre + 0 - length pre)%nat with 0%nat by lia.
    rewrite Hzone. cbn [lookup list_lookup drop]. rewrite Hsign.
    rewrite appendInt_2 by lia. cbn [app orb].
    rewrite drop_0, num2_digits by lia.
    replace (24 <=? hh) with false by (symmetry; apply Z.leb_gt; lia).
    done.
Qed.

Lemma format_text t :
  time.encodable t → Forall text_char (time.appendFormatRFC3339 t).
Proof.
  intros (Hns & Hy & Hrem & Hoff). unfold time.Year in Hy.
  destruct (time.absDate _) as [[y mo] d] eqn:Hd.
  destruct (time.absClock (time.sec t + time.offset t)) as [[h mi] s] eqn:Hc.
  cbn [fst] in Hy.
  rewrite (appendFormatRFC3339_shape t y mo d h mi s) by done.
  destruct (zone_roundtrip 0 0 (time.offset t) Hrem Hoff) as (_ & _ & Hz & _).
  cbn [app].
  repeat (apply Forall_cons_2;
          [first [apply digit_text_char; lia | apply text_char_punct; pick]|]).
  apply Forall_app. split; [by apply appendNano_text | done].
Qed.

(** [Time.MarshalJSON] followed by the fast path of
    [Time.UnmarshalJSON]. *)
Lemma time_json_roundtrip t :
  time.encodable t →
  time.MarshalJSON t = inr ([x22] ++ time.appendFormatRFC3339 t ++ [x22])
  ∧ time.parseRFC3339 (time.appendFormatRFC3339 t) = Some (time.stripMono t)
  ∧ Forall text_char (time.appendFormatRFC3339 t).
Proof.
  intros H. unfold time.MarshalJSON. rewrite strict_format by done.
  auto using parse_format, format_text.
Qed.

Local Close Scope Z_scope.

(** ** JSON texts: what the encoder writes, the parser reads *)

Lemma skip_ws_head c s : json.isSpace c = false → json.skip_ws (c :: s) = c :: s.
Proof. intros H. cbn [json.skip_ws]. by rewrite H. Qed.

Lemma parses_mono dmax n n' v text :
  (n <= n')%nat → parses dmax n v text → parses dmax n' v text.
Proof. intros Hn [Hh Hp]. split; [done|]. intros. apply Hp; lia. Qed.

Lemma parses_null dmax : parses dmax 1 json.Null [x6e; x75; x6c; x6c].
Proof.
  split; [by eexists _, _|].
  intros f depth rest Hf _. destruct f as [|f]; [lia|]. reflexivity.
Qed.

Lemma parses_string dmax raw :
  scannable raw → parses dmax 1 (json.String raw) (x22 :: raw ++ [x22]).
Proof.
  intros Hs. split; [by eexists _, _|].
  intros f depth rest Hf _. destruct f as [|f]; [lia|].
  cbn [app json.parse_value]. rewrite skip_ws_head by done.
  rewrite !(bool_decide_eq_false_2 (x22 = _)) by done.
  rewrite (bool_decide_eq_true_2 (x22 = x22)) by done.
  rewrite <- app_assoc. cbn [app].
  rewrite scan_scannable; [done|done|].
  rewrite length_app. simpl. lia.
Qed.

Lemma parse_members_cons dmax f depth kraw v vtext need rest :
  scannable kraw → parses dmax need v vtext → (need <= f)%nat → depth < dmax →
  json.parse_members (S f) depth (member_text kraw vtext ++ rest)
  = match json.skip_ws rest with
    | c4 :: s5 =>
      if bool_decide (c4 = x2c) then
        '(ms, rest') ← json.parse_members f depth s5;
        Some ((kraw, v) :: ms, rest')
      else if bool_decide (c4 = x7d) then Some ([(kraw, v)], s5)
      else None
    | [] => None
    end.
Proof.
  intros Hk [Hh Hp] Hf Hd. unfold member_text.
  cbn [app json.parse_members]. rewrite skip_ws_head by done.
  rewrite (bool_decide_eq_true_2 (x22 = x22)) by done.
  rewrite <- app_assoc. cbn [app].
  rewrite scan_scannable;
    [|done|rewrite length_app; simpl; lia].
  cbn [mbind option_bind]. rewrite skip_ws_head by done.
  rewrite (bool_decide_eq_true_2 (x3a = x3a)) by done.
  rewrite Hp by done. reflexivity.
Qed.

(** The members of an object, separated by commas. *)
Lemma parse_members_join dmax need ms f depth rest :
  Forall (λ '(kraw, v, vtext), scannable kraw ∧ parses dmax need v vtext) ms →
  ms ≠ [] → (need + length ms <= f)%nat → depth < dmax →
  json.parse_members f depth
    (jsonMessage.join_members ((λ '(kraw, v, vtext), member_text kraw vtext) <$> ms)
     ++ x7d :: rest)
  = Some ((λ '(kraw, v, vtext), (kraw, v)) <$> ms, rest).
Proof.
  intros Hms. revert f. induction Hms as [|[[kraw v] vtext] ms [Hk Hv] Hms IH];
    intros f Hne Hf Hd; [done|].
  destruct f as [|f]; [simpl in Hf; lia|]. simpl in Hf.
  destruct ms as [|m2 ms].
  - cbn [fmap list_fmap jsonMessage.join_members].
    rewrite (parse_members_cons dmax f depth kraw v vtext need) by (done || lia).
    rewrite skip_ws_head by done.
    rewrite (bool_decide_eq_false_2 (x7d = x2c)) by done.
    by rewrite (bool_decide_eq_true_2 (x7d = x7d)).
  - cbn [fmap list_fmap jsonMessage.join_members] in *.
    rewrite <- !app_assoc.
    rewrite (parse_members_cons dmax f depth kraw v vtext need) by (done || lia).
    cbn [app]. rewrite skip_ws_head by done.
    rewrite (bool_decide_eq_true_2 (x2c = x2c)) by done.
    rewrite IH by (done || simpl in *; lia). reflexivity.
Qed.

Lemma parses_object dmax need ms :
  dmax <= 10000 →
  Forall (λ '(kraw, v, vtext), scannable kraw ∧ parses dmax need v vtext) ms →
  parses (N.pred dmax) (S (need + length ms))
    (json.Object ((λ '(kraw, v, vtext), (kraw, v)) <$> ms))
    ([x7b]
     ++ jsonMessage.join_members ((λ '(kraw, v, vtext), member_text kraw vtext) <$> ms)
     ++ [x7d]).
Proof.
  intros Hdmax Hms. split; [by eexists _, _|].
  intros f depth rest Hf Hd. destruct f as [|f]; [lia|].
  cbn [app json.parse_value]. rewrite skip_ws_head by done.
  rewrite (bool_decide_eq_true_2 (x7b = x7b)) by done.
  replace (json.maxNestingDepth <? N.succ depth) with false
    by (symmetry; apply N.ltb_ge; unfold json.maxNestingDepth; lia).
  rewrite <- app_assoc. cbn [app].
  destruct ms as [|[[kraw v] vtext] ms].
  - cbn [fmap list_fmap jsonMessage.join_members app].
    rewrite skip_ws_head by done.
    by rewrite (bool_decide_eq_true_2 (x7d = x7d)).
  - assert (Hhead : ∃ tl, jsonMessage.join_members
              ((λ '(kraw, v, vtext), member_text kraw vtext)
                 <$> (kraw, v, vtext) :: ms) = x22 :: tl).
    { cbn [fmap list_fmap jsonMessage.join_members]. unfold member_text.
      destruct (_ <$> ms); cbn [app]; eauto. }
    destruct Hhead as [tl Htl].
    rewrite Htl at 1. cbn [app]. rewrite skip_ws_head by done.
    rewrite (bool_decide_eq_false_2 (x22 = x7d)) by done.
    rewrite parse_members_join with (dmax := dmax) (need := need);
      [done|done|done|simpl in *; lia|lia].
Qed.

Lemma appendString_esc s :
  json.appendString (jsonMessage.bytes_of s) = x22 :: esc s ++ [x22].
Proof. reflexivity. Qed.

Lemma esc_scannable s : scannable (esc s).
Proof. apply escape_scannable. Qed.

Lemma unquote_esc s :
  utf8.ValidString s = true →
  jsonMessage.str_of <$> json.unquote (esc s) = Some s.
Proof.
  intros Hv. unfold esc. rewrite unquote_escape_valid by done.
  cbn [fmap option_fmap option_map]. f_equal.
  apply string_of_list_byte_of_string.
Qed.

Lemma decode_member_ID m v :
  jsonMessage.decode_member m (esc "ID") v = jsonMessage.decode_ID m v.
Proof. reflexivity. Qed.

Lemma decode_member_Body m v :
  jsonMessage.decode_member m (esc "Body") v = jsonMessage.decode_Body m v.
Proof. reflexivity. Qed.

Lemma decode_member_Timestamp m v :
  jsonMessage.decode_member m (esc "Timestamp") v = jsonMessage.decode_Timestamp m v.
Proof. reflexivity. Qed.

Lemma decode_member_Metadata m v :
  jsonMessage.decode_member m (esc "Metadata") v = jsonMessage.decode_Metadata m v.
Proof. reflexivity. Qed.

Lemma decode_entries_valid l acc :
  Forall valid_entry l →
  jsonMessage.decode_entries (entry_member <$> l) acc
  = Some (foldl (λ acc kv, <[kv.1 := kv.2]> acc) acc l).
Proof.
  intros Hl. revert acc. induction Hl as [|[k v] l [Hk Hv] Hl IH]; intros acc; [done|].
  cbn [fmap list_fmap entry_member jsonMessage.decode_entries fst snd foldl] in *.
  pose proof (unquote_esc k Hk) as Ek. pose proof (unquote_esc v Hv) as Ev.
  destruct (json.unquote (esc k)) as [k'|]; [|done].
  destruct (json.unquote (esc v)) as [v'|]; [|done].
  cbn [fmap option_fmap option_map mbind option_bind] in *.
  injection Ek as ->. injection Ev as ->. apply IH.
Qed.

Lemma foldl_insert_list_to_map (l : list (string * string)) :
  foldl (λ acc kv, <[kv.1 := kv.2]> acc) (∅ : gmap string string) l
  = list_to_map (rev l).
Proof.
  rewrite <- (rev_involutive l) at 1. generalize (rev l). clear l. intros l.
  induction l as [|[k v] l IH]; [done|].
  cbn [rev]. rewrite foldl_app. cbn [foldl]. by rewrite IH.
Qed.

(** The sorted entries of a map, inserted one after the other, give
    the map back. *)
Lemma insert_sorted_entries (m : gmap string string) :
  foldl (λ acc kv, <[kv.1 := kv.2]> acc) (∅ : gmap string string)
        (jsonMessage.sorted_entries m) = m.
Proof.
  rewrite foldl_insert_list_to_map.
  assert (Hp : rev (jsonMessage.sorted_entries m) ≡ₚ map_to_list m).
  { rewrite <- rev_alt'. rewrite reverse_Permutation.
    apply merge_sort_Permutation. }
  rewrite (list_to_map_proper (rev (jsonMessage.sorted_entries m)) (map_to_list m)).
  - apply list_to_map_to_list.
  - rewrite Hp. apply NoDup_fst_map_to_list.
  - done.
Qed.

Lemma join_members_length texts :
  Forall (λ t, (1 <= length t)%nat) texts →
  (length texts <= length (jsonMessage.join_members texts))%nat.
Proof.
  induction 1 as [|t texts Ht Hts IH]; [done|].
  destruct texts as [|t2 texts]; cbn [jsonMessage.join_members length] in *; [lia|].
  rewrite !length_app. simpl in *. lia.
Qed.

Lemma encode_bytes_json b : jsonMessage.encode_bytes b = (body_json b).2.
Proof. by destruct b. Qed.

Lemma encode_map_json md : jsonMessage.encode_map md = (metadata_json md).2.
Proof.
  destruct md as [md|]; [|done]. unfold jsonMessage.encode_map, metadata_json.
  cbn [snd]. do 3 f_equal. rewrite <- list_fmap_compose.
  apply list_fmap_ext. intros _ [k v] _.
  unfold jsonMessage.encode_entry, compose, entry_triple, member_text.
  cbn [fst snd]. rewrite !appendString_esc. cbn [app].
  by rewrite <- !app_assoc.
Qed.

Lemma body_json_parses dmax b : parses dmax 1 (body_json b).1 (body_json b).2.
Proof.
  destruct b as [b|]; [|apply parses_null].
  apply parses_string, scannable_plain.
  eapply Forall_impl; [apply Encode_plain|]. by intros c [? _].
Qed.

Lemma metadata_json_parses md :
  parses 9999 (S (S (length (entries_of md))))
         (metadata_json md).1 (metadata_json md).2.
Proof.
  destruct md as [md|].
  - cbn [metadata_json fst snd entries_of].
    replace (S (S (length (jsonMessage.sorted_entries md))))
      with (S (1 + length (entry_triple <$> jsonMessage.sorted_entries md)))
      by (rewrite length_fmap; lia).
    apply (parses_object 10000); [done|].
    apply Forall_fmap, Forall_forall. intros [k v] _.
    unfold compose, entry_triple. cbn [fst snd].
    split; [apply esc_scannable|]. apply parses_string, esc_scannable.
  - eapply parses_mono; [|apply parses_null]. simpl. lia.
Qed.

Lemma metadata_json_length md :
  (length (entries_of md) <= length (metadata_json md).2)%nat.
Proof.
  destruct md as [md|]; [|simpl; lia].
  cbn [metadata_json snd entries_of]. rewrite !length_app.
  etrans; [|apply Nat.le_add_l]. etrans; [|apply Nat.le_add_r].
  etrans; [|apply join_members_length].
  - by rewrite !length_fmap.
  - apply Forall_fmap, Forall_fmap, Forall_forall. intros [k v] _.
    unfold compose, entry_triple, member_text. simpl. lia.
Qed.

Lemma Marshal_shape m :
  time.encodable (Timestamp m) →
  jsonMessage.Marshal m =
  inr ([x7b]
       ++ jsonMessage.join_members
            ((λ '(kraw, v, vtext), member_text kraw vtext)
               <$> top_members m (time.appendFormatRFC3339 (Timestamp m)))
       ++ [x7d]).
Proof.
  intros Ht. unfold jsonMessage.Marshal.
  destruct (time_json_roundtrip _ Ht) as (-> & _ & _).
  f_equal. f_equal. unfold top_members.
  cbn [fmap list_fmap jsonMessage.join_members].
  unfold jsonMessage.field_name, member_text.
  rewrite !appendString_esc, encode_bytes_json, encode_map_json.
  repeat (rewrite <- app_assoc || rewrite <- app_comm_cons || cbn [app]).
  reflexivity.
Qed.

Lemma top_members_parse m ts :
  Forall text_char ts →
  json.parse ([x7b]
       ++ jsonMessage.join_members
            ((λ '(kraw, v, vtext), member_text kraw vtext) <$> top_members m ts)
       ++ [x7d])
  = Some (json.Object ((λ '(kraw, v, vtext), (kraw, v)) <$> top_members m ts)).
Proof.
  intros Hts.
  assert (Hp : parses 9998 (S (S (S (length (entries_of (Metadata m)))) + 4))
                 (json.Object ((λ '(kraw, v, vtext), (kraw, v)) <$> top_members m ts))
                 ([x7b] ++ jsonMessage.join_members
                    ((λ '(kraw, v, vtext), member_text kraw vtext)
                       <$> top_members m ts) ++ [x7d])).
  { apply (parses_object 9999 _ (top_members m ts)); [done|].
    unfold top_members.
    repeat apply Forall_cons_2; try apply Forall_nil_2;
      (split; [apply esc_scannable|]).
    - eapply parses_mono; [|apply parses_string, esc_scannable]. lia.
    - eapply parses_mono; [|apply body_json_parses]. lia.
    - eapply parses_mono; [|apply parses_string, scannable_plain]; [lia|].
      eapply Forall_impl; [exact Hts|]. by intros c [? _].
    - apply metadata_json_parses. }
  destruct Hp as [_ Hp]. unfold json.parse.
  set (text := _ ++ _ ++ _) in *.
  specialize (Hp (S (length text)) 0 []).
  rewrite app_nil_r in Hp. rewrite Hp; [done| |done].
  subst text. unfold top_members.
  cbn [fmap list_fmap jsonMessage.join_members]. unfold member_text.
  pose proof (metadata_json_length (Metadata m)).
  repeat (rewrite length_app || cbn [length app]). lia.
Qed.

Lemma decode_body_json i b0 t md b :
  jsonMessage.decode_Body (mkMessage i b0 t md) (body_json b).1
  = jsonMessage.Ok (mkMessage i b t md).
Proof.
  destruct b as [b|]; [|done]. cbn [body_json fst jsonMessage.decode_Body].
  unfold json.unquote. rewrite unquote_plain_ascii by (apply Encode_plain || done).
  cbn [mbind option_bind]. by rewrite Decode_Encode.
Qed.

Lemma decode_metadata_json i b t md :
  Forall valid_entry (entries_of md) →
  jsonMessage.decode_Metadata (mkMessage i b t None) (metadata_json md).1
  = jsonMessage.Ok (mkMessage i b t md).
Proof.
  intros Hv. destruct md as [md|]; [|done].
  cbn [metadata_json fst jsonMessage.decode_Metadata Metadata default ID Body Timestamp].
  rewrite <- list_fmap_compose.
  rewrite (list_fmap_ext _ entry_member (jsonMessage.sorted_entries md))
    by (by intros ? [??]).
  rewrite decode_entries_valid by done.
  by rewrite insert_sorted_entries.
Qed.

Lemma decode_Marshal m :
  utf8.ValidString (ID m) = true →
  Forall valid_entry (entries_of (Metadata m)) →
  time.encodable (Timestamp m) →
  ∃ data, jsonMessage.Marshal m = inr data
    ∧ jsonMessage.decode data
      = jsonMessage.Ok (mkMessage (ID m) (Body m)
                          (time.stripMono (Timestamp m)) (Metadata m)).
Proof.
  intros Hid Hmd Ht. eexists. split; [by apply Marshal_shape|].
  destruct (time_json_roundtrip _ Ht) as (_ & Hparse & Htext).
  unfold jsonMessage.decode. rewrite top_members_parse by done.
  unfold top_members. cbn [fmap list_fmap jsonMessage.decode_members].
  rewrite decode_member_ID. cbn [jsonMessage.decode_ID].
  pose proof (unquote_esc _ Hid) as Hu.
  destruct (json.unquote (esc (ID m))) as [s|]; [|done].
  injection Hu as ->.
  cbn [jsonMessage.decode_members]. rewrite decode_member_Body.
  change (Body zeroMessage) with (@None (list byte)).
  change (Timestamp zeroMessage) with time.zero.
  change (Metadata zeroMessage) with (@None (gmap string string)).
  rewrite decode_body_json.
  rewrite decode_member_Timestamp. cbn [jsonMessage.decode_Timestamp].
  rewrite Hparse. cbn [ID Body Timestamp Metadata].
  rewrite decode_member_Metadata.
  by rewrite decode_metadata_json.
Qed.

(** ** The round trip of a message *)

Lemma valid_strings_entries md :
  valid_strings md → Forall valid_entry (entries_of md).
Proof.
  destruct md as [md|]; [|by constructor]. cbn [valid_strings entries_of].
  intros H. apply map_Forall_to_list in H.
  unfold jsonMessage.sorted_entries.
  rewrite merge_sort_Permutation.
  eapply Forall_impl; [exact H|]. by intros [k v].
Qed.

Lemma stripMono_Equal t : time.Equal (time.stripMono t) t = true.
Proof.
  unfold time.Equal, time.stripMono. cbn [time.sec time.nsec].
  by rewrite !Z.eqb_refl.
Qed.

(** C3. A message whose ID and whose Metadata keys and values are
    valid UTF-8, and whose Timestamp has an RFC 3339 text (a year of
    four digits, a zone offset of whole minutes), is encoded by
    [json.Marshal], and [json.Unmarshal] of the bytes gives a message
    with the same ID, Body and Metadata, whatever they are (a nil or
    an empty Body or Metadata included), and with the same
    Timestamp less its monotonic clock reading, which is the same
    instant. *)
Theorem valid_utf8_message_round_trips beyond m :
  wire_safe m →
  ∃ data,
    jsonMessage.Marshal m = inr data
    ∧ Unmarshal beyond data
      = inr (mkMessage (ID m) (Body m) (time.stripMono (Timestamp m))
                       (Metadata m))
    ∧ time.Equal (time.stripMono (Timestamp m)) (Timestamp m) = true.
Proof.
  intros (Hid & Hmd & Ht).
  destruct (decode_Marshal m Hid (valid_strings_entries _ Hmd) Ht)
    as (data & Hdata & Hdec).
  exists data. split; [done|]. split; [|apply stripMono_Equal].
  unfold Unmarshal. by rewrite Hdec.
Qed.

Lemma valid_utf8_message_round_trips_witness :
  wire_safe sample_message
  ∧ ∃ data,
      jsonMessage.Marshal sample_message = inr data
      ∧ Unmarshal beyond_rejects data
        = inr (mkMessage "job-1" (Some [x68; x69])
                         (time.stripMono sample_time)
                         (Some {[ "source"%string := "crawler"%string ]}))
      ∧ time.Equal (time.stripMono sample_time) sample_time = true.
Proof.
  assert (H : wire_safe sample_message).
  { split; [reflexivity|]. split.
    - apply map_Forall_to_list. vm_compute. repeat constructor.
    - vm_compute. repeat split; discriminate. }
  split; [exact H|].
  exact (valid_utf8_message_round_trips beyond_rejects sample_message H).
Defined.

(** C3, the claim as worded fails: a message with a Body of two
    bytes and a Metadata value that is not valid UTF-8 is encoded
    without error, and the bytes decode to a message whose Metadata
    holds U+FFFD in place of the value. *)
Lemma invalid_utf8_metadata_not_restored :
  ∃ data m',
    jsonMessage.Marshal garbled_message = inr data
    ∧ (∀ beyond, Unmarshal beyond data = inr m')
    ∧ Body m' = Body garbled_message
    ∧ Body garbled_message = Some [x68; x69]
    ∧ Metadata m' = Some {[ "source"%string := replaced ]}
    ∧ Metadata m' ≠ Metadata garbled_message.
Proof.
  eexists _, _. split; [vm_compute; reflexivity|].
  split; [intros beyond; vm_compute; reflexivity|].
  split; [reflexivity|]. split; [reflexivity|].
  split; [vm_compute; reflexivity|].
  intros H.
  assert (H' := f_equal (λ o, o ≫= (.!! "source"%string)) H).
  vm_compute in H'. discriminate.
Qed.

Lemma step_pubsub beyond s e s' :
  step beyond s e = Some s' → sub_pc s' ≠ Returned →
  sub_pubsub s' = sub_pubsub s.
Proof.
  intros Hstep Hpc. unfold step in Hstep.
  assert (Hd : ∀ r x, sub_pc (deferred r x) = Returned).
  { intros r x. unfold deferred. by destruct (chan_close _). }
  destruct e; destruct (sub_pc s) eqn:E; try discriminate;
    repeat match type of Hstep with
           | (if ?b then _ else _) = _ => destruct b; try discriminate
           | match ?x with _ => _ end = _ => destruct x; try discriminate
           end;
    injection Hstep as <-; try done;
    try (exfalso; apply Hpc; first [apply Hd | unfold on_done; apply Hd]).
  unfold on_message. by destruct (Unmarshal beyond payload).
Qed.

Lemma run_pubsub beyond evs : ∀ s s',
  run beyond s evs = Some s' → sub_pc s' ≠ Returned →
  sub_pubsub s' = sub_pubsub s.
Proof.
  induction evs as [|e evs IH]; intros s s' Hrun Hpc.
  - by injection Hrun as <-.
  - rewrite run_cons in Hrun.
    destruct (step beyond s e) as [s1|] eqn:Hstep; [|discriminate].
    rewrite (IH _ _ Hrun Hpc). apply (step_pubsub _ _ _ _ Hstep).
    intros Hr. apply Hpc. eapply returned_run; eauto.
Qed.

(** C8. When the stop signal is taken while the delivery goroutine
    waits at the hand-off (the inner [select]), the goroutine returns
    and the broker handle is as [Subscribe] created it: still
    subscribed to the topic and not closed. *)
Theorem stop_at_hand_off_keeps_subscription beyond topic evs s m ue ce :
  run beyond (spawn topic (client_Subscribe topic)) evs = Some s →
  sub_pc s = AtHandOff m →
  sub_done s = true →
  ∃ s', step beyond s (Stop ue ce) = Some s'
    ∧ sub_pc s' = Returned
    ∧ ch_closed (sub_msgChan s') = true
    ∧ sub_pubsub s' = client_Subscribe topic
    ∧ ps_closed (sub_pubsub s') = false
    ∧ topic ∈ ps_channels (sub_pubsub s').
Proof.
  intros Hrun Hpc Hdone.
  pose proof (run_inv _ _ _ _ _ (sub_inv_spawn topic _) Hrun)
    as [Ht Hcap Hlen Hcl Hcs Hcr Hf Hd].
  rewrite Hpc in Hcl. simpl in Hcl.
  assert (Hps : sub_pubsub s = client_Subscribe topic).
  { apply (run_pubsub _ _ _ _ Hrun). by rewrite Hpc. }
  exists (deferred None s). split.
  { unfold step. by rewrite Hpc, Hdone. }
  destruct (deferred_running None s Hcl) as (-> & -> & _ & _ & -> & _).
  rewrite Hps. repeat split. simpl. set_solver.
Qed.

Lemma stop_at_hand_off_keeps_subscription_witness :
  let s0 := spawn "jobs" (client_Subscribe "jobs") in
  ∃ s, run beyond_rejects s0 [Deliver empty_object; Cancel] = Some s
    ∧ sub_pc s = AtHandOff zeroMessage
    ∧ sub_done s = true
    ∧ ∃ s', step beyond_rejects s (Stop None None) = Some s'
        ∧ sub_pc s' = Returned
        ∧ ch_closed (sub_msgChan s') = true
        ∧ sub_pubsub s' = client_Subscribe "jobs"
        ∧ ps_closed (sub_pubsub s') = false
        ∧ "jobs"%string ∈ ps_channels (sub_pubsub s').
Proof.
  eexists. split; [vm_compute; reflexivity|].
  split; [reflexivity|]. split; [reflexivity|].
  apply (stop_at_hand_off_keeps_subscription beyond_rejects "jobs"
           [Deliver empty_object; Cancel] _ zeroMessage None None);
    vm_compute; reflexivity.
Defined.

(** ** The theorems at concrete schedules *)

Lemma delivery_task_closes_once_witness :
  let evs := [Deliver empty_object; HandOff; Deliver empty_object;
              Panic "index out of range"] in
  ∃ s, run beyond_rejects (spawn "jobs" (client_Subscribe "jobs")) evs = Some s
    ∧ sub_crashed s = false
    ∧ ch_closed (sub_msgChan s) = true
    ∧ ch_closes (sub_msgChan s) = 1%nat
    ∧ sub_pc s = Returned
    ∧ In (panic_record "jobs" "index out of range") (sub_log s).
Proof.
  intros evs.
  assert (Hrun : ∃ s, run beyond_rejects
                        (spawn "jobs" (client_Subscribe "jobs")) evs = Some s)
    by (eexists; vm_compute; reflexivity).
  destruct Hrun as [s Hrun]. exists s. split; [exact Hrun|].
  destruct (delivery_task_closes_once beyond_rejects _ _ _ _ Hrun)
    as (Hcr & Hcl & Hcs & _ & Hp).
  destruct (Hp "index out of range"%string) as [Hpc Hlog].
  { right. right. right. left. reflexivity. }
  rewrite Hpc in Hcl, Hcs. auto.
Defined.

Lemma malformed_payload_skipped_witness :
  let s := spawn "jobs" (client_Subscribe "jobs") in
  run beyond_rejects s [] = Some s
  ∧ Unmarshal beyond_rejects no_json
    = inl "invalid character or unexpected end of JSON input"%string
  ∧ ∃ s', step beyond_rejects s (Deliver no_json) = Some s'
      ∧ sub_pc s' = AtLoop
      ∧ sub_msgChan s' = sub_msgChan s
      ∧ ∃ s'', run beyond_rejects s' [Deliver empty_object; HandOff] = Some s''
          ∧ sub_pc s'' = AtLoop
          ∧ ch_buf (sub_msgChan s'') = [zeroMessage].
Proof.
  intros s. split; [reflexivity|]. split; [vm_compute; reflexivity|].
  destruct (malformed_payload_skipped beyond_rejects "jobs"
              (client_Subscribe "jobs") [] s no_json
              "invalid character or unexpected end of JSON input")
    as (s' & Hstep & Hpc & Hch & _ & _ & _ & _ & _ & Hnext);
    [reflexivity | reflexivity | vm_compute; reflexivity |].
  exists s'. split; [exact Hstep|]. split; [exact Hpc|]. split; [exact Hch|].
  destruct (Hnext empty_object zeroMessage) as (s'' & Hrun & Hpc' & Hbuf & _);
    [vm_compute; reflexivity | simpl; lia |].
  exists s''. split; [exact Hrun|]. split; [exact Hpc'|]. exact Hbuf.
Defined.

Lemma full_buffer_drops_after_timeout_witness :
  ∃ s0 s,
    (Subscribe "jobs" idle_world).1.1.1 = Some s0
    ∧ run beyond_rejects s0 filling_schedule = Some s
    ∧ sub_pc s = AtHandOff zeroMessage
    ∧ length (ch_buf (sub_msgChan s)) = 100%nat
    ∧ step beyond_rejects s HandOff = None
    ∧ ∃ s', step beyond_rejects s Timeout = Some s'
        ∧ sub_pc s' = AtLoop
        ∧ sub_msgChan s' = sub_msgChan s.
Proof.
  assert (Hrun : ∃ s, run beyond_rejects
                        (spawn "jobs" (client_Subscribe "jobs"))
                        filling_schedule = Some s
                      ∧ sub_pc s = AtHandOff zeroMessage
                      ∧ length (ch_buf (sub_msgChan s)) = 100%nat).
  { eexists. split; [vm_compute; reflexivity|]. split; reflexivity. }
  destruct Hrun as (s & Hrun & Hpc & Hlen).
  exists (spawn "jobs" (client_Subscribe "jobs")), s.
  split; [reflexivity|]. split; [exact Hrun|]. split; [exact Hpc|].
  split; [exact Hlen|].
  destruct (full_buffer_drops_after_timeout beyond_rejects "jobs" idle_world
              _ filling_schedule s zeroMessage eq_refl Hrun Hpc)
    as (_ & _ & _ & Hfull & s' & Hstep & Hpc' & Hch & _).
  split; [exact (Hfull Hlen)|].
  exists s'. split; [exact Hstep|]. split; [exact Hpc'|]. exact Hch.
Defined.

Lemma stop_at_loop_releases_witness :
  let evs := [Deliver empty_object; HandOff; Cancel] in
  ∃ s, run beyond_rejects (spawn "jobs" (client_Subscribe "jobs")) evs = Some s
    ∧ sub_pc s = AtLoop
    ∧ sub_done s = true
    ∧ ∃ s', step beyond_rejects s (Stop None (Some "use of closed network connection"))
            = Some s'
        ∧ sub_pc s' = Returned
        ∧ ps_closed (sub_pubsub s') = true
        ∧ "jobs"%string ∉ ps_channels (sub_pubsub s').
Proof.
  intros evs. eexists. split; [vm_compute; reflexivity|].
  split; [reflexivity|]. split; [reflexivity|].
  apply (stop_at_loop_releases beyond_rejects "jobs" (client_Subscribe "jobs") evs);
    vm_compute; reflexivity.
Defined.

(** * Further properties *)

(** ** The consumer's side of the output channel *)

Lemma drain_buffer beyond s :
  ∃ s', run beyond s (replicate (length (ch_buf (sub_msgChan s))) Receive)
        = Some s'
    ∧ sub_received s' = sub_received s ++ ch_buf (sub_msgChan s)
    ∧ ch_buf (sub_msgChan s') = []
    ∧ ch_closed (sub_msgChan s') = ch_closed (sub_msgChan s)
    ∧ ch_sent (sub_msgChan s') = ch_sent (sub_msgChan s)
    ∧ sub_pc s' = sub_pc s
    ∧ sub_log s' = sub_log s.
Proof.
  remember (ch_buf (sub_msgChan s)) as buf eqn:Hbuf.
  revert s Hbuf. induction buf as [|m buf IH]; intros s Hbuf.
  - exists s. simpl. rewrite <- Hbuf, app_nil_r. done.
  - cbn [length replicate]. rewrite run_cons.
    assert (Hstep : step beyond s Receive
              = Some (mkSubscription (sub_topic s) (sub_pubsub s)
                        (mkChan (ch_cap (sub_msgChan s)) buf
                                (ch_closed (sub_msgChan s))
                                (ch_sent (sub_msgChan s))
                                (ch_closes (sub_msgChan s)))
                        (sub_done s) (sub_pc s) (sub_watching s) (sub_log s)
                        (sub_received s ++ [m]) (sub_crashed s))).
    { unfold step, chan_recv. rewrite <- Hbuf. by destruct (sub_pc s). }
    rewrite Hstep.
    match goal with
    | |- context [run beyond ?X _] => destruct (IH X eq_refl) as (s' & Hrun & H)
    end.
    exists s'. split; [exact Hrun|]. cbn in H.
    destruct H as (-> & -> & -> & -> & -> & ->).
    by rewrite <- app_assoc.
Qed.

(** Whatever the schedule so far, the consumer can receive every
    buffered message: after as many receives as the buffer holds, it
    has received all the messages ever put into the channel, in the
    order they were put; a further receive then reports the channel
    closed if the delivery goroutine has returned, and waits
    otherwise. *)
Theorem consumer_drains_in_order beyond topic ps evs s :
  run beyond (spawn topic ps) evs = Some s →
  ∃ s', run beyond s (replicate (length (ch_buf (sub_msgChan s))) Receive)
        = Some s'
    ∧ sub_received s' = ch_sent (sub_msgChan s)
    ∧ ch_buf (sub_msgChan s') = []
    ∧ sub_pc s' = sub_pc s
    ∧ step beyond s' Receive
      = (if is_returned (sub_pc s) then Some s' else None).
Proof.
  intros Hrun.
  pose proof (run_inv _ _ _ _ _ (sub_inv_spawn topic ps) Hrun)
    as [Ht Hcap Hlen Hcl Hcs Hcr Hf Hd].
  destruct (drain_buffer beyond s) as (s' & Hdrain & Hrec & Hbuf & Hclosed & _ & Hpc & _).
  exists s'. split; [exact Hdrain|]. split; [by rewrite Hrec|].
  split; [exact Hbuf|]. split; [exact Hpc|].
  unfold step, chan_recv. rewrite Hbuf, Hclosed, Hcl.
  by destruct (sub_pc s'), (is_returned (sub_pc s)).
Qed.

Lemma consumer_drains_in_order_witness :
  let evs := [Deliver empty_object; HandOff; Deliver empty_object; HandOff;
              BrokerClosed] in
  ∃ s s',
    run beyond_rejects (spawn "jobs" (client_Subscribe "jobs")) evs = Some s
    ∧ run beyond_rejects s [Receive; Receive] = Some s'
    ∧ sub_received s' = [zeroMessage; zeroMessage]
    ∧ step beyond_rejects s' Receive = Some s'.
Proof.
  intros evs.
  assert (Hrun : ∃ s, run beyond_rejects (spawn "jobs" (client_Subscribe "jobs"))
                          evs = Some s
                      ∧ ch_buf (sub_msgChan s) = [zeroMessage; zeroMessage]
                      ∧ ch_sent (sub_msgChan s) = [zeroMessage; zeroMessage]
                      ∧ sub_pc s = Returned).
  { eexists. split; [vm_compute; reflexivity|]. repeat split; reflexivity. }
  destruct Hrun as (s & Hrun & Hbuf & Hsent & Hpc).
  destruct (consumer_drains_in_order beyond_rejects "jobs" _ evs s Hrun)
    as (s' & Hdrain & Hrec & _ & _ & Hnext).
  rewrite Hbuf in Hdrain. rewrite Hsent in Hrec. rewrite Hpc in Hnext.
  exists s, s'. auto.
Defined.

(** ** The hand-off *)

(** The delivery goroutine never sends on a closed channel: with a
    message in hand, on every schedule, the send either appends the
    message to the buffer, when fewer than 100 are buffered, or cannot
    proceed; it never panics. *)
Theorem hand_off_never_panics beyond topic ps evs s m :
  run beyond (spawn topic ps) evs = Some s →
  sub_pc s = AtHandOff m →
  chan_send (sub_msgChan s) m ≠ Panics "send on closed channel"
  ∧ step beyond s HandOff
    = (if (length (ch_buf (sub_msgChan s)) <? 100)%nat
       then Some (set_pc AtLoop
                    (set_msgChan
                       (mkChan 100 (ch_buf (sub_msgChan s) ++ [m]) false
                               (ch_sent (sub_msgChan s) ++ [m]) 0) s))
       else None).
Proof.
  intros Hrun Hpc.
  pose proof (run_inv _ _ _ _ _ (sub_inv_spawn topic ps) Hrun)
    as [Ht Hcap Hlen Hcl Hcs Hcr Hf Hd].
  rewrite Hpc in Hcl, Hcs. simpl in Hcl, Hcs.
  unfold step, chan_send. rewrite Hpc, Hcl, Hcap, Hcs.
  split; [by destruct (_ <? _)%nat|]. by destruct (_ <? _)%nat.
Qed.

Lemma hand_off_never_panics_witness :
  let evs := [Deliver empty_object; HandOff; Deliver empty_object] in
  ∃ s, run beyond_rejects (spawn "jobs" (client_Subscribe "jobs")) evs = Some s
    ∧ sub_pc s = AtHandOff zeroMessage
    ∧ ∃ s', step beyond_rejects s HandOff = Some s'
        ∧ ch_buf (sub_msgChan s') = [zeroMessage; zeroMessage].
Proof.
  intros evs.
  assert (Hrun : ∃ s, run beyond_rejects (spawn "jobs" (client_Subscribe "jobs"))
                          evs = Some s
                      ∧ sub_pc s = AtHandOff zeroMessage
                      ∧ ch_buf (sub_msgChan s) = [zeroMessage]).
  { eexists. split; [vm_compute; reflexivity|]. split; reflexivity. }
  destruct Hrun as (s & Hrun & Hpc & Hbuf).
  destruct (hand_off_never_panics beyond_rejects "jobs" _ evs s zeroMessage
              Hrun Hpc) as [_ Hstep].
  rewrite Hbuf in Hstep. cbn [length Nat.ltb Nat.leb] in Hstep.
  exists s. split; [exact Hrun|]. split; [exact Hpc|].
  eexists. split; [exact Hstep|]. reflexivity.
Defined.

(** ** What the delivery goroutine logs *)

Lemma filter_received_app l1 l2 :
  filter (λ e, is_received e = true) (l1 ++ l2)
  = filter (λ e, is_received e = true) l1
    ++ filter (λ e, is_received e = true) l2.
Proof. apply filter_app. Qed.

Lemma deferred_received r s :
  sub_topic (deferred r s) = sub_topic s
  ∧ filter (λ e, is_received e = true) (sub_log (deferred r s))
    = filter (λ e, is_received e = true) (sub_log s).
Proof.
  unfold deferred.
  destruct r as [r|]; simpl; destruct (chan_close (sub_msgChan _)); simpl;
    rewrite ?filter_received_app; simpl; rewrite ?app_nil_r; done.
Qed.

Lemma step_received beyond s e s' :
  step beyond s e = Some s' →
  sub_topic s' = sub_topic s
  ∧ filter (λ e, is_received e = true) (sub_log s')
    = filter (λ e, is_received e = true) (sub_log s)
      ++ (received_record (sub_topic s) <$> decoded beyond [e]).
Proof.
  intros Hstep. unfold step in Hstep. unfold decoded.
  destruct e; cbn [omap list_omap fmap list_fmap]; rewrite ?app_nil_r;
    destruct (sub_pc s) eqn:Hpc; try discriminate.
  - destruct (sub_done s); [|discriminate]. injection Hstep as <-.
    unfold on_done.
    match goal with
    | |- context [deferred None ?X] =>
        destruct (deferred_received None X) as [-> ->]
    end.
    destruct unsubscribe_err, close_err; simpl;
      rewrite ?filter_received_app; simpl; rewrite ?app_nil_r; done.
  - destruct (sub_done s); [|discriminate]. injection Hstep as <-.
    apply deferred_received.
  - injection Hstep as <-. unfold on_message.
    destruct (Unmarshal beyond payload) as [err|m]; simpl;
      rewrite filter_received_app; simpl; by rewrite ?app_nil_r.
  - injection Hstep as <-. apply deferred_received.
  - destruct (chan_send (sub_msgChan s) message); try discriminate;
      injection Hstep as <-; [done|apply deferred_received].
  - injection Hstep as <-. simpl. rewrite filter_received_app. simpl.
    by rewrite app_nil_r.
  - injection Hstep as <-. apply deferred_received.
  - injection Hstep as <-. apply deferred_received.
  - destruct (sub_watching s); [|discriminate]. by injection Hstep as <-.
  - destruct (sub_watching s); [|discriminate]. by injection Hstep as <-.
  - destruct (sub_watching s); [|discriminate]. by injection Hstep as <-.
  - destruct (chan_recv (sub_msgChan s)) as [[[m|] c]|]; try discriminate;
      by injection Hstep as <-.
  - destruct (chan_recv (sub_msgChan s)) as [[[m|] c]|]; try discriminate;
      by injection Hstep as <-.
  - destruct (chan_recv (sub_msgChan s)) as [[[m|] c]|]; try discriminate;
      by injection Hstep as <-.
Qed.

Lemma run_received beyond evs : ∀ s s',
  run beyond s evs = Some s' →
  filter (λ e, is_received e = true) (sub_log s')
  = filter (λ e, is_received e = true) (sub_log s)
    ++ (received_record (sub_topic s) <$> decoded beyond evs).
Proof.
  induction evs as [|e evs IH]; intros s s' Hrun.
  - injection Hrun as <-. unfold decoded. simpl. by rewrite app_nil_r.
  - rewrite run_cons in Hrun.
    destruct (step beyond s e) as [s1|] eqn:Hstep; [|discriminate].
    destruct (step_received _ _ _ _ Hstep) as [Ht Hl].
    rewrite (IH _ _ Hrun), Hl, Ht, <- app_assoc, <- fmap_app.
    change (e :: evs) with ([e] ++ evs). by rewrite decoded_app.
Qed.

Lemma sent_sublist_decoded beyond topic ps evs s :
  run beyond (spawn topic ps) evs = Some s →
  ch_sent (sub_msgChan s) `sublist_of` decoded beyond evs.
Proof.
  intros Hrun.
  assert (H0 : relay_inv (spawn topic ps) [] 0) by (split; simpl; done).
  destruct (run_relay _ _ _ _ _ _ H0 Hrun) as [Hsub _].
  simpl in Hsub. etrans; [|exact Hsub]. by apply sublist_inserts_r.
Qed.

(** The delivery goroutine writes every message it decodes to the
    log, with its ID and its Body in clear, when the payload arrives:
    on every schedule the records [Received message from Redis] of
    the log are those of the decoded messages, in the broker's order,
    whether a message is handed over later or dropped. *)
Theorem decoded_messages_are_logged beyond topic ps evs s :
  run beyond (spawn topic ps) evs = Some s →
  filter (λ e, is_received e = true) (sub_log s)
  = received_record topic <$> decoded beyond evs
  ∧ ∀ m, m ∈ ch_sent (sub_msgChan s) →
      received_record topic m ∈ sub_log s.
Proof.
  intros Hrun. pose proof (run_received _ _ _ _ Hrun) as Hlog.
  simpl in Hlog. split; [exact Hlog|].
  intros m Hm.
  pose proof (sent_sublist_decoded beyond topic ps evs s Hrun) as Hsub.
  assert (Hin : received_record topic m
                ∈ filter (λ e, is_received e = true) (sub_log s)).
  { rewrite Hlog. apply list_elem_of_fmap_2.
    eapply elem_of_sublist; [exact Hm|exact Hsub]. }
  by apply list_elem_of_filter in Hin as [_ Hin].
Qed.

Lemma decoded_messages_are_logged_witness :
  let evs := [Deliver empty_object; Timeout; Deliver no_json;
              Deliver empty_object; HandOff] in
  ∃ s, run beyond_rejects (spawn "jobs" (client_Subscribe "jobs")) evs = Some s
    ∧ filter (λ e, is_received e = true) (sub_log s)
      = [received_record "jobs" zeroMessage; received_record "jobs" zeroMessage]
    ∧ ch_sent (sub_msgChan s) = [zeroMessage].
Proof.
  intros evs.
  assert (Hrun : ∃ s, run beyond_rejects (spawn "jobs" (client_Subscribe "jobs"))
                          evs = Some s
                      ∧ ch_sent (sub_msgChan s) = [zeroMessage]).
  { eexists. split; [vm_compute; reflexivity|]. reflexivity. }
  destruct Hrun as (s & Hrun & Hsent).
  destruct (decoded_messages_are_logged beyond_rejects "jobs" _ evs s Hrun)
    as [Hlog _].
  exists s. split; [exact Hrun|]. split; [|exact Hsent].
  rewrite Hlog. vm_compute. reflexivity.
Defined.

(** ** Generated identifiers *)

Lemma ascii_valid n l :
  Forall (λ b, byte_val b < 0x80) l → (length l <= n)%nat →
  utf8.valid_fuel n l = true.
Proof.
  revert l. induction n as [|n IH]; intros l Hl Hn.
  - destruct l; [done|simpl in Hn; lia].
  - destruct l as [|b l]; [done|].
    apply Forall_cons in Hl as [Hb Hl]. cbv beta in Hb.
    cbn [utf8.valid_fuel]. rewrite DecodeRune_ascii by done.
    assert ((byte_val b =? utf8.RuneError) = false) as ->.
    { apply N.eqb_neq. unfold utf8.RuneError. intros E. rewrite E in Hb. done. }
    cbn [andb]. change (drop 1 (b :: l)) with l.
    apply IH; [done|]. simpl in Hn. lia.
Qed.

Lemma hex_nibble n :
  n < 16 → byte_val (json.hex n) < 0x80
  ∧ n = (if byte_val (json.hex n) <? 97
         then byte_val (json.hex n) - 48 else byte_val (json.hex n) - 87).
Proof.
  intros Hn. unfold json.hex.
  destruct (n <? 10) eqn:E.
  - apply N.ltb_lt in E. rewrite byte_val_of, N.mod_small by lia.
    split; [lia|]. destruct (_ <? 97) eqn:E'; [lia|]. apply N.ltb_ge in E'. lia.
  - apply N.ltb_ge in E. rewrite byte_val_of, N.mod_small by lia.
    split; [lia|]. destruct (_ <? 97) eqn:E'; [|lia]. apply N.ltb_lt in E'. lia.
Qed.

Lemma hex_inj n n' : n < 16 → n' < 16 → json.hex n = json.hex n' → n = n'.
Proof.
  intros Hn Hn' H.
  destruct (hex_nibble n Hn) as [_ E], (hex_nibble n' Hn') as [_ E'].
  rewrite E, E'. by rewrite H.
Qed.

Lemma nibbles_bound b :
  N.shiftr (byte_val b) 4 < 16 ∧ N.land (byte_val b) 0x0f < 16
  ∧ byte_val b = N.shiftr (byte_val b) 4 * 16 + N.land (byte_val b) 0x0f.
Proof.
  pose proof (byte_val_bound b). rewrite shiftr_4, land_15. lia.
Qed.

Lemma hexEncode_inj l l' : uuid.hexEncode l = uuid.hexEncode l' → l = l'.
Proof.
  revert l'. induction l as [|b l IH]; intros [|b' l'] H; try done.
  cbn in H. injection H as H1 H2 H.
  destruct (nibbles_bound b) as (Hh & Hl & Hb), (nibbles_bound b') as (Hh' & Hl' & Hb').
  apply hex_inj in H1; [|done..]. apply hex_inj in H2; [|done..].
  f_equal; [|by apply IH]. apply byte_val_inj. congruence.
Qed.

Lemma hexEncode_ascii l : Forall (λ b, byte_val b < 0x80) (uuid.hexEncode l).
Proof.
  induction l as [|b l IH]; [constructor|]. cbn.
  destruct (nibbles_bound b) as (Hh & Hl & _).
  repeat apply Forall_cons_2; [by apply hex_nibble..|done].
Qed.

Lemma fromRandom_length r : length (uuid.fromRandom r) = 16%nat.
Proof.
  unfold uuid.fromRandom. rewrite !length_alter, length_take, length_app.
  rewrite length_replicate. lia.
Qed.

(** The text of a UUID: 36 bytes, all of them ASCII. *)
Lemma uuid_String_text u :
  length u = 16%nat →
  length (list_byte_of_string (uuid.String u)) = 36%nat
  ∧ utf8.ValidString (uuid.String u) = true.
Proof.
  intros Hu. unfold utf8.ValidString, utf8.Valid, uuid.String.
  rewrite list_byte_of_string_of_list_byte. split.
  - rewrite !length_app, !hexEncode_length, !length_take, !length_drop.
    cbn [length]. lia.
  - apply ascii_valid; [|done].
    repeat first [apply Forall_app_2 | apply hexEncode_ascii
                 | apply Forall_cons_2; [done|] | apply Forall_nil_2 ].
Qed.

Lemma uuid_String_inj u u' :
  length u = 16%nat → length u' = 16%nat →
  uuid.String u = uuid.String u' → u = u'.
Proof.
  intros Hu Hu' H. unfold uuid.String in H.
  apply (f_equal list_byte_of_string) in H.
  rewrite !list_byte_of_string_of_list_byte in H.
  apply app_inj_1 in H as [H1 H];
    [|rewrite !hexEncode_length, !length_take; lia].
  injection H as H.
  apply app_inj_1 in H as [H2 H];
    [|rewrite !hexEncode_length, !length_take, !length_drop; lia].
  injection H as H.
  apply app_inj_1 in H as [H3 H];
    [|rewrite !hexEncode_length, !length_take, !length_drop; lia].
  injection H as H.
  apply app_inj_1 in H as [H4 H];
    [|rewrite !hexEncode_length, !length_take, !length_drop; lia].
  injection H as H.
  apply hexEncode_inj in H1, H2, H3, H4, H.
  rewrite <- (take_drop 4 u), <- (take_drop 4 u'), H1. f_equal.
  rewrite <- (take_drop 2 (drop 4 u)), <- (take_drop 2 (drop 4 u')), H2. f_equal.
  rewrite !drop_drop. cbn [Nat.add].
  rewrite <- (take_drop 2 (drop 6 u)), <- (take_drop 2 (drop 6 u')), H3. f_equal.
  rewrite !drop_drop. cbn [Nat.add].
  rewrite <- (take_drop 2 (drop 8 u)), <- (take_drop 2 (drop 8 u')), H4. f_equal.
  rewrite !drop_drop. cbn [Nat.add]. exact H.
Qed.

Lemma backfill_draws message w :
  let w' := (backfill message w).2 in
  w_rand w' = w_rand w ∧ w_clock w' = w_clock w
  ∧ w_draws w' = (if bool_decide (v_ID message = ""%string)
                  then S (w_draws w) else w_draws w)
  ∧ w_ticks w' = (if time.IsZero (v_Timestamp message)
                  then S (w_ticks w) else w_ticks w).
Proof.
  unfold backfill, uuid_New_String, time_Now.
  destruct (bool_decide _), (time.IsZero _) eqn:E; cbn; rewrite ?E; done.
Qed.

Lemma Send_draws topic message w :
  let w' := (Send topic message w).2 in
  w_rand w' = w_rand w
  ∧ w_draws w' = (if bool_decide (v_ID message = ""%string)
                  then S (w_draws w) else w_draws w).
Proof.
  unfold Send.
  pose proof (backfill_draws message
                (slog INFO "Attempt to send message"
                   [("topic", topic); ("messageID", v_ID message)]%string w))
    as (Hr & _ & Hd & _).
  cbv zeta in Hr, Hd.
  destruct (backfill message _) as [m' w1]. cbn [snd] in Hr, Hd.
  destruct (jsonMessage.Marshal _); [done|].
  unfold Publish, request. cbn [fst snd].
  destruct (w_net w1 (w_requests w1)); done.
Qed.

(** When [Send] generates the ID it is the canonical text of the
    UUID drawn: 36 ASCII characters, from which the UUID can be read
    back, so that two generated IDs are equal only if the UUIDs are.
    Two calls of [Send] in a row, each for a message without ID, take
    successive draws of the random source, and the IDs they assign
    differ whenever the two UUIDs drawn differ. *)
Theorem generated_ids_differ topic m1 m2 w :
  v_ID m1 = ""%string → v_ID m2 = ""%string →
  let w' := (Send topic m1 w).2 in
  let u1 := uuid.fromRandom (w_rand w (w_draws w)) in
  let u2 := uuid.fromRandom (w_rand w (S (w_draws w))) in
  v_ID (backfill m1 w).1 = uuid.String u1
  ∧ v_ID (backfill m2 w').1 = uuid.String u2
  ∧ length (list_byte_of_string (uuid.String u1)) = 36%nat
  ∧ utf8.ValidString (uuid.String u1) = true
  ∧ (u1 ≠ u2 → v_ID (backfill m1 w).1 ≠ v_ID (backfill m2 w').1).
Proof.
  intros H1 H2 w' u1 u2.
  destruct (backfill_fields m1 w) as (HI1 & _).
  destruct (backfill_fields m2 w') as (HI2 & _).
  destruct (Send_draws topic m1 w) as [Hr Hd]. fold w' in Hr, Hd.
  rewrite H1 in HI1, Hd. rewrite H2 in HI2.
  rewrite bool_decide_eq_true_2 in HI1, HI2, Hd by done.
  rewrite Hr, Hd in HI2. fold u1 in HI1. fold u2 in HI2.
  destruct (uuid_String_text u1 (fromRandom_length _)) as [Hlen Hvalid].
  repeat split; try done.
  intros Hne. rewrite HI1, HI2. intros Heq. apply Hne.
  apply uuid_String_inj; [apply fromRandom_length..|done].
Qed.

Lemma generated_ids_differ_witness :
  v_ID (backfill blank_value counting_world).1
  = "00000000-0000-4000-8000-000000000000"%string
  ∧ v_ID (backfill blank_value (Send "jobs" blank_value counting_world).2).1
    = "01010101-0101-4101-8101-010101010101"%string
  ∧ v_ID (backfill blank_value counting_world).1
    ≠ v_ID (backfill blank_value (Send "jobs" blank_value counting_world).2).1.
Proof.
  destruct (generated_ids_differ "jobs" blank_value blank_value counting_world
              eq_refl eq_refl) as (H1 & H2 & _ & _ & Hne).
  split; [rewrite H1; vm_compute; reflexivity|].
  split; [rewrite H2; vm_compute; reflexivity|].
  apply Hne. vm_compute. discriminate.
Defined.

(** ** From Send to the consumer *)




(** ** Who releases the handle, and when *)

Lemma deferred_frame r s :
  sub_pubsub (deferred r s) = sub_pubsub s
  ∧ sub_done (deferred r s) = sub_done s
  ∧ sub_watching (deferred r s) = sub_watching s.
Proof.
  unfold deferred. by destruct r, (chan_close (sub_msgChan _)).
Qed.

Lemma step_no_stop beyond s e s' :
  step beyond s e = Some s' → is_stop e = false →
  sub_pubsub s' = sub_pubsub s.
Proof.
  intros Hstep He. unfold step in Hstep.
  destruct e; try discriminate; destruct (sub_pc s); try discriminate;
    repeat match type of Hstep with
           | (if ?b then _ else _) = _ => destruct b; try discriminate
           | match ?x with _ => _ end = _ => destruct x; try discriminate
           end;
    injection Hstep as <-; try done;
    try apply deferred_frame.
  unfold on_message. by destruct (Unmarshal beyond payload).
Qed.

Lemma step_done beyond s e s' :
  step beyond s e = Some s' → sub_done s = false →
  is_stop e = false
  ∧ (is_cancel e = false → sub_done s' = false).
Proof.
  intros Hstep Hd. unfold step in Hstep. rewrite Hd in Hstep.
  destruct e; try discriminate; destruct (sub_pc s); try discriminate;
    (split; [done|]); intros Hc; try discriminate;
    repeat match type of Hstep with
           | (if ?b then _ else _) = _ => destruct b; try discriminate
           | match ?x with _ => _ end = _ => destruct x; try discriminate
           end;
    injection Hstep as <-; try done;
    try (by rewrite (proj1 (proj2 (deferred_frame _ _)))).
  unfold on_message. by destruct (Unmarshal beyond payload).
Qed.

Lemma run_no_stop beyond evs : ∀ s s',
  run beyond s evs = Some s' → forallb (λ e, negb (is_stop e)) evs = true →
  sub_pubsub s' = sub_pubsub s.
Proof.
  induction evs as [|e evs IH]; intros s s' Hrun Hns.
  - by injection Hrun as <-.
  - rewrite run_cons in Hrun.
    destruct (step beyond s e) as [s1|] eqn:Hstep; [|discriminate].
    cbn [forallb] in Hns. apply andb_true_iff in Hns as [He Hns].
    rewrite (IH _ _ Hrun Hns). apply (step_no_stop _ _ _ _ Hstep).
    by destruct (is_stop e).
Qed.

Lemma run_done beyond evs : ∀ s s',
  run beyond s evs = Some s' → sub_done s = false →
  existsb is_cancel evs = false →
  forallb (λ e, negb (is_stop e)) evs = true ∧ sub_done s' = false.
Proof.
  induction evs as [|e evs IH]; intros s s' Hrun Hd Hnc.
  - by injection Hrun as <-.
  - rewrite run_cons in Hrun.
    destruct (step beyond s e) as [s1|] eqn:Hstep; [|discriminate].
    cbn [existsb] in Hnc. apply orb_false_iff in Hnc as [Hc Hnc].
    destruct (step_done _ _ _ _ Hstep Hd) as [Hs Hd1].
    destruct (IH _ _ Hrun (Hd1 Hc) Hnc) as [Hns Hd'].
    split; [|done]. cbn [forallb]. by rewrite Hs, Hns.
Qed.

(** The handle is unsubscribed and closed by nothing but a stop
    branch: on a schedule without a stop event the handle is as
    [Subscribe] created it, subscribed to the topic and open, also
    when the delivery goroutine has returned because the broker's
    channel was closed or because of a panic. And a stop branch is
    taken only after the context was cancelled: on a schedule without
    cancellation there is no stop event, [done] is open and the
    watcher goroutine is still waiting, whatever the delivery
    goroutine has done. *)
Theorem handle_released_only_by_stop beyond topic evs s :
  run beyond (spawn topic (client_Subscribe topic)) evs = Some s →
  (forallb (λ e, negb (is_stop e)) evs = true →
   sub_pubsub s = client_Subscribe topic
   ∧ ps_closed (sub_pubsub s) = false
   ∧ topic ∈ ps_channels (sub_pubsub s))
  ∧ (existsb is_cancel evs = false →
     forallb (λ e, negb (is_stop e)) evs = true
     ∧ sub_done s = false ∧ sub_watching s = true).
Proof.
  intros Hrun. split.
  - intros Hns. rewrite (run_no_stop _ _ _ _ Hrun Hns). simpl.
    repeat split. set_solver.
  - intros Hnc. destruct (run_done _ _ _ _ Hrun eq_refl Hnc) as [Hns Hd].
    pose proof (run_inv _ _ _ _ _ (sub_inv_spawn topic _) Hrun)
      as [_ _ _ _ _ _ _ Hdw].
    rewrite Hd in Hdw. repeat split; try done. by destruct (sub_watching s).
Qed.

Lemma handle_released_only_by_stop_witness :
  let evs := [Deliver empty_object; HandOff; Panic "nil map"] in
  ∃ s, run beyond_rejects (spawn "jobs" (client_Subscribe "jobs")) evs = Some s
    ∧ sub_pc s = Returned
    ∧ ps_closed (sub_pubsub s) = false
    ∧ "jobs"%string ∈ ps_channels (sub_pubsub s)
    ∧ sub_watching s = true.
Proof.
  intros evs.
  assert (Hrun : ∃ s, run beyond_rejects (spawn "jobs" (client_Subscribe "jobs"))
                          evs = Some s ∧ sub_pc s = Returned).
  { eexists. split; [vm_compute; reflexivity|]. reflexivity. }
  destruct Hrun as (s & Hrun & Hpc).
  destruct (handle_released_only_by_stop beyond_rejects "jobs" evs s Hrun)
    as [H1 H2].
  destruct (H1 eq_refl) as (_ & Hcl & Hin).
  destruct (H2 eq_refl) as (_ & _ & Hw).
  exists s. auto.
Defined.

(** ** Unsubscribe and Ack *)

Lemma backfill_with_log l message w :
  backfill message (with_log l w)
  = ((backfill message w).1, with_log l (backfill message w).2).
Proof.
  unfold backfill, uuid_New_String, time_Now, with_log.
  destruct (bool_decide _), (time.IsZero _) eqn:E; cbn; rewrite ?E; done.
Qed.

Lemma Send_with_log l topic message w :
  (Send topic message (with_log l w)).1 = (Send topic message w).1
  ∧ w_published (Send topic message (with_log l w)).2
    = w_published (Send topic message w).2
  ∧ w_requests (Send topic message (with_log l w)).2
    = w_requests (Send topic message w).2.
Proof.
  destruct (Send_unfold topic message w) as (HR & HP & HQ & _).
  destruct (Send_unfold topic message (with_log l w)) as (HR' & HP' & HQ' & _).
  cbv zeta in *. rewrite HR, HR', HP, HP', HQ, HQ'.
  rewrite backfill_with_log. cbn [fst]. done.
Qed.

Lemma Subscribe_with_log l topic w :
  (Subscribe topic (with_log l w)).1 = (Subscribe topic w).1
  ∧ w_requests (Subscribe topic (with_log l w)).2
    = w_requests (Subscribe topic w).2.
Proof.
  unfold Subscribe, request, with_log, slog. cbn.
  by destruct (w_net w (w_requests w)).
Qed.

(** [Unsubscribe] and [Ack] of the queue return nil and do nothing
    but log: they put no request to the broker, for any topic and
    message ID, subscribed or sent or not; and a [Send] or a
    [Subscribe] after them returns what it returns without them,
    publishes the same payload and puts the same requests. *)
Theorem unsubscribe_and_ack_only_log topic messageID w :
  let u := Unsubscribe topic w in
  let a := Ack topic messageID w in
  u.1 = None ∧ a.1 = None
  ∧ u.2 = with_log (w_log u.2) w ∧ a.2 = with_log (w_log a.2) w
  ∧ length (w_log u.2) = S (length (w_log w))
  ∧ length (w_log a.2) = S (S (length (w_log w)))
  ∧ ∀ w', w' = u.2 ∨ w' = a.2 →
      w_requests w' = w_requests w
      ∧ w_published w' = w_published w
      ∧ (∀ t m, (Send t m w').1 = (Send t m w).1
                ∧ w_published (Send t m w').2 = w_published (Send t m w).2
                ∧ w_requests (Send t m w').2 = w_requests (Send t m w).2)
      ∧ (∀ t, (Subscribe t w').1 = (Subscribe t w).1
              ∧ w_requests (Subscribe t w').2 = w_requests (Subscribe t w).2).
Proof.
  cbv zeta. repeat split; try done.
  - unfold Unsubscribe, slog. cbn. rewrite length_app. simpl. lia.
  - unfold Ack, slog. cbn. rewrite !length_app. simpl. lia.
  - by destruct H as [-> | ->].
  - by destruct H as [-> | ->].
  - destruct H as [-> | ->];
      [change (Unsubscribe topic w).2 with (with_log (w_log (Unsubscribe topic w).2) w)
      |change (Ack topic messageID w).2 with (with_log (w_log (Ack topic messageID w).2) w)];
      apply Send_with_log.
  - destruct H as [-> | ->];
      [change (Unsubscribe topic w).2 with (with_log (w_log (Unsubscribe topic w).2) w)
      |change (Ack topic messageID w).2 with (with_log (w_log (Ack topic messageID w).2) w)];
      apply Send_with_log.
  - destruct H as [-> | ->];
      [change (Unsubscribe topic w).2 with (with_log (w_log (Unsubscribe topic w).2) w)
      |change (Ack topic messageID w).2 with (with_log (w_log (Ack topic messageID w).2) w)];
      apply Send_with_log.
  - destruct H as [-> | ->];
      [change (Unsubscribe topic w).2 with (with_log (w_log (Unsubscribe topic w).2) w)
      |change (Ack topic messageID w).2 with (with_log (w_log (Ack topic messageID w).2) w)];
      apply Subscribe_with_log.
  - destruct H as [-> | ->];
      [change (Unsubscribe topic w).2 with (with_log (w_log (Unsubscribe topic w).2) w)
      |change (Ack topic messageID w).2 with (with_log (w_log (Ack topic messageID w).2) w)];
      apply Subscribe_with_log.
Qed.

(** ** What Send writes: the payload and the log *)

(** The payload that [Send] publishes for a message whose timestamp
    after backfilling has an RFC 3339 text is one JSON object without
    white space, with the members ID, Body, Timestamp and Metadata in
    this order: the ID as a JSON string, the Body as the string of
    its base64 text or [null] when it is nil, the Timestamp as the
    string of its RFC 3339 text, the Metadata as an object of strings
    with its keys in sorted order or [null] when it is nil. *)
Theorem published_payload_shape topic message w :
  let m' := load (w_heap w) (backfill message w).1 in
  time.encodable (Timestamp m') →
  w_net w (w_requests w) = None →
  w_published (Send topic message w).2
  = w_published w
    ++ [(topic,
         [x7b]
         ++ jsonMessage.join_members
              [ member_text (esc "ID") (x22 :: esc (ID m') ++ [x22]);
                member_text (esc "Body") (body_json (Body m')).2;
                member_text (esc "Timestamp")
                  (x22 :: time.appendFormatRFC3339 (Timestamp m') ++ [x22]);
                member_text (esc "Metadata") (metadata_json (Metadata m')).2 ]
         ++ [x7d])].
Proof.
  intros m' Ht Hnet.
  destruct (Send_unfold topic message w) as (_ & HP & _).
  cbv zeta in HP. fold m' in HP.
  rewrite (Marshal_shape m' Ht), Hnet in HP. exact HP.
Qed.

Lemma published_payload_shape_witness :
  w_published (Send "jobs" blank_value counting_world).2
  = [("jobs"%string,
      [x7b]
      ++ jsonMessage.join_members
           [ member_text (esc "ID")
               (x22 :: esc "00000000-0000-4000-8000-000000000000" ++ [x22]);
             member_text (esc "Body") [x6e; x75; x6c; x6c];
             member_text (esc "Timestamp")
               (x22 :: jsonMessage.bytes_of "2024-05-17T10:30:00.25+02:00"
                    ++ [x22]);
             member_text (esc "Metadata") [x6e; x75; x6c; x6c] ]
      ++ [x7d])].
Proof.
  rewrite (published_payload_shape "jobs" blank_value counting_world).
  - vm_compute. reflexivity.
  - vm_compute. repeat split; discriminate.
  - reflexivity.
Defined.

(** [Send] logs the attempt with the ID the caller passed, before
    any ID is generated: for a message without ID the attempt record
    carries an empty ID. It logs the success, with the ID the message
    was published under, exactly when it returns nil; a failed [Send]
    leaves the attempt record alone. *)
Theorem send_log_records topic message w :
  let r := Send topic message w in
  w_log r.2
  = w_log w ++ attempt_record topic (v_ID message)
      :: match r.1 with
         | None => [success_record topic (v_ID (backfill message w).1)]
         | Some _ => []
         end.
Proof.
  cbv zeta. unfold Send.
  set (w0 := slog INFO "Attempt to send message"
               [("topic", topic); ("messageID", v_ID message)]%string w).
  assert (Hm : (backfill message w0).1 = (backfill message w).1).
  { unfold backfill, uuid_New_String, time_Now.
    destruct (bool_decide _), (time.IsZero _); reflexivity. }
  pose proof (backfill_frame message w0) as (Hh & Hl & Hn & Hq & Hp).
  cbv zeta in Hh, Hl, Hn, Hq, Hp.
  destruct (backfill message w0) as [m1 w1]. cbn [fst snd] in *. subst m1.
  destruct (jsonMessage.Marshal _) as [err|data]; cbn [fst snd].
  { by rewrite Hl. }
  unfold Publish, request. cbn [fst snd].
  destruct (w_net w1 (w_requests w1)) as [e|]; cbn [fst snd w_log].
  { by rewrite Hl. }
  rewrite Hl. unfold w0, slog. cbn [w_log]. by rewrite <- app_assoc.
Qed.

(** ** parseValue *)

Lemma at_app_r (s t : list byte) i :
  (length s <= i)%nat → strings.at_ (s ++ t) i = strings.at_ t (i - length s).
Proof. intros. unfold strings.at_. by rewrite lookup_app_r. Qed.

Lemma at_app_l (s t : list byte) i :
  (i < length s)%nat → strings.at_ (s ++ t) i = strings.at_ s i.
Proof. intros. unfold strings.at_. by rewrite lookup_app_l. Qed.

Lemma at_last (s : list byte) c : strings.at_ (s ++ [c]) (length s) = c.
Proof. unfold strings.at_. by rewrite list_lookup_middle. Qed.

Lemma solid_not_space c : solid c → unicode.IsSpace (byte_val c) = false.
Proof.
  intros [Hc Hs]. unfold unicode.IsSpace, unicode.MaxLatin1.
  unfold utf8.RuneSelf in Hc.
  destruct (_ <=? 255) eqn:E; [|apply N.leb_gt in E; lia].
  unfold strings.asciiSpace in Hs. cbv zeta in Hs.
  repeat (apply orb_false_iff in Hs as [Hs ?]).
  repeat (apply orb_false_iff; split); try done.
  all: apply N.eqb_neq; lia.
Qed.

Lemma TrimSpace_start_token lead c t :
  Forall (λ b, strings.asciiSpace b = true) lead → solid c →
  strings.TrimSpace_start (lead ++ c :: t) = inl (c :: t).
Proof.
  intros Hl [Hc Hs]. induction Hl as [|b lead Hb Hl IH].
  - cbn. apply N.leb_gt in Hc. by rewrite Hc, Hs.
  - cbn [app strings.TrimSpace_start]. rewrite Hb, IH.
    assert (byte_val b < utf8.RuneSelf) as ->%N.leb_gt; [|done].
    unfold strings.asciiSpace in Hb. cbv zeta in Hb. unfold utf8.RuneSelf.
    repeat (apply orb_true_iff in Hb as [Hb|Hb]); apply N.eqb_eq in Hb; lia.
Qed.

(** A rune of more than one byte has no ASCII byte in it. *)
Lemma DecodeRune_wide p r size :
  utf8.DecodeRune p = (r, size) → (1 < size)%nat →
  (size <= length p)%nat
  ∧ Forall (λ b, utf8.RuneSelf <= byte_val b) (take size p).
Proof.
  intros Hd Hs. pose proof (DecodeRune_cases p) as Hc. rewrite Hd in Hc.
  unfold utf8.RuneSelf.
  inversion Hc; subst; try lia; cbn [take length];
    (split; [lia|]); repeat apply Forall_cons_2; try apply Forall_nil_2; lia.
Qed.

Lemma DecodeRune_size p r size :
  utf8.DecodeRune p = (r, size) → p ≠ [] → (1 <= size <= length p)%nat.
Proof.
  intros Hd Hp. pose proof (DecodeRune_cases p) as Hc. rewrite Hd in Hc.
  inversion Hc; subst; try done; cbn [length]; lia.
Qed.

Lemma rune_start_back_le n s start lim :
  (strings.rune_start_back n s start lim <= start)%Z.
Proof.
  revert start. induction n as [|n IH]; intros start; cbn; [lia|].
  destruct (_ <? _)%Z; [lia|]. destruct (strings.RuneStart _); [lia|].
  specialize (IH (start - 1)%Z). lia.
Qed.

(** The last rune of a string: one byte, or the rune that
    [DecodeRune] finds at its start. *)
Lemma DecodeLastRune_cases s r size :
  s ≠ [] → strings.DecodeLastRune s = (r, size) →
  (size = 1%nat ∧ (byte_val (strings.at_ s (length s - 1)) < utf8.RuneSelf →
                   r = byte_val (strings.at_ s (length s - 1))))
  ∨ ((1 < size <= length s)%nat
     ∧ utf8.DecodeRune (drop (length s - size) s) = (r, size)).
Proof.
  intros Hs H. unfold strings.DecodeLastRune in H.
  assert (Hlen : (0 < length s)%nat) by (destruct s; [done|simpl; lia]).
  destruct (_ =? 0)%Z eqn:E0; [apply Z.eqb_eq in E0; lia|]. clear E0.
  cbv zeta in H.
  replace (Z.to_nat (Z.of_nat (length s) - 1)) with (length s - 1)%nat in H by lia.
  destruct (_ <? utf8.RuneSelf) eqn:E1.
  { injection H as <- <-. left. done. }
  apply N.ltb_ge in E1.
  match type of H with
  | context [strings.rune_start_back ?n ?s ?a ?b] =>
      pose proof (rune_start_back_le n s a b) as Hle;
      remember (strings.rune_start_back n s a b) as start0 eqn:Hs0
  end.
  clear Hs0.
  remember (if (start0 <? 0)%Z then 0%Z else start0) as start eqn:Hst.
  assert (Hstart : (0 <= start <= Z.of_nat (length s) - 1)%Z).
  { subst start. destruct (start0 <? 0)%Z eqn:E; [lia|].
    apply Z.ltb_ge in E. lia. }
  destruct (utf8.DecodeRune (drop (Z.to_nat start) s)) as [r' size'] eqn:Hd.
  destruct (_ =? _)%Z eqn:E2.
  - injection H as <- <-. apply Z.eqb_eq in E2.
    assert (Hne : drop (Z.to_nat start) s ≠ []).
    { intros Hnil. apply (f_equal length) in Hnil.
      rewrite length_drop in Hnil. simpl in Hnil. lia. }
    pose proof (DecodeRune_size _ _ _ Hd Hne) as Hsz.
    destruct (decide (size' = 1%nat)) as [->|Hne1].
    + left. split; [done|]. intros Hlt. lia.
    + right. split; [lia|].
      replace (length s - size')%nat with (Z.to_nat start) by lia. done.
  - injection H as <- <-. left. split; [done|]. intros Hlt. lia.
Qed.

(** Before a string that ends in a solid character, the last rune of
    what follows it lies within what follows. *)
Lemma DecodeLastRune_after pre c q r size :
  solid c → q ≠ [] →
  strings.DecodeLastRune ((pre ++ [c]) ++ q) = (r, size) →
  (1 <= size <= length q)%nat.
Proof.
  intros [Hc _] Hq H.
  assert (Hq' : (0 < length q)%nat) by (destruct q; [done|simpl; lia]).
  apply DecodeLastRune_cases in H as [[-> _]|[Hsz Hd]]; [lia| |].
  2:{ by destruct pre. }
  split; [lia|].
  destruct (decide (size <= length q)%nat) as [|Hbig]; [done|]. exfalso.
  apply DecodeRune_wide in Hd as [_ Hall]; [|lia].
  rewrite !length_app in Hsz, Hall. cbn [length] in Hsz, Hall.
  rewrite Forall_lookup in Hall.
  specialize (Hall (length pre - (length pre + 1 + length q - size))%nat c).
  unfold utf8.RuneSelf in *.
  assert (byte_val c >= 128); [|lia]. apply N.le_ge, Hall.
  rewrite lookup_take_lt by lia. rewrite lookup_drop.
  rewrite <- app_assoc. rewrite lookup_app_r by lia.
  replace (_ + _ - length pre)%nat with 0%nat by lia. done.
Qed.

Lemma DecodeLastRune_solid pre c :
  solid c → strings.DecodeLastRune (pre ++ [c]) = (byte_val c, 1%nat).
Proof.
  intros [Hc _]. unfold strings.DecodeLastRune.
  rewrite length_app. cbn [length].
  destruct (_ =? 0)%Z eqn:E; [apply Z.eqb_eq in E; lia|]. cbv zeta.
  replace (Z.to_nat _) with (length pre) by lia.
  rewrite at_last. apply N.ltb_lt in Hc. by rewrite Hc.
Qed.

Lemma lastIndexFunc_after pre c tail fuel i :
  solid c →
  (length pre + 1 <= i <= length pre + 1 + length tail)%nat →
  (i - length pre <= fuel)%nat →
  ∃ j, strings.lastIndexFunc_from fuel ((pre ++ [c]) ++ tail) i
         unicode.IsSpace false = Some j
    ∧ (length pre <= j < i)%nat.
Proof.
  intros Hc. revert i. induction fuel as [|fuel IH]; intros i Hi Hf; [lia|].
  cbn [strings.lastIndexFunc_from].
  destruct (0 <? i)%nat eqn:E; [|apply Nat.ltb_ge in E; lia]. clear E.
  destruct (decide (i = length pre + 1)%nat) as [->|Hne].
  - rewrite take_app_length' by (rewrite length_app; simpl; lia).
    rewrite DecodeLastRune_solid by done.
    rewrite (solid_not_space c Hc). cbn [Bool.eqb].
    eexists. split; [done|]. lia.
  - assert (Htake : take i ((pre ++ [c]) ++ tail)
                    = (pre ++ [c]) ++ take (i - (length pre + 1)) tail).
    { rewrite take_app_ge by (rewrite length_app; simpl; lia).
      by rewrite length_app. }
    rewrite Htake.
    destruct (strings.DecodeLastRune _) as [r size] eqn:Hd.
    apply DecodeLastRune_after in Hd; [|done|].
    2:{ intros Hnil. apply (f_equal length) in Hnil.
        rewrite length_take in Hnil. simpl in Hnil. lia. }
    rewrite length_take in Hd.
    destruct (Bool.eqb _ _).
    + eexists. split; [done|]. lia.
    + destruct (IH (i - size)%nat) as (j & Hj & Hjb); [lia|lia|].
      exists j. split; [done|]. lia.
Qed.

(** Trimming on the right stops at a solid character. *)
Lemma TrimRightFunc_after pre c tail :
  solid c →
  ∃ k, strings.TrimRightFunc ((pre ++ [c]) ++ tail) unicode.IsSpace
       = (pre ++ [c]) ++ take k tail.
Proof.
  intros Hc. unfold strings.TrimRightFunc, strings.lastIndexFunc.
  destruct (lastIndexFunc_after pre c tail
              (S (length ((pre ++ [c]) ++ tail)))
              (length ((pre ++ [c]) ++ tail)) Hc) as (j & -> & Hj).
  { rewrite !length_app. simpl. lia. }
  { rewrite !length_app. simpl. lia. }
  rewrite !length_app in Hj. cbn [length] in Hj.
  assert (Hcut : ∀ n, (length pre + 1 <= n)%nat →
            take n ((pre ++ [c]) ++ tail)
            = (pre ++ [c]) ++ take (n - (length pre + 1)) tail).
  { intros n Hn. rewrite take_app_ge by (rewrite length_app; simpl; lia).
    by rewrite length_app. }
  destruct (decide (j = length pre)) as [->|Hne].
  - rewrite at_app_l by (rewrite length_app; simpl; lia).
    rewrite at_last. destruct Hc as [Hc _]. apply N.leb_gt in Hc. rewrite Hc.
    exists 0%nat. rewrite Hcut by lia. do 2 f_equal. lia.
  - destruct (_ <=? _).
    + destruct (utf8.DecodeRune _) as [r wid] eqn:Hd.
      apply DecodeRune_size in Hd.
      2:{ intros Hnil. apply (f_equal length) in Hnil.
          rewrite length_drop, !length_app in Hnil. simpl in Hnil. lia. }
      eexists. by rewrite Hcut by lia.
    + eexists. by rewrite Hcut by lia.
Qed.

Lemma TrimSpace_stop_after pre c tail stop :
  solid c →
  (length pre + 1 <= stop <= length pre + 1 + length tail)%nat →
  ∃ k, strings.TrimSpace_stop ((pre ++ [c]) ++ tail) stop
       = (pre ++ [c]) ++ take k tail.
Proof.
  intros Hc. induction stop as [|stop IH]; intros Hs; [lia|].
  cbn [strings.TrimSpace_stop].
  assert (Hcut : ∀ n, (length pre + 1 <= n)%nat →
            take n ((pre ++ [c]) ++ tail)
            = (pre ++ [c]) ++ take (n - (length pre + 1)) tail).
  { intros n Hn. rewrite take_app_ge by (rewrite length_app; simpl; lia).
    by rewrite length_app. }
  destruct (decide (stop = length pre)) as [->|Hne].
  - rewrite at_app_l by (rewrite length_app; simpl; lia).
    rewrite at_last. pose proof Hc as [Hc1 Hc2].
    apply N.leb_gt in Hc1. rewrite Hc1, Hc2.
    exists 0%nat. rewrite Hcut by lia. do 2 f_equal. lia.
  - destruct (_ <=? _).
    + rewrite Hcut by lia.
      destruct (TrimRightFunc_after pre c
                  (take (S stop - (length pre + 1)) tail) Hc) as [k ->].
      eexists. by rewrite take_take.
    + destruct (strings.asciiSpace _).
      * apply IH. lia.
      * eexists. by rewrite Hcut by lia.
Qed.

(** [TrimSpace] on white space, a token and anything after it: the
    token stays, followed by some of what came after. *)
Lemma TrimSpace_token lead tok tail :
  Forall (λ b, strings.asciiSpace b = true) lead → token tok →
  ∃ k, strings.TrimSpace (lead ++ tok ++ tail) = tok ++ take k tail.
Proof.
  intros Hl (_ & (c & t & Hhead & Hc) & (pre & c' & Hlast & Hc')).
  unfold strings.TrimSpace.
  assert (Hstart : strings.TrimSpace_start (lead ++ tok ++ tail)
                   = inl (tok ++ tail)).
  { rewrite Hhead. cbn [app]. by apply TrimSpace_start_token. }
  rewrite Hstart, Hlast.
  apply TrimSpace_stop_after; [done|].
  rewrite !length_app. simpl. lia.
Qed.

Lemma asciiSpace_ascii b : strings.asciiSpace b = true → byte_val b < utf8.RuneSelf.
Proof.
  unfold strings.asciiSpace, utf8.RuneSelf. cbv zeta. intros Hb.
  repeat (apply orb_true_iff in Hb as [Hb|Hb]); apply N.eqb_eq in Hb; lia.
Qed.

Lemma TrimSpace_stop_spaces pre c trail stop :
  solid c → Forall (λ b, strings.asciiSpace b = true) trail →
  (length pre + 1 <= stop <= length pre + 1 + length trail)%nat →
  strings.TrimSpace_stop ((pre ++ [c]) ++ trail) stop = pre ++ [c].
Proof.
  intros Hc Ht. induction stop as [|stop IH]; intros Hs; [lia|].
  cbn [strings.TrimSpace_stop].
  destruct (decide (stop = length pre)) as [->|Hne].
  - rewrite at_app_l by (rewrite length_app; simpl; lia).
    rewrite at_last. pose proof Hc as [Hc1 Hc2].
    apply N.leb_gt in Hc1. rewrite Hc1, Hc2.
    rewrite take_app_length' by (rewrite length_app; simpl; lia). done.
  - rewrite at_app_r by (rewrite length_app; simpl; lia).
    rewrite length_app. cbn [length].
    destruct (trail !! (stop - (length pre + 1))%nat) as [b|] eqn:Hb.
    2:{ apply lookup_ge_None in Hb. lia. }
    unfold strings.at_. rewrite Hb. cbn [default from_option id].
    rewrite Forall_lookup in Ht. specialize (Ht _ _ Hb). cbv beta in Ht.
    pose proof (asciiSpace_ascii b Ht) as Hlt. apply N.leb_gt in Hlt.
    rewrite Hlt, Ht. apply IH. lia.
Qed.

Lemma Index_absent tok : x20 ∉ tok → strings.Index tok [x20] = None.
Proof.
  induction tok as [|b tok IH]; intros Hn; [done|].
  cbn [strings.Index length take].
  apply not_elem_of_cons in Hn as [Hb Hn].
  rewrite bool_decide_eq_false_2 by (rewrite take_0; congruence).
  by rewrite IH.
Qed.

Lemma Index_token tok rest :
  x20 ∉ tok → strings.Index (tok ++ x20 :: rest) [x20] = Some (length tok).
Proof.
  induction tok as [|b tok IH]; intros Hn.
  - cbn. by rewrite take_0.
  - apply not_elem_of_cons in Hn as [Hb Hn].
    cbn [app strings.Index length take].
    rewrite bool_decide_eq_false_2 by (rewrite take_0; congruence).
    by rewrite IH.
Qed.

Lemma first_field tok rest :
  x20 ∉ tok →
  strings.Contains (tok ++ x20 :: rest) [x20] = true
  ∧ strings.Split (tok ++ x20 :: rest) [x20] !! 0%nat = Some tok.
Proof.
  intros Hn. unfold strings.Contains, strings.Split.
  rewrite length_app. cbn [length]. rewrite Nat.add_succ_r.
  cbn [strings.Split_fuel]. rewrite Index_token by done.
  split; [by apply bool_decide_eq_true_2|].
  cbn [lookup list_lookup]. by rewrite take_app_length.
Qed.

(** [parseValue] hands [strconv.ParseFloat] the first field of the
    value: for a token (no space in it, an ASCII character that is no
    white space at either end) after any ASCII white space, what
    follows a space after the token is ignored, whatever it is, and so
    is ASCII white space after the token. Only the space U+0020
    separates: a token may hold a tab, and then goes to
    [ParseFloat] with it. *)
Theorem parseValue_first_field {float64 : Type}
    (ParseFloat : list byte → string + float64) lead tok rest trail :
  Forall (λ b, strings.asciiSpace b = true) lead →
  token tok →
  Forall (λ b, strings.asciiSpace b = true) trail →
  parseValue ParseFloat (lead ++ tok ++ x20 :: rest) = ParseFloat tok
  ∧ parseValue ParseFloat (lead ++ tok ++ trail) = ParseFloat tok.
Proof.
  intros Hl Htok Ht. pose proof Htok as (Hn & Hhead & (pre & c & Hlast & Hc)).
  unfold parseValue. split.
  - destruct (TrimSpace_token lead tok (x20 :: rest) Hl Htok) as [k ->].
    destruct k as [|k].
    + rewrite take_0, app_nil_r. unfold strings.Contains.
      rewrite Index_absent by done.
      rewrite bool_decide_eq_false_2; [done|]. by intros [? ?].
    + cbn [take]. destruct (first_field tok (take k rest) Hn) as [-> ->]. done.
  - assert (strings.TrimSpace (lead ++ tok ++ trail) = tok) as ->.
    { unfold strings.TrimSpace.
      destruct Hhead as (c0 & t & Hhead & Hc0).
      assert (Hstart : strings.TrimSpace_start (lead ++ tok ++ trail)
                       = inl (tok ++ trail)).
      { rewrite Hhead. cbn [app]. by apply TrimSpace_start_token. }
      rewrite Hstart, Hlast. apply TrimSpace_stop_spaces; [done..|].
      rewrite !length_app. simpl. lia. }
    unfold strings.Contains. rewrite Index_absent by done.
    rewrite bool_decide_eq_false_2; [done|]. by intros [? ?].
Qed.

(** ** Known answers of the string functions *)

Example TrimSpace_ascii :
  strings.TrimSpace (jsonMessage.bytes_of "  0.25 % ")
  = jsonMessage.bytes_of "0.25 %".
Proof. vm_compute. reflexivity. Qed.

Example TrimSpace_no_break_space :
  strings.TrimSpace ([xc2; xa0] ++ jsonMessage.bytes_of "1.5" ++ [xe2; x80; x83; x0a])
  = jsonMessage.bytes_of "1.5".
Proof. vm_compute. reflexivity. Qed.

Example TrimSpace_invalid_tail :
  strings.TrimSpace (jsonMessage.bytes_of " 1.5" ++ [xa0; x20])
  = jsonMessage.bytes_of "1.5" ++ [xa0].
Proof. vm_compute. reflexivity. Qed.

Example TrimSpace_blank : strings.TrimSpace [x20; x09; x0a] = [].
Proof. vm_compute. reflexivity. Qed.

Example DecodeLastRune_euro :
  strings.DecodeLastRune [x41; xe2; x82; xac] = (0x20AC, 3%nat).
Proof. vm_compute. reflexivity. Qed.

Example DecodeLastRune_truncated :
  strings.DecodeLastRune [x41; xe2; x82] = (utf8.RuneError, 1%nat).
Proof. vm_compute. reflexivity. Qed.

Example Split_fields :
  strings.Split (jsonMessage.bytes_of "a b  c") [x20]
  = [[x61]; [x62]; []; [x63]].
Proof. vm_compute. reflexivity. Qed.

Lemma parseValue_first_field_witness :
  let echo := λ s : list byte, @inr string (list byte) s in
  parseValue echo (jsonMessage.bytes_of "  0.25 % p.a.") = inr (jsonMessage.bytes_of "0.25")
  ∧ parseValue echo ([x09] ++ jsonMessage.bytes_of "-0.75" ++ [x0d; x0a])
    = inr (jsonMessage.bytes_of "-0.75").
Proof.
  intros echo.
  assert (Hl : Forall (λ b, strings.asciiSpace b = true) [x20; x20])
    by (repeat constructor).
  assert (Hl' : Forall (λ b, strings.asciiSpace b = true) [x09])
    by (repeat constructor).
  assert (Ht : Forall (λ b, strings.asciiSpace b = true) [x0d; x0a])
    by (repeat constructor).
  assert (Hn : Forall (λ b, strings.asciiSpace b = true) (@nil byte))
    by constructor.
  assert (Htok : token (jsonMessage.bytes_of "0.25")).
  { split; [apply (bool_decide_unpack _); vm_compute; exact I|]. split.
    - eexists _, _. split; [reflexivity|]. split; [vm_compute|]; reflexivity.
    - exists (jsonMessage.bytes_of "0.2"), x35.
      split; [reflexivity|]. split; [vm_compute|]; reflexivity. }
  assert (Htok' : token (jsonMessage.bytes_of "-0.75")).
  { split; [apply (bool_decide_unpack _); vm_compute; exact I|]. split.
    - eexists _, _. split; [reflexivity|]. split; [vm_compute|]; reflexivity.
    - exists (jsonMessage.bytes_of "-0.7"), x35.
      split; [reflexivity|]. split; [vm_compute|]; reflexivity. }
  split.
  - exact (proj1 (parseValue_first_field echo [x20; x20]
                    (jsonMessage.bytes_of "0.25")
                    (jsonMessage.bytes_of "% p.a.") [] Hl Htok Hn)).
  - exact (proj2 (parseValue_first_field echo [x09]
                    (jsonMessage.bytes_of "-0.75") [] [x0d; x0a] Hl' Htok' Ht)).
Defined.

(** ** Scrape *)

Section ScrapeFacts.

Context {float64 : Type}.
Variable ParseFloat : list byte → string + float64.
Variable time_Parse : string → string → string + time.Time.
Variable xml_Unmarshal : list byte → string + list RSSItem.item.

Lemma rate_of_mono clock lo hi lo' hi' item (rate : SNBInterestRate.rate float64) :
  (lo' <= lo)%nat → (hi <= hi')%nat →
  rate_of ParseFloat time_Parse clock lo hi item rate →
  rate_of ParseFloat time_Parse clock lo' hi' item rate.
Proof.
  intros Hlo Hhi (H1 & H2 & H3 & H4 & H5). repeat split; try done.
  destruct (parseDate _ _); [|done]. destruct (time_Parse _ _); [|done].
  destruct H5 as (n & Hn & H5). exists n. split; [lia|done].
Qed.

Lemma scrape_item_spec item rates w :
  let r := scrape_item ParseFloat time_Parse item rates w in
  with_ticks (w_ticks r.2) w = r.2
  ∧ (w_ticks w <= w_ticks r.2 <= S (w_ticks w))%nat
  ∧ if gives_rate ParseFloat item
    then ∃ rate, r.1 = rates ++ [rate]
           ∧ rate_of ParseFloat time_Parse (w_clock w) (w_ticks w)
                     (w_ticks r.2) item rate
    else r = (rates, w).
Proof.
  unfold scrape_item, gives_rate, with_ticks.
  destruct (bool_decide (RSSItem.Code item = _));
    [destruct w; cbn; repeat split; lia|].
  destruct (bool_decide (RSSItem.Value item = _));
    [destruct w; cbn; repeat split; lia|].
  cbn [orb negb andb].
  destruct (parseValue _ _) as [err|value] eqn:Hv;
    [destruct w; cbn; repeat split; lia|].
  unfold rate_of. rewrite Hv.
  destruct (parseDate _ _) as [e1|date] eqn:Hd.
  - destruct (time_Parse RFC1123 _) as [e2|date] eqn:Hp.
    + cbn. split; [done|]. split; [lia|]. eexists. split; [done|].
      repeat split. exists (w_ticks w). split; [lia|done].
    + cbn. split; [by destruct w|]. split; [lia|]. eexists. split; [done|].
      done.
  - cbn. split; [by destruct w|]. split; [lia|]. eexists. split; [done|].
    done.
Qed.

Lemma scrape_items_spec items : ∀ rates w,
  let r := foldl (λ '(rates, w) item,
                    scrape_item ParseFloat time_Parse item rates w)
                 (rates, w) items in
  with_ticks (w_ticks r.2) w = r.2
  ∧ ∃ new, r.1 = rates ++ new
      ∧ (w_ticks w <= w_ticks r.2 <= w_ticks w + length new)%nat
      ∧ Forall2 (rate_of ParseFloat time_Parse (w_clock w) (w_ticks w)
                         (w_ticks r.2))
                (filter (λ item, gives_rate ParseFloat item = true) items) new.
Proof.
  induction items as [|item items IH]; intros rates w.
  - cbn. split; [by destruct w|]. exists [].
    rewrite app_nil_r. repeat split; [lia..|constructor].
  - cbn [foldl].
    pose proof (scrape_item_spec item rates w) as (Hw & Hle & Hitem).
    cbv zeta in Hw, Hle, Hitem.
    destruct (scrape_item ParseFloat time_Parse item rates w) as [rates1 w1]
      eqn:Hstep.
    cbn [fst snd] in Hw, Hle, Hitem.
    specialize (IH rates1 w1). cbv zeta in IH.
    destruct IH as (Hw' & new & Hnew & Hle' & Hall).
    assert (Hclock : w_clock w1 = w_clock w) by (by rewrite <- Hw).
    split; [rewrite <- Hw', <- Hw; done|].
    rewrite filter_cons. destruct (gives_rate ParseFloat item) eqn:Hg.
    + destruct Hitem as (rate & -> & Hrate).
      exists (rate :: new). rewrite Hnew, <- app_assoc. split; [done|].
      split; [cbn [length]; lia|].
      rewrite decide_True by done. constructor.
      * eapply rate_of_mono; [| |exact Hrate]; lia.
      * rewrite Hclock in Hall.
        eapply Forall2_impl; [exact Hall|]. intros ??.
        apply rate_of_mono; lia.
    + injection Hitem as -> ->. exists new. split; [done|].
      split; [lia|]. rewrite decide_False by done. done.
Qed.

(** Once the feed is fetched and parsed, [Scrape] cannot fail: it
    returns no error and one result, named after the scraper, with
    the feed's URL as metadata and the clock's reading after the loop
    as timestamp. Its rates are those of the items that have a code
    and a value that [parseValue] accepts, one for each such item and
    in the feed's order; an item without code or value, or with a
    value that does not parse, is left out, and no item is left out
    for its dates: the rate carries the item's date if it parses,
    else the publication date, else a reading of the clock. *)
Theorem Scrape_rates_follow_items s body items w :
  xml_Unmarshal body = inr items →
  ∃ rates now w',
    Scrape ParseFloat time_Parse xml_Unmarshal s (Response 200 (inr body)) w
    = (Some [Result.mk float64 "snb_interest_rates" now rates
               {[ "url"%string := rssURL s ]}], None, w')
    ∧ Forall2 (rate_of ParseFloat time_Parse (w_clock w) (w_ticks w)
                       (w_ticks w'))
              (filter (λ item, gives_rate ParseFloat item = true) items) rates
    ∧ (length rates <= length items)%nat
    ∧ now = w_clock w (w_ticks w' - 1)
    ∧ (w_ticks w < w_ticks w' <= S (w_ticks w + length rates))%nat
    ∧ with_ticks (w_ticks w') w = w'.
Proof.
  intros Hxml. unfold Scrape. rewrite bool_decide_eq_false_2 by (by intros []).
  rewrite Hxml. unfold scrape_items.
  pose proof (scrape_items_spec items [] w) as (Hw & new & Hnew & Hle & Hall).
  cbv zeta in Hw, Hle, Hnew, Hall.
  destruct (foldl _ _ items) as [rates w1]. cbn [fst snd] in *. subst rates.
  cbn [app]. unfold time_Now, Name. eexists _, _, _. split; [reflexivity|].
  cbn [w_ticks w_clock].
  assert (Hclock : w_clock w1 = w_clock w) by (by rewrite <- Hw).
  split; [|split; [|split; [|split]]].
  - eapply Forall2_impl; [exact Hall|]. intros ??. apply rate_of_mono; lia.
  - apply Forall2_length in Hall. rewrite <- Hall.
    apply length_filter.
  - rewrite Hclock. f_equal. lia.
  - lia.
  - rewrite <- Hw. done.
Qed.

End ScrapeFacts.

Lemma Scrape_rates_follow_items_witness :
  sample_xml_Unmarshal [] = inr sample_items
  ∧ ∃ now w',
      Scrape sample_ParseFloat sample_time_Parse sample_xml_Unmarshal
             NewSNBScraper (Response 200 (inr [])) idle_world
      = (Some [Result.mk (list byte) "snb_interest_rates" now
                 [ SNBInterestRate.mk (list byte) "SNBLZ"
                     (jsonMessage.bytes_of "0.25") sample_time
                     "SNB policy rate" "percent";
                   SNBInterestRate.mk (list byte) "ENG"
                     (jsonMessage.bytes_of "0.5") time.zero
                     "Overnight rate" "percent" ]
                 {[ "url"%string := rssURL NewSNBScraper ]}], None, w')
      ∧ w_ticks w' = 2%nat.
Proof.
  split; [reflexivity|].
  destruct (Scrape_rates_follow_items sample_ParseFloat sample_time_Parse
              sample_xml_Unmarshal NewSNBScraper [] sample_items idle_world
              eq_refl)
    as (rates & now & w' & Heq & _ & _ & _ & _ & Hw).
  exists now, w'.
  assert (Hc : Scrape sample_ParseFloat sample_time_Parse sample_xml_Unmarshal
                 NewSNBScraper (Response 200 (inr [])) idle_world
               = (Some [Result.mk (list byte) "snb_interest_rates" time.zero
                          [ SNBInterestRate.mk (list byte) "SNBLZ"
                              (jsonMessage.bytes_of "0.25") sample_time
                              "SNB policy rate" "percent";
                            SNBInterestRate.mk (list byte) "ENG"
                              (jsonMessage.bytes_of "0.5") time.zero
                              "Overnight rate" "percent" ]
                          {[ "url"%string := rssURL NewSNBScraper ]}], None,
                  with_ticks 2 idle_world))
    by (vm_compute; reflexivity).
  rewrite Hc in Heq. injection Heq as <- <- <-. split; reflexivity.
Defined.

(** ** A burst of payloads *)

Lemma relay_one beyond topic s p :
  sub_inv topic s → sub_pc s = AtLoop →
  (length (ch_buf (sub_msgChan s)) + length (decoded beyond [Deliver p])
   <= 100)%nat →
  ∃ s', run beyond s (relay_schedule beyond [p]) = Some s'
    ∧ sub_inv topic s'
    ∧ sub_pc s' = AtLoop
    ∧ ch_buf (sub_msgChan s')
      = ch_buf (sub_msgChan s) ++ decoded beyond [Deliver p]
    ∧ ch_sent (sub_msgChan s')
      = ch_sent (sub_msgChan s) ++ decoded beyond [Deliver p]
    ∧ sub_received s' = sub_received s.
Proof.
  intros Hinv Hpc Hroom.
  pose proof Hinv as [Ht Hcap Hlen Hcl Hcs Hcr Hf Hd].
  rewrite Hpc in Hcl. simpl in Hcl.
  unfold relay_schedule, decoded in *. cbn [flat_map omap list_omap] in *.
  rewrite app_nil_r.
  destruct (Unmarshal beyond p) as [err|m] eqn:Hu.
  - rewrite run_cons, step_deliver by done. cbn [run].
    assert (Hs' : on_message beyond p s =
                  sub_slog ERROR "Failed to unmarshal message"
                    [("topic", sub_topic s); ("error", err)]%string s)
      by (unfold on_message; by rewrite Hu).
    eexists. split; [done|]. rewrite Hs'. cbn. rewrite !app_nil_r.
    split; [|done]. rewrite <- Hs'.
    apply (step_inv beyond topic s (Deliver p)); [done|by apply step_deliver].
  - cbn [length] in Hroom.
    assert (Hs1 : step beyond s (Deliver p) = Some (on_message beyond p s))
      by (by apply step_deliver).
    pose proof (step_inv beyond topic _ _ _ Hinv Hs1) as Hinv1.
    assert (Hm : on_message beyond p s =
                 set_pc (AtHandOff m)
                   (sub_slog INFO "Received message from Redis"
                      [("topic", sub_topic s); ("messageID", ID m);
                       ("payload", jsonMessage.str_of (default [] (Body m)))]%string
                      s))
      by (unfold on_message; by rewrite Hu).
    rewrite run_cons, Hs1, run_cons.
    assert (Hs2 : step beyond (on_message beyond p s) HandOff
                  = Some (set_pc AtLoop
                            (set_msgChan
                               (mkChan (ch_cap (sub_msgChan s))
                                       (ch_buf (sub_msgChan s) ++ [m]) false
                                       (ch_sent (sub_msgChan s) ++ [m])
                                       (ch_closes (sub_msgChan s)))
                               (on_message beyond p s)))).
    { rewrite Hm. rewrite (step_hand_off _ _ m); [done|done|done|].
      simpl. rewrite Hcap. lia. }
    rewrite Hs2. cbn [run]. eexists. split; [done|].
    split; [exact (step_inv beyond topic _ _ _ Hinv1 Hs2)|].
    rewrite Hm. done.
Qed.

Lemma relay_schedule_cons beyond p payloads :
  relay_schedule beyond (p :: payloads)
  = relay_schedule beyond [p] ++ relay_schedule beyond payloads.
Proof. unfold relay_schedule. cbn [flat_map]. by rewrite app_nil_r. Qed.

Lemma relay_burst beyond topic payloads : ∀ s,
  sub_inv topic s → sub_pc s = AtLoop →
  (length (ch_buf (sub_msgChan s))
   + length (decoded beyond (Deliver <$> payloads)) <= 100)%nat →
  ∃ s', run beyond s (relay_schedule beyond payloads) = Some s'
    ∧ sub_pc s' = AtLoop
    ∧ ch_buf (sub_msgChan s')
      = ch_buf (sub_msgChan s) ++ decoded beyond (Deliver <$> payloads)
    ∧ ch_sent (sub_msgChan s')
      = ch_sent (sub_msgChan s) ++ decoded beyond (Deliver <$> payloads)
    ∧ sub_received s' = sub_received s.
Proof.
  induction payloads as [|p payloads IH]; intros s Hinv Hpc Hroom.
  - exists s. unfold decoded. cbn. by rewrite !app_nil_r.
  - change (Deliver <$> p :: payloads)
      with ([Deliver p] ++ (Deliver <$> payloads)) in *.
    rewrite decoded_app in *. rewrite length_app in Hroom.
    rewrite relay_schedule_cons.
    { destruct (relay_one beyond topic s p Hinv Hpc) as
          (s1 & Hrun1 & Hinv1 & Hpc1 & Hbuf1 & Hsent1 & Hrec1); [lia|].
      destruct (IH s1 Hinv1 Hpc1) as (s' & Hrun' & Hpc' & Hbuf' & Hsent' & Hrec').
      { rewrite Hbuf1, length_app. lia. }
      exists s'. rewrite run_app, Hrun1. split; [exact Hrun'|].
      rewrite Hbuf', Hsent', Hrec', Hbuf1, Hsent1, Hrec1, <- !app_assoc. done. }
Qed.

(** On the schedule on which the delivery goroutine, at its loop
    after any schedule, takes a burst of payloads and hands over each
    message it decodes at once, with no timeout, stop signal or panic
    in between: when the buffer has room for the messages the burst
    decodes to, all of them are in the output channel afterwards,
    behind what was buffered and in the broker's order, with the
    payloads that do not decode skipped, the consumer having received
    nothing meanwhile. *)
Theorem burst_is_buffered_in_order beyond topic ps evs s payloads :
  run beyond (spawn topic ps) evs = Some s →
  sub_pc s = AtLoop →
  (length (ch_buf (sub_msgChan s))
   + length (decoded beyond (Deliver <$> payloads)) <= 100)%nat →
  ∃ s', run beyond s (relay_schedule beyond payloads) = Some s'
    ∧ sub_pc s' = AtLoop
    ∧ ch_buf (sub_msgChan s')
      = ch_buf (sub_msgChan s) ++ decoded beyond (Deliver <$> payloads)
    ∧ ch_sent (sub_msgChan s')
      = ch_sent (sub_msgChan s) ++ decoded beyond (Deliver <$> payloads)
    ∧ sub_received s' = sub_received s.
Proof.
  intros Hrun Hpc Hroom.
  apply (relay_burst beyond topic); [|done..].
  exact (run_inv _ _ _ _ _ (sub_inv_spawn topic ps) Hrun).
Qed.

Lemma burst_is_buffered_in_order_witness :
  let s := spawn "jobs" (client_Subscribe "jobs") in
  ∃ s', run beyond_rejects s
          [Deliver empty_object; HandOff; Deliver no_json;
           Deliver empty_object; HandOff] = Some s'
    ∧ sub_pc s' = AtLoop
    ∧ ch_buf (sub_msgChan s') = [zeroMessage; zeroMessage].
Proof.
  intros s.
  destruct (burst_is_buffered_in_order beyond_rejects "jobs"
              (client_Subscribe "jobs") [] s
              [empty_object; no_json; empty_object])
    as (s' & Hrun & Hpc & Hbuf & _).
  - reflexivity.
  - reflexivity.
  - vm_compute. lia.
  - exists s'. split; [exact Hrun|]. split; [exact Hpc|]. exact Hbuf.
Defined.

Lemma keep_up_schedule_cons beyond p payloads :
  keep_up_schedule beyond (p :: payloads)
  = keep_up_schedule beyond [p] ++ keep_up_schedule beyond payloads.
Proof. unfold keep_up_schedule. cbn [flat_map]. by rewrite app_nil_r. Qed.

Lemma keep_up_one beyond topic s p :
  sub_inv topic s → sub_pc s = AtLoop → ch_buf (sub_msgChan s) = [] →
  ∃ s', run beyond s (keep_up_schedule beyond [p]) = Some s'
    ∧ sub_inv topic s'
    ∧ sub_pc s' = AtLoop
    ∧ ch_buf (sub_msgChan s') = []
    ∧ sub_received s' = sub_received s ++ decoded beyond [Deliver p].
Proof.
  intros Hinv Hpc Hbuf.
  destruct (relay_one beyond topic s p Hinv Hpc)
    as (s1 & Hrun1 & Hinv1 & Hpc1 & Hbuf1 & _ & Hrec1).
  { rewrite Hbuf. unfold decoded. cbn.
    destruct (Unmarshal beyond p); simpl; lia. }
  unfold keep_up_schedule, relay_schedule, decoded in *.
  cbn [flat_map omap list_omap] in *. rewrite app_nil_r in *.
  rewrite Hbuf in Hbuf1.
  destruct (Unmarshal beyond p) as [err|m] eqn:Hu.
  - exists s1. rewrite Hrec1. cbn. rewrite app_nil_r. done.
  - change [Deliver p; HandOff; Receive] with ([Deliver p; HandOff] ++ [Receive]).
    rewrite run_app, Hrun1, run_cons.
    assert (Hstep : step beyond s1 Receive
              = Some (mkSubscription (sub_topic s1) (sub_pubsub s1)
                        (mkChan (ch_cap (sub_msgChan s1)) []
                                (ch_closed (sub_msgChan s1))
                                (ch_sent (sub_msgChan s1))
                                (ch_closes (sub_msgChan s1)))
                        (sub_done s1) (sub_pc s1) (sub_watching s1) (sub_log s1)
                        (sub_received s1 ++ [m]) (sub_crashed s1))).
    { unfold step, chan_recv. rewrite Hbuf1. cbn. by destruct (sub_pc s1). }
    rewrite Hstep. cbn [run]. eexists. split; [done|].
    split; [exact (step_inv beyond topic _ _ _ Hinv1 Hstep)|].
    cbn. by rewrite Hrec1.
Qed.

Lemma keep_up_all beyond topic payloads : ∀ s,
  sub_inv topic s → sub_pc s = AtLoop → ch_buf (sub_msgChan s) = [] →
  ∃ s', run beyond s (keep_up_schedule beyond payloads) = Some s'
    ∧ sub_pc s' = AtLoop
    ∧ ch_buf (sub_msgChan s') = []
    ∧ sub_received s'
      = sub_received s ++ decoded beyond (Deliver <$> payloads).
Proof.
  induction payloads as [|p payloads IH]; intros s Hinv Hpc Hbuf.
  - exists s. unfold decoded. cbn. by rewrite app_nil_r.
  - change (Deliver <$> p :: payloads)
      with ([Deliver p] ++ (Deliver <$> payloads)).
    rewrite decoded_app, keep_up_schedule_cons.
    destruct (keep_up_one beyond topic s p Hinv Hpc Hbuf)
      as (s1 & Hrun1 & Hinv1 & Hpc1 & Hbuf1 & Hrec1).
    destruct (IH s1 Hinv1 Hpc1 Hbuf1) as (s' & Hrun' & Hpc' & Hbuf' & Hrec').
    exists s'. rewrite run_app, Hrun1. split; [exact Hrun'|].
    rewrite Hrec', Hrec1, <- app_assoc. done.
Qed.

(** A consumer that keeps up loses nothing, however many payloads
    arrive: when each message the delivery goroutine decodes is
    handed over and received before the next payload arrives, the
    consumer receives all the messages that the payloads decode to,
    in the broker's order, and the buffer is empty again. *)
Theorem keeping_up_consumer_receives_all beyond topic ps evs s payloads :
  run beyond (spawn topic ps) evs = Some s →
  sub_pc s = AtLoop →
  ch_buf (sub_msgChan s) = [] →
  ∃ s', run beyond s (keep_up_schedule beyond payloads) = Some s'
    ∧ sub_pc s' = AtLoop
    ∧ ch_buf (sub_msgChan s') = []
    ∧ sub_received s'
      = sub_received s ++ decoded beyond (Deliver <$> payloads).
Proof.
  intros Hrun Hpc Hbuf.
  apply (keep_up_all beyond topic); [|done..].
  exact (run_inv _ _ _ _ _ (sub_inv_spawn topic ps) Hrun).
Qed.

Lemma keeping_up_consumer_receives_all_witness :
  let s := spawn "jobs" (client_Subscribe "jobs") in
  ∃ s', run beyond_rejects s
          (keep_up_schedule beyond_rejects
             (replicate 150 empty_object ++ [no_json; empty_object]))
        = Some s'
    ∧ sub_pc s' = AtLoop
    ∧ sub_received s' = replicate 151 zeroMessage.
Proof.
  intros s.
  destruct (keeping_up_consumer_receives_all beyond_rejects "jobs"
              (client_Subscribe "jobs") [] s
              (replicate 150 empty_object ++ [no_json; empty_object]))
    as (s' & Hrun & Hpc & _ & Hrec).
  - reflexivity.
  - reflexivity.
  - reflexivity.
  - exists s'. split; [exact Hrun|]. split; [exact Hpc|].
    rewrite Hrec. vm_compute. reflexivity.
Defined.

(** ** The round trip of any message *)







(** ** A timestamp that has no RFC 3339 text *)

Local Open Scope Z_scope.

Lemma digits_rev_digits fuel u :
  0 <= u → Forall (λ c, in_range 48 57 c = true) (time.digits_rev fuel u).
Proof.
  revert u. induction fuel as [|fuel IH]; intros u Hu; [constructor|].
  cbn [time.digits_rev]. destruct (Z.ltb_spec u 10).
  - repeat constructor. apply digit_in_range. lia.
  - constructor; [apply digit_in_range; lia|]. apply IH. lia.
Qed.

Lemma digits_rev_long fuel u :
  (5 <= fuel)%nat → 10000 <= u → (5 <= length (time.digits_rev fuel u))%nat.
Proof.
  intros Hf Hu.
  do 5 (destruct fuel as [|fuel]; [lia|]).
  cbn [time.digits_rev].
  destruct (Z.ltb_spec u 10); [lia|].
  destruct (Z.ltb_spec (u / 10) 10); [lia|].
  destruct (Z.ltb_spec (u / 10 / 10) 10); [lia|].
  destruct (Z.ltb_spec (u / 10 / 10 / 10) 10); [lia|].
  cbn [length].
  destruct (_ <? 10); cbn [length]; lia.
Qed.

Lemma digits_rev_nonempty fuel u :
  (1 <= fuel)%nat → (1 <= length (time.digits_rev fuel u))%nat.
Proof.
  intros Hf. destruct fuel as [|fuel]; [lia|]. cbn [time.digits_rev].
  destruct (_ <? 10); cbn [length]; lia.
Qed.

(** The text of a year outside [0,9999] has no hyphen at index 4. *)
Lemma appendInt_year_wide y rest :
  y < 0 ∨ 9999 < y →
  ∃ c, (time.appendInt y 4 ++ rest) !! 4%nat = Some c ∧ c ≠ x2d.
Proof.
  intros Hy. unfold time.appendInt.
  pose proof (digits_rev_digits 20 (Z.abs y) ltac:(lia)) as Hds.
  assert (Hall : Forall (λ c, c ≠ x2d)
            (replicate (4 - length (rev (time.digits_rev 20 (Z.abs y)))) x30
             ++ rev (time.digits_rev 20 (Z.abs y)))).
  { apply Forall_app_2; [by apply Forall_replicate|].
    rewrite <- rev_alt'. apply Forall_reverse.
    eapply Forall_impl; [exact Hds|]. intros c Hc ->. discriminate. }
  remember (replicate _ x30 ++ rev _) as body eqn:Hbody.
  assert (Hlen : (4 <= length body)%nat).
  { subst body. rewrite length_app, length_replicate. lia. }
  destruct (Z.ltb_spec y 0) as [Hneg|Hpos].
  - cbn [app].
    assert (Hx : ∀ l : list byte, (x2d :: l) !! 4%nat = l !! 3%nat) by done.
    rewrite Hx.
    destruct (body !! 3%nat) as [c|] eqn:Hc.
    2:{ apply lookup_ge_None in Hc. lia. }
    exists c. rewrite lookup_app_l by (apply lookup_lt_Some in Hc; lia).
    split; [done|]. rewrite Forall_lookup in Hall. by eapply Hall.
  - cbn [app].
    assert (Hlong : (5 <= length body)%nat).
    { subst body. rewrite length_app, length_rev.
      pose proof (digits_rev_long 20 (Z.abs y) ltac:(lia) ltac:(lia)). lia. }
    destruct (body !! 4%nat) as [c|] eqn:Hc.
    2:{ apply lookup_ge_None in Hc. lia. }
    exists c. rewrite lookup_app_l by lia.
    split; [done|]. rewrite Forall_lookup in Hall. by eapply Hall.
Qed.

Lemma MarshalJSON_year_out_of_range t :
  time.Year t < 0 ∨ 9999 < time.Year t →
  time.MarshalJSON t
  = inl "Time.MarshalJSON: year outside of range [0,9999]"%string.
Proof.
  intros Hy. unfold time.MarshalJSON, time.appendStrictRFC3339.
  unfold time.appendFormatRFC3339, time.Year in *.
  destruct (time.absDate _) as [[y mo] d]. cbn [fst] in Hy.
  destruct (time.absClock _) as [[h mi] s].
  cbv zeta.
  destruct (appendInt_year_wide y
              ([x2d] ++ time.appendInt mo 2 ++ [x2d] ++ time.appendInt d 2
               ++ [x54] ++ time.appendInt h 2 ++ [x3a] ++ time.appendInt mi 2
               ++ [x3a] ++ time.appendInt s 2 ++ time.appendNano (time.nsec t)
               ++ time.appendZone (time.offset t)) Hy) as (c & Hc & Hne).
  rewrite Hc. rewrite bool_decide_eq_false_2 by congruence. done.
Qed.

Local Close Scope Z_scope.

(** [Send] cannot publish a message whose timestamp, after
    backfilling, lies in a year before 0 or after 9999: such a
    timestamp has no RFC 3339 text, [Send] returns the error of
    [Time.MarshalJSON] wrapped as a failure to marshal, puts no
    request to the broker and publishes nothing. *)
Theorem send_rejects_year_out_of_range topic message w :
  let ts := v_Timestamp (backfill message w).1 in
  (time.Year ts < 0 ∨ 9999 < time.Year ts)%Z →
  (Send topic message w).1
  = Some (wrapError "failed to marshal message"
            (errorString "json: error calling MarshalJSON for type time.Time: Time.MarshalJSON: year outside of range [0,9999]"))
  ∧ w_published (Send topic message w).2 = w_published w
  ∧ w_requests (Send topic message w).2 = w_requests w.
Proof.
  intros ts Hy.
  destruct (Send_unfold topic message w) as (HR & HP & HQ & _).
  cbv zeta in HR, HP, HQ.
  assert (Hm : jsonMessage.Marshal (load (w_heap w) (backfill message w).1)
               = inl "json: error calling MarshalJSON for type time.Time: Time.MarshalJSON: year outside of range [0,9999]"%string).
  { unfold jsonMessage.Marshal, load. cbn [Timestamp]. fold ts.
    by rewrite (MarshalJSON_year_out_of_range ts Hy). }
  rewrite Hm in HR, HP, HQ. done.
Qed.

Lemma send_rejects_year_out_of_range_witness :
  let message := mkMessageValue "job-1" None year_10000 None in
  time.Year year_10000 = 10000%Z
  ∧ (Send "jobs" message idle_world).1
    = Some (wrapError "failed to marshal message"
              (errorString "json: error calling MarshalJSON for type time.Time: Time.MarshalJSON: year outside of range [0,9999]"))
  ∧ w_published (Send "jobs" message idle_world).2 = []
  ∧ w_requests (Send "jobs" message idle_world).2 = 0%nat.
Proof.
  intros message. split; [vm_compute; reflexivity|].
  apply (send_rejects_year_out_of_range "jobs" message idle_world).
  right. vm_compute. reflexivity.
Defined.

(** ** Where every decoded message goes *)

Lemma step_fate beyond topic s e s' :
  sub_inv topic s → step beyond s e = Some s' →
  ch_sent (sub_msgChan s') ++ in_hand s'
  ++ (if is_timeout e then in_hand s else [])
  ++ (if is_exit e then in_hand s else [])
  ≡ₚ ch_sent (sub_msgChan s) ++ in_hand s ++ decoded beyond [e].
Proof.
  intros Hinv Hstep.
  pose proof Hinv as [Ht Hcap Hlen Hcl Hcs Hcr Hf Hd].
  assert (Hdef : ∀ r x, ch_sent (sub_msgChan (deferred r x)) = ch_sent (sub_msgChan x)
                        ∧ in_hand (deferred r x) = []).
  { intros r x. destruct (deferred_sent r x) as [-> Hpc].
    unfold in_hand. by rewrite Hpc. }
  assert (Hdone : ∀ ue ce x, ch_sent (sub_msgChan (on_done ue ce x))
                             = ch_sent (sub_msgChan x)
                             ∧ in_hand (on_done ue ce x) = []).
  { intros ue ce x. destruct (on_done_sent ue ce x) as [-> Hpc].
    unfold in_hand. by rewrite Hpc. }
  assert (Hrecv : ∀ s1, step beyond s Receive = Some s1 →
            ch_sent (sub_msgChan s1) = ch_sent (sub_msgChan s)
            ∧ in_hand s1 = in_hand s).
  { intros s1 H1. destruct (step_receive _ _ _ H1) as [Hp ->].
    unfold in_hand. by rewrite Hp. }
  unfold decoded. cbn [omap list_omap].
  destruct e; cbn [is_timeout is_exit].
  - (* Stop *)
    unfold step in Hstep.
    destruct (sub_pc s) eqn:Hpc; try discriminate;
      (destruct (sub_done s); [|discriminate]); injection Hstep as <-.
    + destruct (Hdone unsubscribe_err close_err s) as [-> ->].
      unfold in_hand. rewrite Hpc. cbn [app]. by rewrite ?app_nil_r.
    + destruct (Hdef None s) as [-> ->].
      unfold in_hand. rewrite Hpc. cbn [app]. by rewrite ?app_nil_r.
  - (* Deliver *)
    unfold step in Hstep. destruct (sub_pc s) eqn:Hpc; try discriminate.
    injection Hstep as <-. unfold on_message, in_hand. rewrite Hpc.
    destruct (Unmarshal beyond payload) as [err|m]; cbn; rewrite ?Hpc;
      cbn [app]; by rewrite ?app_nil_r.
  - (* BrokerClosed *)
    unfold step in Hstep. destruct (sub_pc s) eqn:Hpc; try discriminate.
    injection Hstep as <-. destruct (Hdef None s) as [-> ->].
    unfold in_hand. rewrite Hpc. cbn [app]. by rewrite ?app_nil_r.
  - (* HandOff *)
    unfold step in Hstep. destruct (sub_pc s) eqn:Hpc; try discriminate.
    simpl in Hcl.
    unfold chan_send in Hstep. rewrite Hcl in Hstep.
    destruct (_ <? _)%nat; [|discriminate]. injection Hstep as <-.
    unfold in_hand. rewrite Hpc. cbn. by rewrite ?app_nil_r.
  - (* Timeout *)
    unfold step in Hstep. destruct (sub_pc s) eqn:Hpc; try discriminate.
    injection Hstep as <-. unfold in_hand. rewrite Hpc. cbn.
    by rewrite ?app_nil_r.
  - (* Panic *)
    unfold step in Hstep.
    destruct (sub_pc s) eqn:Hpc; try discriminate; injection Hstep as <-;
      destruct (Hdef (Some r) s) as [-> ->];
      unfold in_hand; rewrite Hpc; cbn [app]; by rewrite ?app_nil_r.
  - (* Cancel *)
    apply step_cancel in Hstep as ->. unfold in_hand. cbn.
    by rewrite ?app_nil_r.
  - (* Receive *)
    destruct (Hrecv _ Hstep) as [-> ->]. by rewrite ?app_nil_r.
Qed.

Lemma run_fate beyond topic evs : ∀ s s',
  sub_inv topic s → run beyond s evs = Some s' →
  ch_sent (sub_msgChan s') ++ in_hand s'
  ++ timed_out beyond s evs ++ discarded beyond s evs
  ≡ₚ ch_sent (sub_msgChan s) ++ in_hand s ++ decoded beyond evs.
Proof.
  induction evs as [|e evs IH]; intros s s' Hinv Hrun.
  - injection Hrun as <-. unfold decoded. cbn. by rewrite ?app_nil_r.
  - rewrite run_cons in Hrun.
    destruct (step beyond s e) as [s1|] eqn:Hstep; [|discriminate].
    pose proof (step_inv _ _ _ _ _ Hinv Hstep) as Hinv1.
    pose proof (IH _ _ Hinv1 Hrun) as H1.
    pose proof (step_fate _ _ _ _ _ Hinv Hstep) as H0.
    unfold timed_out, discarded in *. cbn [held_when]. rewrite Hstep.
    change (e :: evs) with ([e] ++ evs). rewrite decoded_app.
    set (T := if is_timeout e then in_hand s else []) in *.
    set (X := if is_exit e then in_hand s else []) in *.
    transitivity ((ch_sent (sub_msgChan s') ++ in_hand s'
                   ++ held_when is_timeout beyond s1 evs
                   ++ held_when is_exit beyond s1 evs) ++ T ++ X).
    { solve_Permutation. }
    rewrite H1.
    transitivity ((ch_sent (sub_msgChan s1) ++ in_hand s1 ++ T ++ X)
                  ++ decoded beyond evs).
    { solve_Permutation. }
    rewrite H0. by rewrite <- !app_assoc.
Qed.

Lemma held_when_returned kind beyond evs : ∀ s,
  sub_pc s = Returned → held_when kind beyond s evs = [].
Proof.
  induction evs as [|e evs IH]; intros s Hpc; [done|].
  cbn [held_when]. destruct (step beyond s e) as [s1|] eqn:Hstep; [|done].
  unfold in_hand. rewrite Hpc. destruct (kind e); cbn [app];
    apply IH; by eapply returned_step.
Qed.

Lemma timed_out_length beyond evs : ∀ s s',
  run beyond s evs = Some s' →
  length (timed_out beyond s evs) = timeouts evs.
Proof.
  unfold timed_out, timeouts.
  induction evs as [|e evs IH]; intros s s' Hrun; [done|].
  rewrite run_cons in Hrun. cbn [held_when].
  destruct (step beyond s e) as [s1|] eqn:Hstep; [|discriminate].
  rewrite length_app, (IH _ _ Hrun), filter_cons.
  destruct (is_timeout e) eqn:He.
  - rewrite decide_True by done. cbn [length].
    destruct e; try discriminate. unfold step in Hstep. unfold in_hand.
    destruct (sub_pc s); try discriminate. done.
  - rewrite decide_False by done. done.
Qed.

Lemma discarded_at_most_one beyond topic evs : ∀ s s',
  sub_inv topic s → run beyond s evs = Some s' →
  (length (discarded beyond s evs) <= 1)%nat
  ∧ (discarded beyond s evs ≠ [] → sub_pc s' = Returned).
Proof.
  unfold discarded.
  induction evs as [|e evs IH]; intros s s' Hinv Hrun.
  - cbn. split; [lia|done].
  - rewrite run_cons in Hrun. cbn [held_when].
    destruct (step beyond s e) as [s1|] eqn:Hstep; [|discriminate].
    pose proof (step_inv _ _ _ _ _ Hinv Hstep) as Hinv1.
    destruct (is_exit e) eqn:He.
    + pose proof (exit_returns _ _ _ _ _ Hinv He Hstep) as Hret.
      rewrite (held_when_returned _ _ _ _ Hret), app_nil_r.
      split.
      * unfold in_hand. destruct (sub_pc s); simpl; lia.
      * intros _. by eapply returned_run.
    + cbn [app]. by apply (IH s1).
Qed.

Lemma discarded_cause beyond evs : ∀ s,
  discarded beyond s evs ≠ [] →
  ∃ e, e ∈ evs ∧ (is_stop e = true ∨ ∃ r, e = Panic r).
Proof.
  unfold discarded.
  induction evs as [|e evs IH]; intros s Hne; [done|].
  cbn [held_when] in Hne.
  destruct (step beyond s e) as [s1|] eqn:Hstep; [|done].
  destruct (decide (held_when is_exit beyond s1 evs = [])) as [Hnil|Hrest].
  - rewrite Hnil, app_nil_r in Hne.
    destruct (is_exit e) eqn:He; [|done].
    exists e. split; [by left|].
    destruct e; try discriminate; [by left| |right; by eexists].
    exfalso. unfold step in Hstep. unfold in_hand in Hne.
    by destruct (sub_pc s).
  - destruct (IH s1 Hrest) as (e' & Hin & He'). exists e'.
    split; [by right|done].
Qed.

(** C9. On every schedule of a subscription, the messages put into
    the output channel are a subsequence of the messages that the
    broker's payloads decoded to, in the broker's order, and the
    consumer has received a prefix of them in that order. Every
    decoded message has one of four fates: it was put into the
    channel, it is in hand now, it was dropped when the timer of the
    hand-off fired (one message for each timeout), or it was
    discarded because the delivery goroutine returned with it in
    hand. At most one message is discarded, only when the goroutine
    has returned, and only on a stop signal or a panic taken at the
    hand-off. *)
Theorem decoded_messages_accounted_for beyond topic ps evs s :
  run beyond (spawn topic ps) evs = Some s →
  ch_sent (sub_msgChan s) `sublist_of` decoded beyond evs
  ∧ sub_received s ++ ch_buf (sub_msgChan s) = ch_sent (sub_msgChan s)
  ∧ decoded beyond evs
    ≡ₚ ch_sent (sub_msgChan s) ++ in_hand s
       ++ timed_out beyond (spawn topic ps) evs
       ++ discarded beyond (spawn topic ps) evs
  ∧ length (timed_out beyond (spawn topic ps) evs) = timeouts evs
  ∧ (length (discarded beyond (spawn topic ps) evs) <= 1)%nat
  ∧ (discarded beyond (spawn topic ps) evs ≠ [] →
     sub_pc s = Returned
     ∧ ∃ e, e ∈ evs ∧ (is_stop e = true ∨ ∃ r, e = Panic r)).
Proof.
  intros Hrun.
  pose proof (sub_inv_spawn topic ps) as Hinv0.
  pose proof (run_inv _ _ _ _ _ Hinv0 Hrun) as [_ _ _ _ _ _ Hfifo _].
  pose proof (run_fate _ _ _ _ _ Hinv0 Hrun) as Hfate.
  destruct (discarded_at_most_one _ _ _ _ _ Hinv0 Hrun) as [Hone Hret].
  split; [by eapply sent_sublist_decoded|]. split; [done|].
  split; [by rewrite Hfate|]. split; [by eapply timed_out_length|].
  split; [done|]. intros Hne. split; [by apply Hret|].
  by eapply discarded_cause.
Qed.

Lemma decoded_messages_accounted_for_witness :
  let evs := [Deliver empty_object; Timeout; Deliver no_json;
              Deliver empty_object; HandOff; Receive;
              Deliver empty_object; Cancel; Stop None None] in
  let s0 := spawn "jobs" (client_Subscribe "jobs") in
  ∃ s, run beyond_rejects s0 evs = Some s
    ∧ decoded beyond_rejects evs = [zeroMessage; zeroMessage; zeroMessage]
    ∧ ch_sent (sub_msgChan s) = [zeroMessage]
    ∧ sub_received s = [zeroMessage]
    ∧ timed_out beyond_rejects s0 evs = [zeroMessage]
    ∧ discarded beyond_rejects s0 evs = [zeroMessage]
    ∧ decoded beyond_rejects evs
      ≡ₚ ch_sent (sub_msgChan s) ++ in_hand s
         ++ timed_out beyond_rejects s0 evs ++ discarded beyond_rejects s0 evs
    ∧ sub_pc s = Returned.
Proof.
  intros evs s0.
  assert (Hrun : ∃ s, run beyond_rejects s0 evs = Some s
                      ∧ ch_sent (sub_msgChan s) = [zeroMessage]
                      ∧ sub_received s = [zeroMessage]).
  { eexists. split; [vm_compute; reflexivity|]. split; reflexivity. }
  destruct Hrun as (s & Hrun & Hsent & Hrec).
  destruct (decoded_messages_accounted_for beyond_rejects "jobs"
              (client_Subscribe "jobs") evs s Hrun)
    as (_ & _ & Hfate & _ & _ & Hret).
  exists s. split; [exact Hrun|].
  split; [vm_compute; reflexivity|]. split; [exact Hsent|].
  split; [exact Hrec|]. split; [vm_compute; reflexivity|].
  split; [vm_compute; reflexivity|]. split; [exact Hfate|].
  apply Hret. vm_compute. discriminate.
Defined.

(** C9, the claim as worded fails: a payload that decodes arrives,
    the context is cancelled while the delivery goroutine holds the
    message at the hand-off, and the goroutine takes the stop branch
    and returns: the message was decoded, no timer fired, and the
    message is not delivered. *)
Lemma message_in_hand_lost_on_stop :
  let evs := [Deliver empty_object; Cancel; Stop None None] in
  ∃ s, run beyond_rejects (spawn "jobs" (client_Subscribe "jobs")) evs = Some s
    ∧ sub_pc s = Returned
    ∧ Unmarshal beyond_rejects empty_object = inr zeroMessage
    ∧ decoded beyond_rejects evs = [zeroMessage]
    ∧ timeouts evs = 0%nat
    ∧ ch_sent (sub_msgChan s) = []
    ∧ ch_buf (sub_msgChan s) = []
    ∧ sub_received s = [].
Proof.
  intros evs. eexists. split; [vm_compute; reflexivity|].
  repeat split; vm_compute; reflexivity.
Qed.

(** ** The identifiers and the timestamps that Send assigns *)

Lemma Send_reads topic message w :
  let w' := (Send topic message w).2 in
  w_rand w' = w_rand w ∧ w_clock w' = w_clock w
  ∧ w_draws w' = (if bool_decide (v_ID message = ""%string)
                  then S (w_draws w) else w_draws w)
  ∧ w_ticks w' = (if time.IsZero (v_Timestamp message)
                  then S (w_ticks w) else w_ticks w).
Proof.
  unfold Send.
  pose proof (backfill_draws message
                (slog INFO "Attempt to send message"
                   [("topic", topic); ("messageID", v_ID message)]%string w))
    as (Hr & Hc & Hd & Ht).
  cbv zeta in Hr, Hc, Hd, Ht.
  destruct (backfill message _) as [m' w1]. cbn [snd] in Hr, Hc, Hd, Ht.
  destruct (jsonMessage.Marshal _); [done|].
  unfold Publish, request. cbn [fst snd].
  destruct (w_net w1 (w_requests w1)); done.
Qed.

Lemma generated_ids_draws topic messages : ∀ w,
  generated_ids topic messages w
  = (λ i, uuid.String (uuid.fromRandom (w_rand w i)))
      <$> seq (w_draws w)
              (length (filter (λ m, v_ID m = ""%string) messages)).
Proof.
  induction messages as [|message messages IH]; intros w; [done|].
  cbn [generated_ids]. rewrite IH.
  destruct (Send_reads topic message w) as (-> & _ & -> & _).
  destruct (backfill_fields message w) as (HI & _). cbv zeta in HI.
  rewrite filter_cons. case_bool_decide as Hid.
  - rewrite decide_True by done. cbn [length seq fmap list_fmap app].
    by rewrite HI.
  - by rewrite decide_False.
Qed.

Lemma uuid_texts_NoDup (us : list (list byte)) :
  Forall (λ u, length u = 16%nat) us → NoDup us → NoDup (uuid.String <$> us).
Proof.
  intros Hlen Hnd. apply NoDup_fmap_2_strong; [|done].
  intros u u' Hu Hu' Heq. rewrite Forall_forall in Hlen.
  apply uuid_String_inj; auto.
Qed.

(** C4. [Send] serializes and publishes its own copy of the message
    after the two assignments: the identifier is the string of a newly
    drawn UUID when the caller's was empty and the caller's otherwise,
    and is never empty; the timestamp is the reading of the clock when
    the caller's was zero and the caller's otherwise; Body and
    Metadata are the caller's. What a successful [Send] adds to the
    broker is the encoding of that copy. Generating the ID uses up
    the draw of the random source and reading the clock uses up the
    tick, and nothing else does: so when messages are sent one after
    the other, the IDs generated are the texts of the UUIDs of
    successive draws, one draw for each message without ID, and no
    two of them are equal unless the random source gave the same
    UUID twice. *)
Theorem send_backfills_before_publishing topic message w :
  let m' := (backfill message w).1 in
  let w' := (Send topic message w).2 in
  v_ID m' = (if bool_decide (v_ID message = ""%string)
             then uuid.String (uuid.fromRandom (w_rand w (w_draws w)))
             else v_ID message)
  ∧ v_ID m' ≠ ""%string
  ∧ v_Timestamp m' = (if time.IsZero (v_Timestamp message)
                      then w_clock w (w_ticks w) else v_Timestamp message)
  ∧ v_Body m' = v_Body message
  ∧ v_Metadata m' = v_Metadata message
  ∧ w_published w' =
    match jsonMessage.Marshal (load (w_heap w) m'), w_net w (w_requests w) with
    | inr data, None => w_published w ++ [(topic, data)]
    | _, _ => w_published w
    end
  ∧ w_rand w' = w_rand w
  ∧ w_clock w' = w_clock w
  ∧ w_draws w' = (if bool_decide (v_ID message = ""%string)
                  then S (w_draws w) else w_draws w)
  ∧ w_ticks w' = (if time.IsZero (v_Timestamp message)
                  then S (w_ticks w) else w_ticks w)
  ∧ ∀ messages,
      let draws := seq (w_draws w)
                       (length (filter (λ m, v_ID m = ""%string) messages)) in
      generated_ids topic messages w
      = (λ i, uuid.String (uuid.fromRandom (w_rand w i))) <$> draws
      ∧ (NoDup ((λ i, uuid.fromRandom (w_rand w i)) <$> draws) →
         NoDup (generated_ids topic messages w)).
Proof.
  destruct (backfill_fields message w) as (HI & HT & HB & HM).
  destruct (Send_unfold topic message w) as (_ & HP & _).
  destruct (Send_reads topic message w) as (Hr & Hc & Hd & Hk).
  cbv zeta in *.
  split; [done|]. split.
  { rewrite HI. case_bool_decide; [apply uuid_String_nonempty | done]. }
  do 8 (split; [done|]).
  intros messages. split; [apply generated_ids_draws|].
  intros Hnd. rewrite generated_ids_draws.
  rewrite (list_fmap_compose (λ i, uuid.fromRandom (w_rand w i)) uuid.String).
  apply uuid_texts_NoDup; [|done].
  apply Forall_fmap, Forall_forall. intros i _. apply fromRandom_length.
Qed.

Lemma send_backfills_before_publishing_witness :
  let named := mkMessageValue "job-7" None time.zero None in
  let messages := [blank_value; named; blank_value; blank_value] in
  w_draws (Send "jobs" blank_value counting_world).2 = 1%nat
  ∧ w_draws (Send "jobs" named counting_world).2 = 0%nat
  ∧ w_ticks (Send "jobs" blank_value counting_world).2 = 1%nat
  ∧ generated_ids "jobs" messages counting_world
    = [ "00000000-0000-4000-8000-000000000000";
        "01010101-0101-4101-8101-010101010101";
        "02020202-0202-4202-8202-020202020202" ]%string
  ∧ NoDup (generated_ids "jobs" messages counting_world).
Proof.
  intros named messages.
  destruct (send_backfills_before_publishing "jobs" blank_value counting_world)
    as (_ & _ & _ & _ & _ & _ & _ & _ & Hd & Hk & Hgen).
  destruct (send_backfills_before_publishing "jobs" named counting_world)
    as (_ & _ & _ & _ & _ & _ & _ & _ & Hd' & _).
  destruct (Hgen messages) as [Hids Hnd].
  split; [exact Hd|]. split; [exact Hd'|]. split; [exact Hk|].
  split; [rewrite Hids; vm_compute; reflexivity|].
  apply Hnd. vm_compute.
  repeat (constructor; [intros H; repeat (apply elem_of_cons in H as [H|H];
                                           [discriminate|]);
                        by apply elem_of_nil in H|]).
  constructor.
Defined.
